(** * Interview coach: live-session orchestration and audio helpers

    A shallow embedding of [src/utils/audioUtils.ts], of the two
    revisions of [src/components/InterviewScreen.tsx] (the continuous
    voice screen and the push-to-talk screen) and of the shell in
    [src/App.tsx] with the setup screen, followed by the properties of
    the specification that concern them.

    Conventions.
    - A JavaScript string is the list of its UTF-16 code units.
    - The elements of a [Uint8Array] are a [list byte]; a store into it
      wraps modulo 256. Where the code reaches for the [ArrayBuffer]
      behind an array, the array is the record [AudioUtils.Uint8Array].
    - JavaScript numbers are integers ([Z]) or the rationals they denote
      ([Q]); sums and quotients of times are rounded as binary64 rounds
      them ([Number.round]).
    - A callback is a state function: the scheduling is single-threaded,
      and a callback is taken to run to its last statement, the promises
      it awaits being settled, before the next one starts. What React
      runs later than the callback that asked for it (the updater passed
      to [setTranscript] in the continuous screen) is a step of its
      own. *)

From Stdlib Require Import ZArith List Lia Lqa Bool QArith Qround Qminmax.
From Stdlib Require Import Qabs Qpower.
From Stdlib.Strings Require Import String Ascii Byte.
From Stdlib Require Import DecimalString Sorted.
From stdpp Require Import list.
Import ListNotations.

Local Open Scope Z_scope.

(** ** JavaScript strings *)

Module JS.

Definition jsstring := list Z.

(** An ASCII literal of the source, as code units. *)
Fixpoint lit (s : string) : jsstring :=
  match s with
  | EmptyString => []
  | String a r => Z.of_nat (nat_of_ascii a) :: lit r
  end.

Global Arguments lit : simpl never.

(** [WhiteSpace] and [LineTerminator] code points of ECMAScript, the
    ones [String.prototype.trim] removes. All are in the BMP. *)
Definition isWhiteSpace (c : Z) : bool :=
  ((9 <=? c) && (c <=? 13)) || (c =? 32) || (c =? 160) || (c =? 5760)
  || ((8192 <=? c) && (c <=? 8202)) || (c =? 8232) || (c =? 8233)
  || (c =? 8239) || (c =? 8287) || (c =? 12288) || (c =? 65279).

Fixpoint trimStart (s : jsstring) : jsstring :=
  match s with
  | [] => []
  | c :: r => if isWhiteSpace c then trimStart r else s
  end.

Definition trimEnd (s : jsstring) : jsstring := rev (trimStart (rev s)).

Definition trim (s : jsstring) : jsstring := trimEnd (trimStart s).

(** Truthiness of a string: non-empty. *)
Definition truthy (s : jsstring) : bool :=
  match s with [] => false | _ => true end.

(** [s += t] where [t] may be [undefined]. *)
Definition append_opt (s : jsstring) (t : option jsstring) : jsstring :=
  s ++ match t with Some x => x | None => lit "undefined" end.

Definition eqb (s t : jsstring) : bool :=
  bool_decide (s = t).

End JS.

(** ** JavaScript numbers

    A number is an IEEE 754 binary64 value. The result of an arithmetic
    operation is the exact result rounded to 53 significant bits, to the
    nearest value and to the even significand on a tie. The exponent is
    not bounded here. Binary64 bounds it: it overflows from 2^1024 on,
    which times and durations do not reach, and it keeps fewer bits
    below 2^-1022, where the sum of two numbers is exact either way. *)

Module Number.

Definition pow2 (e : Z) : Q := (2 ^ e)%Q.

(** The exponent [e] with 2^(e-1) <= |x| < 2^e, for [x] other than 0. *)
Definition mag (x : Q) : Z :=
  let k := Z.log2 (Z.abs (Qnum x)) - Z.log2 (Zpos (Qden x)) in
  if Qle_bool (pow2 k) (Qabs x) then k + 1 else k.

(** The nearest integer, the even one of two equally near. *)
Definition roundHalfEven (q : Q) : Z :=
  let f := Qfloor q in
  match (q - inject_Z f ?= 1 # 2)%Q with
  | Lt => f
  | Gt => f + 1
  | Eq => if Z.even f then f else f + 1
  end.

(** The unit in the last place of a 53-bit significand at [x]. *)
Definition ulp (x : Q) : Q := pow2 (mag x - 53).

Definition round (x : Q) : Q :=
  (inject_Z (roundHalfEven (x / ulp x)) * ulp x)%Q.

(** A rational that is a number: rounding leaves it as it is. *)
Definition representable (x : Q) : Prop := (round x == x)%Q.

End Number.

(** ** src/utils/audioUtils.ts *)

Module AudioUtils.

Import JS.

(** *** The platform's [btoa] and [atob]

    [btoa] is RFC 4648 base64 with padding over a string of code units
    below 256 and raises [InvalidCharacterError] otherwise; [atob] is the
    forgiving-base64 decode of the HTML standard. *)

Definition b64_char (v : Z) : Z :=
  if v <? 26 then v + 65
  else if v <? 52 then v + 71
  else if v <? 62 then v - 4
  else if v =? 62 then 43 else 47.

Definition b64_value (c : Z) : option Z :=
  if (65 <=? c) && (c <=? 90) then Some (c - 65)
  else if (97 <=? c) && (c <=? 122) then Some (c - 71)
  else if (48 <=? c) && (c <=? 57) then Some (c + 4)
  else if c =? 43 then Some 62
  else if c =? 47 then Some 63
  else None.

Definition octet (x : Z) : Prop := 0 <= x < 256.
Definition sextet (x : Z) : Prop := 0 <= x < 64.

(** Octets regrouped into 6-bit values, the last group zero-filled. *)
Fixpoint sextets (l : list Z) : list Z :=
  match l with
  | [] => []
  | [a] => [a / 4; (a mod 4) * 16]
  | [a; b] => [a / 4; (a mod 4) * 16 + b / 16; (b mod 16) * 4]
  | a :: b :: c :: r =>
      [a / 4; (a mod 4) * 16 + b / 16; (b mod 16) * 4 + c / 64; c mod 64]
        ++ sextets r
  end.

Definition padding (n : nat) : jsstring :=
  match (n mod 3)%nat with
  | 1%nat => [61; 61]
  | 2%nat => [61]
  | _ => []
  end.

Definition btoa (s : jsstring) : option jsstring :=
  if forallb (fun c => (0 <=? c) && (c <=? 255)) s
  then Some (map b64_char (sextets s) ++ padding (length s))
  else None.

Definition isAsciiWhitespace (c : Z) : bool :=
  (c =? 9) || (c =? 10) || (c =? 12) || (c =? 13) || (c =? 32).

(** Step 2 of forgiving-base64 decode: when the length is a multiple of
    four, one or two trailing [=] are removed. *)
Definition remove_padding (data : jsstring) : jsstring :=
  if (Z.of_nat (length data) mod 4 =? 0) then
    match rev data with
    | c1 :: c2 :: r =>
        if c1 =? 61 then (if c2 =? 61 then rev r else rev (c2 :: r)) else data
    | [c1] => if c1 =? 61 then [] else data
    | [] => data
    end
  else data.

Fixpoint values (data : jsstring) : option (list Z) :=
  match data with
  | [] => Some []
  | c :: r =>
      match b64_value c, values r with
      | Some v, Some vs => Some (v :: vs)
      | _, _ => None
      end
  end.

(** 24-bit buffer emptied as three octets; a rest of 12 or 18 bits
    gives one or two octets, the low bits discarded. *)
Fixpoint octets (v : list Z) : list Z :=
  match v with
  | a :: b :: c :: d :: r =>
      [a * 4 + b / 16; (b mod 16) * 16 + c / 4; (c mod 4) * 64 + d]
        ++ octets r
  | [a; b; c] => [a * 4 + b / 16; (b mod 16) * 16 + c / 4]
  | [a; b] => [a * 4 + b / 16]
  | _ => []
  end.

Definition atob (s : jsstring) : option jsstring :=
  let data := remove_padding (List.filter (fun c => negb (isAsciiWhitespace c)) s) in
  if (Z.of_nat (length data) mod 4 =? 1) then None
  else match values data with
       | Some v => Some (octets v)
       | None => None
       end.

(** *** Typed arrays *)

Definition u8 (b : byte) : Z := Z.of_N (Byte.to_N b).

(** A store [bytes[i] = x] into a [Uint8Array] keeps [x] modulo 256. *)
Definition toUint8 (x : Z) : byte :=
  match Byte.of_N (Z.to_N (x mod 256)) with
  | Some b => b
  | None => x00
  end.

(** *** [decode] and [encode] *)

(** [binaryString.charCodeAt(i)] stored at [bytes[i]] for every [i]. *)
Definition decode (base64 : jsstring) : option (list byte) :=
  match atob base64 with
  | Some binaryString => Some (map toUint8 binaryString)
  | None => None
  end.

(** [binary += String.fromCharCode(bytes[i])] for every [i], then [btoa]. *)
Definition encode (bytes : list byte) : option jsstring :=
  btoa (map u8 bytes).

(** *** [decodeAudioData] *)

(** A JavaScript number as far as the audio code needs it: an exact
    rational or [NaN]. A 16-bit integer divided by 32768 has at most 16
    significant bits, so binary64 and the binary32 of a [Float32Array]
    hold it exactly. *)
Inductive number := Num (q : Q) | NaN.

(** Conversion to a signed 16-bit element: modulo 2^16 into
    [-32768, 32767]. *)
Definition wrapInt16 (x : Z) : Z := (x + 32768) mod 65536 - 32768.

(** A [Uint8Array] is a window onto an [ArrayBuffer]: the bytes of the
    buffer, the offset of the first element and the number of elements.
    [decode] and [encode] read and write elements only, so they are
    stated on the list of elements. *)
Record Uint8Array := {
  buffer : list byte;
  byteOffset : nat;
  byteLength : nat
}.

Definition elements (a : Uint8Array) : list byte :=
  firstn (byteLength a) (skipn (byteOffset a) (buffer a)).

(** [new Uint8Array(len)] with its elements stored, the array [decode]
    returns: it covers the whole of a buffer of its own. *)
Definition newUint8Array (bytes : list byte) : Uint8Array :=
  {| buffer := bytes; byteOffset := 0; byteLength := length bytes |}.

(** [new Int16Array(arrayBuffer)]: the bytes of the buffer read as
    little-endian two's-complement pairs; a [RangeError] when their
    number is odd. *)
Fixpoint Int16Array_of_buffer (data : list byte) : option (list Z) :=
  match data with
  | [] => Some []
  | [_] => None
  | lo :: hi :: r =>
      match Int16Array_of_buffer r with
      | Some v => Some (wrapInt16 (u8 lo + 256 * u8 hi) :: v)
      | None => None
      end
  end.

Record AudioBuffer := {
  sampleRate : Z;
  bufferLength : nat;
  channelData : list (list number)
}.

Definition numberOfChannels (b : AudioBuffer) : nat := length (channelData b).

(** [buffer.duration], in seconds: the number nearest to the quotient
    of the length by the sample rate. *)
Definition duration (b : AudioBuffer) : Q :=
  Number.round
    (inject_Z (Z.of_nat (bufferLength b)) / inject_Z (sampleRate b))%Q.

(** The [AudioContext] argument, a collaborator: only its allocator is
    used. [createBuffer numberOfChannels length sampleRate] may raise
    ([None]); [length] arrives as a JavaScript number and is converted
    to an unsigned integer by truncation. *)
Record AudioContext := {
  createBuffer : Z -> Q -> Z -> option AudioBuffer
}.

(** What a successful [createBuffer] returns: the requested number of
    channels, each of the truncated length. *)
Definition allocated (b : AudioBuffer) (numChannels : Z) (frameCount : Q)
    (rate : Z) : Prop :=
  sampleRate b = rate /\
  bufferLength b = Z.to_nat (Qfloor frameCount) /\
  length (channelData b) = Z.to_nat numChannels /\
  Forall (fun cd : list number => length cd = Z.to_nat (Qfloor frameCount))
         (channelData b).

(** An allocator that keeps to this contract whenever it returns. *)
Definition wellBehaved (ctx : AudioContext) : Prop :=
  forall numChannels frameCount rate b,
    createBuffer ctx numChannels frameCount rate = Some b ->
    allocated b numChannels frameCount rate.

Fixpoint iterate {S : Type} (body : nat -> S -> option S) (idx : list nat)
    (s : S) : option S :=
  match idx with
  | [] => Some s
  | i :: r =>
      match body i s with
      | Some s' => iterate body r s'
      | None => None
      end
  end.

(** [for (let i = 0; i < bound; i++) body]: the counter takes the
    naturals below [bound], which need not be an integer. *)
Definition for_lt {S : Type} (bound : Q) (body : nat -> S -> option S)
    (s : S) : option S :=
  iterate body (seq 0 (Z.to_nat (Qceiling bound))) s.

(** [dataInt16[k] / 32768.0]; a read past the end is [undefined], and
    [undefined / 32768.0] is [NaN]. *)
Definition div32768 (x : option Z) : number :=
  match x with
  | Some v => Num (inject_Z v / 32768)%Q
  | None => NaN
  end.

Definition setChannelData (b : AudioBuffer) (channel : nat)
    (cd : list number) : AudioBuffer :=
  {| sampleRate := sampleRate b;
     bufferLength := bufferLength b;
     channelData := <[channel := cd]> (channelData b) |}.

(** The view is taken on [data.buffer], the whole buffer behind the
    array, whatever window [data] is. A store past the end of a
    [Float32Array] is ignored, as stdpp's list insert is;
    [getChannelData] raises on a missing channel. The frame count is the
    JavaScript quotient, not made an integer. It is kept exact: only its
    integer part and its order with the loop counter are used, and for
    fewer than 2^53 samples rounding the quotient changes neither (lemma
    [round_quotient]). *)
Definition decodeAudioData (data : Uint8Array) (ctx : AudioContext)
    (rate : Z) (numChannels : Z) : option AudioBuffer :=
  match Int16Array_of_buffer (buffer data) with
  | None => None
  | Some dataInt16 =>
      if numChannels <=? 0 then None
      else
        let frameCount :=
          (inject_Z (Z.of_nat (length dataInt16)) / inject_Z numChannels)%Q in
        match createBuffer ctx numChannels frameCount rate with
        | None => None
        | Some buffer =>
            for_lt (inject_Z numChannels)
              (fun channel buffer =>
                 match channelData buffer !! channel with
                 | None => None
                 | Some channelData0 =>
                     match
                       for_lt frameCount
                         (fun i cd =>
                            Some (<[i := div32768
                                           (dataInt16 !! (i * Z.to_nat numChannels
                                                          + channel)%nat)]> cd))
                         channelData0
                     with
                     | Some cd => Some (setChannelData buffer channel cd)
                     | None => None
                     end
                 end)
              buffer
        end
  end.

(** [b] holds the samples of [dataInt16] taken apart into [n] channels:
    as many frames as [dataInt16] has complete ones, every channel of
    that length, and sample [i] of channel [c] the quotient of
    [dataInt16[i * n + c]] by 32768. *)
Definition deinterleaved (dataInt16 : list Z) (n : Z) (b : AudioBuffer) : Prop :=
  Z.of_nat (bufferLength b) = Z.of_nat (length dataInt16) / n
  /\ Z.of_nat (numberOfChannels b) = n
  /\ forall c i : nat,
       Z.of_nat c < n ->
       Z.of_nat i < Z.of_nat (length dataInt16) / n ->
       exists cd x,
         channelData b !! c = Some cd
         /\ Z.of_nat (length cd) = Z.of_nat (length dataInt16) / n
         /\ dataInt16 !! (i * Z.to_nat n + c)%nat = Some x
         /\ cd !! i = Some (Num (inject_Z x / 32768)).

(** An allocator in the manner of Web Audio: at least one channel and
    one frame, otherwise [NotSupportedError]; samples start at zero.
    The upper limits on the channel count and on the sample rate, which
    differ between browsers, are left out. *)
Definition plainContext : AudioContext :=
  {| createBuffer := fun numChannels frameCount rate =>
       if (1 <=? numChannels) && (1 <=? Qfloor frameCount) then
         Some {| sampleRate := rate;
                 bufferLength := Z.to_nat (Qfloor frameCount);
                 channelData :=
                   repeat (repeat (Num 0) (Z.to_nat (Qfloor frameCount)))
                          (Z.to_nat numChannels) |}
       else None |}.

End AudioUtils.

(** ** src/types.ts *)

Module Types.

Import JS.

Inductive Speaker := USER | AI.

Record TranscriptMessage := {
  speaker : Speaker;
  text : jsstring
}.

Record AnswerQuality := {
  aqScore : Z; aqFeedback : jsstring; example : jsstring
}.

Record CommunicationSkills := {
  csScore : Z; csFeedback : jsstring; fillerWords : Z; pace : jsstring
}.

Record ContentFeedback := {
  cfScore : Z; cfFeedback : jsstring; missedOpportunities : list jsstring
}.

Record FeedbackReport := {
  overallScore : Z;
  answerQuality : AnswerQuality;
  communicationSkills : CommunicationSkills;
  contentFeedback : ContentFeedback
}.

(** [t'] keeps every entry of [t] except possibly the last one. *)
Definition keeps (t t' : list TranscriptMessage) : Prop :=
  (length t <= length t')%nat
  /\ forall i, (S i < length t)%nat -> t' !! i = t !! i.

(** A report, for examples. *)
Definition sampleReport : FeedbackReport :=
  {| overallScore := 70;
     answerQuality := {| aqScore := 70; aqFeedback := []; example := [] |};
     communicationSkills :=
       {| csScore := 70; csFeedback := []; fillerWords := 0; pace := [] |};
     contentFeedback :=
       {| cfScore := 70; cfFeedback := []; missedOpportunities := [] |} |}.

End Types.

(** ** The browser and the remote services, as seen by the screens *)

Module Platform.

Import JS Types AudioUtils.

(** [AudioContext.state], once the context exists. *)
Inductive ContextState := running | closed.

(** Outcome of the promise returned by [ai.live.connect]. *)
Inductive Promise := fulfilled | rejected.

(** Calls a screen makes on objects it does not own, in call order. *)
Inductive Call :=
| TrackStop
| ProcessorDisconnect
| SourceDisconnect
| InputContextClose
| PlaybackStop (id : nat)
| OutputContextClose
| SessionClose
| SendRealtimeInput (data : jsstring)
| PlaybackStart (id : nat) (when : Q) (length : Q)
| SendMessageStream (message : jsstring)
| GenerateFeedbackReport (t : list TranscriptMessage)
| OnInterviewEnd (t : list TranscriptMessage) (r : FeedbackReport).

Definition isRelease (c : Call) : bool :=
  match c with
  | TrackStop | ProcessorDisconnect | SourceDisconnect | InputContextClose
  | PlaybackStop _ | OutputContextClose | SessionClose => true
  | _ => false
  end.

Definition releases (l : list Call) : list Call := List.filter isRelease l.

Record Transcription := { transcriptionText : option jsstring }.

(** The fields of a [LiveServerMessage] the screens read:
    [serverContent.outputTranscription], [.inputTranscription],
    [.turnComplete] and [.modelTurn.parts[0].inlineData.data]. *)
Record LiveServerMessage := {
  outputTranscription : option Transcription;
  inputTranscription : option Transcription;
  turnComplete : bool;
  inlineData : option jsstring
}.

(** A message carrying one input-transcription fragment, one carrying
    one output-transcription fragment, a bare turn-complete signal and
    a message carrying inline audio. *)
Definition inputFragment (t : jsstring) : LiveServerMessage :=
  {| outputTranscription := None;
     inputTranscription := Some {| transcriptionText := Some t |};
     turnComplete := false;
     inlineData := None |}.

Definition outputFragment (t : jsstring) : LiveServerMessage :=
  {| outputTranscription := Some {| transcriptionText := Some t |};
     inputTranscription := None;
     turnComplete := false;
     inlineData := None |}.

Definition turnCompleteSignal : LiveServerMessage :=
  {| outputTranscription := None;
     inputTranscription := None;
     turnComplete := true;
     inlineData := None |}.

Definition audioMessage (audioData : jsstring) : LiveServerMessage :=
  {| outputTranscription := None;
     inputTranscription := None;
     turnComplete := false;
     inlineData := Some audioData |}.

(** What the browser reports when a message handler runs:
    [outputContext.currentTime] and the output context's allocator. *)
Record Env := {
  currentTime : Q;
  outputContext : AudioContext
}.

(** What [render] returns: the spinner, or the session view with its
    status line, the transcript and the controls that can be used. *)
Inductive Control :=
| MuteButton | EndInterviewButton | RecordAnswerButton | StopRecordingButton.

Inductive View :=
| AnalyzingView
| SessionView (statusLine : jsstring) (shown : list TranscriptMessage)
              (enabled : list Control).

(** Truncation of a number toward zero. *)
Definition truncate (q : Q) : Z := Z.quot (Qnum q) (Zpos (Qden q)).

(** [new Int16Array(inputData.map(x => x * 32768))], per element: the
    product is exact in binary32 (a change of exponent), and the
    conversion to a 16-bit element truncates, then wraps. *)
Definition toInt16Sample (x : Q) : Z := wrapInt16 (truncate (x * 32768)%Q).

(** [new Uint8Array(int16.buffer)]: low byte first. *)
Definition bytes_of_Int16Array (l : list Z) : list byte :=
  flat_map (fun v => [toUint8 v; toUint8 (v / 256)]) l.

(** The [data] field of [pcmBlob]. *)
Definition pcmData (inputData : list Q) : option jsstring :=
  encode (bytes_of_Int16Array (map toInt16Sample inputData)).

End Platform.

(** ** src/components/InterviewScreen.tsx, continuous voice revision *)

Module Continuous.

Import JS Types AudioUtils Platform.

(** Component state ([useState]), refs ([useRef]) and the calls made so
    far. [stream], [scriptProcessor] and [source] tell whether the ref
    holds an object. [closureIsMuted] is the [isMuted] binding that the
    session callbacks closed over: they are created by the effect, which
    runs for the render that mounted the screen and is not re-run when
    [isMuted] changes (its dependency list is [config] alone).
    [transcript] is the state of the last render, the one [endInterview]
    and the view read; [pendingTurns] counts the updaters handed to
    [setTranscript] that React has not run yet. *)
Record State := {
  status : jsstring;
  transcript : list TranscriptMessage;
  isMuted : bool;
  isGeneratingReport : bool;
  sessionPromise : option Promise;
  inputAudioContext : option ContextState;
  outputAudioContext : option ContextState;
  stream : bool;
  scriptProcessor : bool;
  source : bool;
  closureIsMuted : bool;
  currentInputTranscription : jsstring;
  currentOutputTranscription : jsstring;
  pendingTurns : nat;
  nextStartTime : Q;
  audioSources : list nat;
  nextSourceId : nat;
  calls : list Call
}.

Definition set_status (v : jsstring) (s : State) : State :=
  {| status := v; transcript := transcript s; isMuted := isMuted s;
     isGeneratingReport := isGeneratingReport s; sessionPromise :=
     sessionPromise s; inputAudioContext := inputAudioContext s;
     outputAudioContext := outputAudioContext s; stream := stream s;
     scriptProcessor := scriptProcessor s; source := source s; closureIsMuted
     := closureIsMuted s; currentInputTranscription :=
     currentInputTranscription s; currentOutputTranscription :=
     currentOutputTranscription s; pendingTurns := pendingTurns s;
     nextStartTime := nextStartTime s; audioSources := audioSources s;
     nextSourceId := nextSourceId s; calls := calls s |}.

Definition set_transcript (v : list TranscriptMessage) (s : State) : State :=
  {| status := status s; transcript := v; isMuted := isMuted s;
     isGeneratingReport := isGeneratingReport s; sessionPromise :=
     sessionPromise s; inputAudioContext := inputAudioContext s;
     outputAudioContext := outputAudioContext s; stream := stream s;
     scriptProcessor := scriptProcessor s; source := source s; closureIsMuted
     := closureIsMuted s; currentInputTranscription :=
     currentInputTranscription s; currentOutputTranscription :=
     currentOutputTranscription s; pendingTurns := pendingTurns s;
     nextStartTime := nextStartTime s; audioSources := audioSources s;
     nextSourceId := nextSourceId s; calls := calls s |}.

Definition set_isMuted (v : bool) (s : State) : State :=
  {| status := status s; transcript := transcript s; isMuted := v;
     isGeneratingReport := isGeneratingReport s; sessionPromise :=
     sessionPromise s; inputAudioContext := inputAudioContext s;
     outputAudioContext := outputAudioContext s; stream := stream s;
     scriptProcessor := scriptProcessor s; source := source s; closureIsMuted
     := closureIsMuted s; currentInputTranscription :=
     currentInputTranscription s; currentOutputTranscription :=
     currentOutputTranscription s; pendingTurns := pendingTurns s;
     nextStartTime := nextStartTime s; audioSources := audioSources s;
     nextSourceId := nextSourceId s; calls := calls s |}.

Definition set_isGeneratingReport (v : bool) (s : State) : State :=
  {| status := status s; transcript := transcript s; isMuted := isMuted s;
     isGeneratingReport := v; sessionPromise := sessionPromise s;
     inputAudioContext := inputAudioContext s; outputAudioContext :=
     outputAudioContext s; stream := stream s; scriptProcessor :=
     scriptProcessor s; source := source s; closureIsMuted := closureIsMuted
     s; currentInputTranscription := currentInputTranscription s;
     currentOutputTranscription := currentOutputTranscription s; pendingTurns
     := pendingTurns s; nextStartTime := nextStartTime s; audioSources :=
     audioSources s; nextSourceId := nextSourceId s; calls := calls s |}.

Definition set_sessionPromise (v : option Promise) (s : State) : State :=
  {| status := status s; transcript := transcript s; isMuted := isMuted s;
     isGeneratingReport := isGeneratingReport s; sessionPromise := v;
     inputAudioContext := inputAudioContext s; outputAudioContext :=
     outputAudioContext s; stream := stream s; scriptProcessor :=
     scriptProcessor s; source := source s; closureIsMuted := closureIsMuted
     s; currentInputTranscription := currentInputTranscription s;
     currentOutputTranscription := currentOutputTranscription s; pendingTurns
     := pendingTurns s; nextStartTime := nextStartTime s; audioSources :=
     audioSources s; nextSourceId := nextSourceId s; calls := calls s |}.

Definition set_inputAudioContext (v : option ContextState) (s : State) : State :=
  {| status := status s; transcript := transcript s; isMuted := isMuted s;
     isGeneratingReport := isGeneratingReport s; sessionPromise :=
     sessionPromise s; inputAudioContext := v; outputAudioContext :=
     outputAudioContext s; stream := stream s; scriptProcessor :=
     scriptProcessor s; source := source s; closureIsMuted := closureIsMuted
     s; currentInputTranscription := currentInputTranscription s;
     currentOutputTranscription := currentOutputTranscription s; pendingTurns
     := pendingTurns s; nextStartTime := nextStartTime s; audioSources :=
     audioSources s; nextSourceId := nextSourceId s; calls := calls s |}.

Definition set_outputAudioContext (v : option ContextState) (s : State) : State :=
  {| status := status s; transcript := transcript s; isMuted := isMuted s;
     isGeneratingReport := isGeneratingReport s; sessionPromise :=
     sessionPromise s; inputAudioContext := inputAudioContext s;
     outputAudioContext := v; stream := stream s; scriptProcessor :=
     scriptProcessor s; source := source s; closureIsMuted := closureIsMuted
     s; currentInputTranscription := currentInputTranscription s;
     currentOutputTranscription := currentOutputTranscription s; pendingTurns
     := pendingTurns s; nextStartTime := nextStartTime s; audioSources :=
     audioSources s; nextSourceId := nextSourceId s; calls := calls s |}.

Definition set_stream (v : bool) (s : State) : State :=
  {| status := status s; transcript := transcript s; isMuted := isMuted s;
     isGeneratingReport := isGeneratingReport s; sessionPromise :=
     sessionPromise s; inputAudioContext := inputAudioContext s;
     outputAudioContext := outputAudioContext s; stream := v; scriptProcessor
     := scriptProcessor s; source := source s; closureIsMuted :=
     closureIsMuted s; currentInputTranscription := currentInputTranscription
     s; currentOutputTranscription := currentOutputTranscription s;
     pendingTurns := pendingTurns s; nextStartTime := nextStartTime s;
     audioSources := audioSources s; nextSourceId := nextSourceId s; calls :=
     calls s |}.

Definition set_scriptProcessor (v : bool) (s : State) : State :=
  {| status := status s; transcript := transcript s; isMuted := isMuted s;
     isGeneratingReport := isGeneratingReport s; sessionPromise :=
     sessionPromise s; inputAudioContext := inputAudioContext s;
     outputAudioContext := outputAudioContext s; stream := stream s;
     scriptProcessor := v; source := source s; closureIsMuted :=
     closureIsMuted s; currentInputTranscription := currentInputTranscription
     s; currentOutputTranscription := currentOutputTranscription s;
     pendingTurns := pendingTurns s; nextStartTime := nextStartTime s;
     audioSources := audioSources s; nextSourceId := nextSourceId s; calls :=
     calls s |}.

Definition set_source (v : bool) (s : State) : State :=
  {| status := status s; transcript := transcript s; isMuted := isMuted s;
     isGeneratingReport := isGeneratingReport s; sessionPromise :=
     sessionPromise s; inputAudioContext := inputAudioContext s;
     outputAudioContext := outputAudioContext s; stream := stream s;
     scriptProcessor := scriptProcessor s; source := v; closureIsMuted :=
     closureIsMuted s; currentInputTranscription := currentInputTranscription
     s; currentOutputTranscription := currentOutputTranscription s;
     pendingTurns := pendingTurns s; nextStartTime := nextStartTime s;
     audioSources := audioSources s; nextSourceId := nextSourceId s; calls :=
     calls s |}.

Definition set_closureIsMuted (v : bool) (s : State) : State :=
  {| status := status s; transcript := transcript s; isMuted := isMuted s;
     isGeneratingReport := isGeneratingReport s; sessionPromise :=
     sessionPromise s; inputAudioContext := inputAudioContext s;
     outputAudioContext := outputAudioContext s; stream := stream s;
     scriptProcessor := scriptProcessor s; source := source s; closureIsMuted
     := v; currentInputTranscription := currentInputTranscription s;
     currentOutputTranscription := currentOutputTranscription s; pendingTurns
     := pendingTurns s; nextStartTime := nextStartTime s; audioSources :=
     audioSources s; nextSourceId := nextSourceId s; calls := calls s |}.

Definition set_currentInputTranscription (v : jsstring) (s : State) : State :=
  {| status := status s; transcript := transcript s; isMuted := isMuted s;
     isGeneratingReport := isGeneratingReport s; sessionPromise :=
     sessionPromise s; inputAudioContext := inputAudioContext s;
     outputAudioContext := outputAudioContext s; stream := stream s;
     scriptProcessor := scriptProcessor s; source := source s; closureIsMuted
     := closureIsMuted s; currentInputTranscription := v;
     currentOutputTranscription := currentOutputTranscription s; pendingTurns
     := pendingTurns s; nextStartTime := nextStartTime s; audioSources :=
     audioSources s; nextSourceId := nextSourceId s; calls := calls s |}.

Definition set_currentOutputTranscription (v : jsstring) (s : State) : State :=
  {| status := status s; transcript := transcript s; isMuted := isMuted s;
     isGeneratingReport := isGeneratingReport s; sessionPromise :=
     sessionPromise s; inputAudioContext := inputAudioContext s;
     outputAudioContext := outputAudioContext s; stream := stream s;
     scriptProcessor := scriptProcessor s; source := source s; closureIsMuted
     := closureIsMuted s; currentInputTranscription :=
     currentInputTranscription s; currentOutputTranscription := v;
     pendingTurns := pendingTurns s; nextStartTime := nextStartTime s;
     audioSources := audioSources s; nextSourceId := nextSourceId s; calls :=
     calls s |}.

Definition set_pendingTurns (v : nat) (s : State) : State :=
  {| status := status s; transcript := transcript s; isMuted := isMuted s;
     isGeneratingReport := isGeneratingReport s; sessionPromise :=
     sessionPromise s; inputAudioContext := inputAudioContext s;
     outputAudioContext := outputAudioContext s; stream := stream s;
     scriptProcessor := scriptProcessor s; source := source s; closureIsMuted
     := closureIsMuted s; currentInputTranscription :=
     currentInputTranscription s; currentOutputTranscription :=
     currentOutputTranscription s; pendingTurns := v; nextStartTime :=
     nextStartTime s; audioSources := audioSources s; nextSourceId :=
     nextSourceId s; calls := calls s |}.

Definition set_nextStartTime (v : Q) (s : State) : State :=
  {| status := status s; transcript := transcript s; isMuted := isMuted s;
     isGeneratingReport := isGeneratingReport s; sessionPromise :=
     sessionPromise s; inputAudioContext := inputAudioContext s;
     outputAudioContext := outputAudioContext s; stream := stream s;
     scriptProcessor := scriptProcessor s; source := source s; closureIsMuted
     := closureIsMuted s; currentInputTranscription :=
     currentInputTranscription s; currentOutputTranscription :=
     currentOutputTranscription s; pendingTurns := pendingTurns s;
     nextStartTime := v; audioSources := audioSources s; nextSourceId :=
     nextSourceId s; calls := calls s |}.

Definition set_audioSources (v : list nat) (s : State) : State :=
  {| status := status s; transcript := transcript s; isMuted := isMuted s;
     isGeneratingReport := isGeneratingReport s; sessionPromise :=
     sessionPromise s; inputAudioContext := inputAudioContext s;
     outputAudioContext := outputAudioContext s; stream := stream s;
     scriptProcessor := scriptProcessor s; source := source s; closureIsMuted
     := closureIsMuted s; currentInputTranscription :=
     currentInputTranscription s; currentOutputTranscription :=
     currentOutputTranscription s; pendingTurns := pendingTurns s;
     nextStartTime := nextStartTime s; audioSources := v; nextSourceId :=
     nextSourceId s; calls := calls s |}.

Definition set_nextSourceId (v : nat) (s : State) : State :=
  {| status := status s; transcript := transcript s; isMuted := isMuted s;
     isGeneratingReport := isGeneratingReport s; sessionPromise :=
     sessionPromise s; inputAudioContext := inputAudioContext s;
     outputAudioContext := outputAudioContext s; stream := stream s;
     scriptProcessor := scriptProcessor s; source := source s; closureIsMuted
     := closureIsMuted s; currentInputTranscription :=
     currentInputTranscription s; currentOutputTranscription :=
     currentOutputTranscription s; pendingTurns := pendingTurns s;
     nextStartTime := nextStartTime s; audioSources := audioSources s;
     nextSourceId := v; calls := calls s |}.

Definition set_calls (v : list Call) (s : State) : State :=
  {| status := status s; transcript := transcript s; isMuted := isMuted s;
     isGeneratingReport := isGeneratingReport s; sessionPromise :=
     sessionPromise s; inputAudioContext := inputAudioContext s;
     outputAudioContext := outputAudioContext s; stream := stream s;
     scriptProcessor := scriptProcessor s; source := source s; closureIsMuted
     := closureIsMuted s; currentInputTranscription :=
     currentInputTranscription s; currentOutputTranscription :=
     currentOutputTranscription s; pendingTurns := pendingTurns s;
     nextStartTime := nextStartTime s; audioSources := audioSources s;
     nextSourceId := nextSourceId s; calls := v |}.

Definition initial : State :=
  {| status := lit "Connecting...";
     transcript := [];
     isMuted := false;
     isGeneratingReport := false;
     sessionPromise := None;
     inputAudioContext := None;
     outputAudioContext := None;
     stream := false;
     scriptProcessor := false;
     source := false;
     closureIsMuted := false;
     currentInputTranscription := [];
     currentOutputTranscription := [];
     pendingTurns := 0%nat;
     nextStartTime := 0%Q;
     audioSources := [];
     nextSourceId := 0%nat;
     calls := [] |}.

Definition call (c : Call) (s : State) : State := set_calls (calls s ++ [c]) s.

(** [forEach] over a collection, one call per element. *)
Definition callAll (cs : list Call) (s : State) : State :=
  set_calls (calls s ++ cs) s.

(** [startSession], run by the effect. [mic] is the outcome of
    [getUserMedia]; [connect] the eventual outcome of [ai.live.connect]. *)
Definition startSession (mic : bool) (connect : Promise) (s : State) : State :=
  if mic then
    set_sessionPromise (Some connect)
      (set_outputAudioContext (Some running)
         (set_inputAudioContext (Some running)
            (set_closureIsMuted (isMuted s)
               (set_stream true s))))
  else
    set_status (lit "Failed to access microphone. Please check permissions and refresh.") s.

Definition onopen (s : State) : State :=
  set_scriptProcessor true
    (set_source true
       (set_status (lit "Connected. The interview will begin shortly.") s)).

(** [scriptProcessor.onaudioprocess]: the frame is always converted;
    the [then] callback runs once the session promise is fulfilled. *)
Definition onaudioprocess (inputData : list Q) (s : State) : State :=
  match pcmData inputData with
  | None => s
  | Some data =>
      match sessionPromise s with
      | Some fulfilled =>
          if negb (closureIsMuted s) then call (SendRealtimeInput data) s
          else s
      | _ => s
      end
  end.

Definition pushIf (sp : Speaker) (t : jsstring)
    (l : list TranscriptMessage) : list TranscriptMessage :=
  if truthy (trim t) then l ++ [{| speaker := sp; text := trim t |}] else l.

(** The function handed to [setTranscript] on a turn-complete signal.
    It reads the two accumulators and empties them when React calls it,
    not when the signal is handled. *)
Definition finalizeTurn (s : State) : State :=
  set_currentOutputTranscription []
    (set_currentInputTranscription []
       (set_transcript
          (pushIf AI (currentOutputTranscription s)
             (pushIf USER (currentInputTranscription s) (transcript s)))
          s)).

(** The transcription part of [onmessage]: the fragments go to the
    accumulators at once, the turn-complete signal only queues the
    updater. *)
Definition onmessage_text (message : LiveServerMessage) (s : State) : State :=
  let s :=
    match outputTranscription message with
    | Some o =>
        set_currentOutputTranscription
          (append_opt (currentOutputTranscription s) (transcriptionText o)) s
    | None => s
    end in
  let s :=
    match inputTranscription message with
    | Some i =>
        set_currentInputTranscription
          (append_opt (currentInputTranscription s) (transcriptionText i)) s
    | None => s
    end in
  if turnComplete message then set_pendingTurns (S (pendingTurns s)) s
  else s.

(** React processing the queue of [setTranscript]: the queued updaters
    run in order, each on the result of the one before. React does it
    at some point between the call of [setTranscript] and the next
    render; other callbacks of the session may run before it does. *)
Definition flush (s : State) : State :=
  set_pendingTurns 0 (Nat.iter (pendingTurns s) finalizeTurn s).

(** The audio part of [onmessage]. A failure of [decode] or of
    [decodeAudioData] rejects the handler after the cursor was raised.
    The array [decode] returns covers its own buffer. The cursor is a
    number: its sum with the duration is rounded. *)
Definition onmessage_audio (env : Env) (message : LiveServerMessage)
    (s : State) : State :=
  match inlineData message with
  | None => s
  | Some audioData =>
      if truthy audioData then
        match outputAudioContext s with
        | None => s
        | Some _ =>
            let s := set_nextStartTime
                       (Qmax (nextStartTime s) (currentTime env)) s in
            match decode audioData with
            | None => s
            | Some bytes =>
                match
                  decodeAudioData (newUint8Array bytes) (outputContext env)
                                  24000 1
                with
                | None => s
                | Some audioBuffer =>
                    let id := nextSourceId s in
                    let s := call (PlaybackStart id (nextStartTime s)
                                     (duration audioBuffer)) s in
                    let s := set_nextStartTime
                               (Number.round
                                  (nextStartTime s + duration audioBuffer)%Q) s in
                    set_nextSourceId (S id)
                      (set_audioSources (audioSources s ++ [id]) s)
                end
            end
        end
      else s
  end.

Definition onmessage (env : Env) (message : LiveServerMessage)
    (s : State) : State :=
  onmessage_audio env message (onmessage_text message s).

(** The ['ended'] listener of a scheduled source. *)
Definition onended (id : nat) (s : State) : State :=
  set_audioSources (List.filter (fun j => negb (Nat.eqb j id)) (audioSources s)) s.

Definition onerror (s : State) : State :=
  set_status (lit "Connection error. Please refresh and try again.") s.

Definition onclose (s : State) : State :=
  set_status (lit "Interview session ended.") s.

(** The mute button: [setIsMuted(!isMuted)]. *)
Definition toggleMute (s : State) : State := set_isMuted (negb (isMuted s)) s.

(** The three statements that open both teardown paths: stop the
    tracks of the stream, disconnect the processor, disconnect the
    source, each when the ref holds an object. *)
Definition stopCapture (s : State) : State :=
  let s := if stream s then call TrackStop s else s in
  let s := if scriptProcessor s then call ProcessorDisconnect s else s in
  if source s then call SourceDisconnect s else s.

(** A context is taken as closed once [close] was called on it. *)
Definition closeInputContext (s : State) : State :=
  match inputAudioContext s with
  | Some running => set_inputAudioContext (Some closed) (call InputContextClose s)
  | _ => s
  end.

Definition stopPlayback (s : State) : State :=
  match outputAudioContext s with
  | Some running =>
      set_outputAudioContext (Some closed)
        (call OutputContextClose
           (callAll (map PlaybackStop (audioSources s)) s))
  | _ => s
  end.

(** [session.close()] once the promise is fulfilled; a rejection is
    caught and logged. *)
Definition closeSession (s : State) : State :=
  match sessionPromise s with
  | Some fulfilled => call SessionClose s
  | _ => s
  end.

(** [endInterview]; [report] is the outcome of [generateFeedbackReport],
    [None] when it throws. *)
Definition endInterview (report : option FeedbackReport) (s : State) : State :=
  let s := set_isGeneratingReport true
             (set_status (lit "Generating your feedback report...") s) in
  let s := closeSession (stopPlayback (closeInputContext (stopCapture s))) in
  let s := call (GenerateFeedbackReport (transcript s)) s in
  match report with
  | Some r => call (OnInterviewEnd (transcript s) r) s
  | None => set_status (lit "Error generating report. Please try again.") s
  end.

(** [inputAudioContextRef.current?.close()] and the same for the output
    context, whatever their state; a rejected [close()] is caught and
    logged. *)
Definition closeContexts (s : State) : State :=
  let s :=
    match inputAudioContext s with
    | Some _ => set_inputAudioContext (Some closed) (call InputContextClose s)
    | None => s
    end in
  match outputAudioContext s with
  | Some _ => set_outputAudioContext (Some closed) (call OutputContextClose s)
  | None => s
  end.

(** The cleanup returned by the effect, run when the screen unmounts. *)
Definition unmount (s : State) : State :=
  closeSession (closeContexts (stopCapture s)).

(** [s'] differs from [s] by release calls and by the state of the two
    audio contexts only. *)
Record releasesOnly (s s' : State) : Prop := {
  ro_calls : exists cs, calls s' = calls s ++ cs /\ forallb isRelease cs = true;
  ro_status : status s' = status s;
  ro_transcript : transcript s' = transcript s;
  ro_isMuted : isMuted s' = isMuted s;
  ro_isGeneratingReport : isGeneratingReport s' = isGeneratingReport s;
  ro_sessionPromise : sessionPromise s' = sessionPromise s;
  ro_stream : stream s' = stream s;
  ro_scriptProcessor : scriptProcessor s' = scriptProcessor s;
  ro_source : source s' = source s;
  ro_closureIsMuted : closureIsMuted s' = closureIsMuted s;
  ro_currentInput : currentInputTranscription s' = currentInputTranscription s;
  ro_currentOutput : currentOutputTranscription s' = currentOutputTranscription s;
  ro_pendingTurns : pendingTurns s' = pendingTurns s;
  ro_nextStartTime : nextStartTime s' = nextStartTime s;
  ro_audioSources : audioSources s' = audioSources s;
  ro_nextSourceId : nextSourceId s' = nextSourceId s
}.

(** [s'] differs from [s] by the transcript, the two accumulators and
    the queue of updaters only. *)
Record textOnly (s s' : State) : Prop := {
  to_calls : calls s' = calls s;
  to_status : status s' = status s;
  to_isMuted : isMuted s' = isMuted s;
  to_isGeneratingReport : isGeneratingReport s' = isGeneratingReport s;
  to_sessionPromise : sessionPromise s' = sessionPromise s;
  to_inputAudioContext : inputAudioContext s' = inputAudioContext s;
  to_outputAudioContext : outputAudioContext s' = outputAudioContext s;
  to_stream : stream s' = stream s;
  to_scriptProcessor : scriptProcessor s' = scriptProcessor s;
  to_source : source s' = source s;
  to_closureIsMuted : closureIsMuted s' = closureIsMuted s;
  to_nextStartTime : nextStartTime s' = nextStartTime s;
  to_audioSources : audioSources s' = audioSources s;
  to_nextSourceId : nextSourceId s' = nextSourceId s
}.

Definition render (s : State) : View :=
  if isGeneratingReport s then AnalyzingView
  else SessionView (status s) (transcript s) [MuteButton; EndInterviewButton].

(** Everything that can happen to the mounted screen. [Flush] is React
    running the updaters queued by [setTranscript]. *)
Inductive Event :=
| StartSession (mic : bool) (connect : Promise)
| Open
| AudioProcess (inputData : list Q)
| Message (env : Env) (message : LiveServerMessage)
| Flush
| Ended (id : nat)
| Error
| Close
| ToggleMute
| EndInterview (report : option FeedbackReport)
| Unmount.

Definition step (s : State) (e : Event) : State :=
  match e with
  | StartSession mic connect => startSession mic connect s
  | Open => onopen s
  | AudioProcess inputData => onaudioprocess inputData s
  | Message env message => onmessage env message s
  | Flush => flush s
  | Ended id => onended id s
  | Error => onerror s
  | Close => onclose s
  | ToggleMute => toggleMute s
  | EndInterview report => endInterview report s
  | Unmount => unmount s
  end.

Definition run (s : State) (evs : list Event) : State := fold_left step evs s.

(** An in-progress (non-final) message: an entry of the transcript that
    some continuation of the session still changes. *)
Definition nonFinal (s : State) (i : nat) : Prop :=
  (i < length (transcript s))%nat
  /\ exists evs, transcript (run s evs) !! i <> transcript s !! i.

(** The screen once mounted, with the microphone granted and the
    connection open. *)
Definition connected : State :=
  run initial [StartSession true fulfilled; Open].

(** A clip of three samples and then a clip of two, each arriving when
    the clock of the output context reads 1, for examples. *)
Definition clipsAtOne : list Event :=
  [Message {| currentTime := 1; outputContext := plainContext |}
           (audioMessage (lit "AAAAAAAA"));
   Message {| currentTime := 1; outputContext := plainContext |}
           (audioMessage (lit "AAEC/w=="))].

(** [s'] extends the calls of [s] by calls taken from [allowed]. *)
Definition adds (allowed : list Call) (s s' : State) : Prop :=
  exists cs, calls s' = calls s ++ cs /\ incl cs allowed.

(** The clips handed to [source.start], as (start time, duration), in
    the order they were scheduled. *)
Definition scheduled (cs : list Call) : list (Q * Q) :=
  flat_map (fun c => match c with
                     | PlaybackStart _ when d => [(when, d)]
                     | _ => []
                     end) cs.

(** Every clip ends, start plus duration taken exactly, before any clip
    scheduled after it starts. *)
Definition nonOverlapping (l : list (Q * Q)) : Prop :=
  ForallOrdPairs (fun a b => (fst a + snd a <= fst b)%Q) l.

(** The end of a clip as the code computes it: the sum of its start and
    its duration, a number. *)
Definition clipEnd (a : Q * Q) : Q := Number.round (fst a + snd a).

(** Every clip starts no earlier than the computed end of any clip
    scheduled before it. *)
Definition sequenced (l : list (Q * Q)) : Prop :=
  ForallOrdPairs (fun a b => (clipEnd a <= fst b)%Q) l.

(** Every clip starts no earlier than the exact end of any clip
    scheduled before it, less half a unit in the last place of that
    end. *)
Definition overlapWithinRounding (l : list (Q * Q)) : Prop :=
  ForallOrdPairs
    (fun a b => (fst a + snd a - Number.ulp (fst a + snd a) / 2 <= fst b)%Q) l.

(** An event whose output context, if it brings one, keeps to the
    allocator's contract and reads a clock whose value is a number. *)
Definition okEvent (e : Event) : Prop :=
  match e with
  | Message env _ =>
      wellBehaved (outputContext env)
      /\ Number.representable (currentTime env)
  | _ => True
  end.

(** What one handler run does to the schedule: nothing, or one clip
    appended at the raised cursor, the cursor moving to its computed
    end. *)
Definition advances (s s' : State) (now : option Q) : Prop :=
  (scheduled (calls s') = scheduled (calls s)
   /\ (nextStartTime s' = nextStartTime s
       \/ exists t, now = Some t /\ nextStartTime s' = Qmax (nextStartTime s) t))
  \/ exists t d,
       now = Some t /\ (0 <= d)%Q
       /\ scheduled (calls s')
          = scheduled (calls s) ++ [(Qmax (nextStartTime s) t, d)]
       /\ nextStartTime s'
          = Number.round (Qmax (nextStartTime s) t + d)%Q.

(** The clips are in sequence, none ends later than the cursor, and the
    cursor is a number. *)
Definition tidy (s : State) : Prop :=
  sequenced (scheduled (calls s))
  /\ Forall (fun a => (clipEnd a <= nextStartTime s)%Q) (scheduled (calls s))
  /\ Number.representable (nextStartTime s).

End Continuous.


(** ** src/components/InterviewScreen.tsx, push-to-talk revision *)

Module PushToTalk.

Import JS Types AudioUtils Platform.

(** Component state, refs and the calls made so far. [chat],
    [audioContexts], [audioStream], [scriptProcessor] and
    [mediaStreamSource] tell whether the ref holds an object;
    [currentAiText] is the accumulator of the response stream being
    read. *)
Record State := {
  status : jsstring;
  transcript : list TranscriptMessage;
  isGeneratingReport : bool;
  isRecording : bool;
  isAiTyping : bool;
  chat : bool;
  sessionPromise : option Promise;
  audioContexts : bool;
  audioStream : bool;
  scriptProcessor : bool;
  mediaStreamSource : bool;
  liveTranscription : jsstring;
  cleanupPerformed : bool;
  currentAiText : jsstring;
  calls : list Call
}.

Definition set_status (v : jsstring) (s : State) : State :=
  {| status := v; transcript := transcript s; isGeneratingReport :=
     isGeneratingReport s; isRecording := isRecording s; isAiTyping :=
     isAiTyping s; chat := chat s; sessionPromise := sessionPromise s;
     audioContexts := audioContexts s; audioStream := audioStream s;
     scriptProcessor := scriptProcessor s; mediaStreamSource :=
     mediaStreamSource s; liveTranscription := liveTranscription s;
     cleanupPerformed := cleanupPerformed s; currentAiText := currentAiText s;
     calls := calls s |}.

Definition set_transcript (v : list TranscriptMessage) (s : State) : State :=
  {| status := status s; transcript := v; isGeneratingReport :=
     isGeneratingReport s; isRecording := isRecording s; isAiTyping :=
     isAiTyping s; chat := chat s; sessionPromise := sessionPromise s;
     audioContexts := audioContexts s; audioStream := audioStream s;
     scriptProcessor := scriptProcessor s; mediaStreamSource :=
     mediaStreamSource s; liveTranscription := liveTranscription s;
     cleanupPerformed := cleanupPerformed s; currentAiText := currentAiText s;
     calls := calls s |}.

Definition set_isGeneratingReport (v : bool) (s : State) : State :=
  {| status := status s; transcript := transcript s; isGeneratingReport := v;
     isRecording := isRecording s; isAiTyping := isAiTyping s; chat := chat s;
     sessionPromise := sessionPromise s; audioContexts := audioContexts s;
     audioStream := audioStream s; scriptProcessor := scriptProcessor s;
     mediaStreamSource := mediaStreamSource s; liveTranscription :=
     liveTranscription s; cleanupPerformed := cleanupPerformed s;
     currentAiText := currentAiText s; calls := calls s |}.

Definition set_isRecording (v : bool) (s : State) : State :=
  {| status := status s; transcript := transcript s; isGeneratingReport :=
     isGeneratingReport s; isRecording := v; isAiTyping := isAiTyping s; chat
     := chat s; sessionPromise := sessionPromise s; audioContexts :=
     audioContexts s; audioStream := audioStream s; scriptProcessor :=
     scriptProcessor s; mediaStreamSource := mediaStreamSource s;
     liveTranscription := liveTranscription s; cleanupPerformed :=
     cleanupPerformed s; currentAiText := currentAiText s; calls := calls s
     |}.

Definition set_isAiTyping (v : bool) (s : State) : State :=
  {| status := status s; transcript := transcript s; isGeneratingReport :=
     isGeneratingReport s; isRecording := isRecording s; isAiTyping := v; chat
     := chat s; sessionPromise := sessionPromise s; audioContexts :=
     audioContexts s; audioStream := audioStream s; scriptProcessor :=
     scriptProcessor s; mediaStreamSource := mediaStreamSource s;
     liveTranscription := liveTranscription s; cleanupPerformed :=
     cleanupPerformed s; currentAiText := currentAiText s; calls := calls s
     |}.

Definition set_chat (v : bool) (s : State) : State :=
  {| status := status s; transcript := transcript s; isGeneratingReport :=
     isGeneratingReport s; isRecording := isRecording s; isAiTyping :=
     isAiTyping s; chat := v; sessionPromise := sessionPromise s;
     audioContexts := audioContexts s; audioStream := audioStream s;
     scriptProcessor := scriptProcessor s; mediaStreamSource :=
     mediaStreamSource s; liveTranscription := liveTranscription s;
     cleanupPerformed := cleanupPerformed s; currentAiText := currentAiText s;
     calls := calls s |}.

Definition set_sessionPromise (v : option Promise) (s : State) : State :=
  {| status := status s; transcript := transcript s; isGeneratingReport :=
     isGeneratingReport s; isRecording := isRecording s; isAiTyping :=
     isAiTyping s; chat := chat s; sessionPromise := v; audioContexts :=
     audioContexts s; audioStream := audioStream s; scriptProcessor :=
     scriptProcessor s; mediaStreamSource := mediaStreamSource s;
     liveTranscription := liveTranscription s; cleanupPerformed :=
     cleanupPerformed s; currentAiText := currentAiText s; calls := calls s
     |}.

Definition set_audioContexts (v : bool) (s : State) : State :=
  {| status := status s; transcript := transcript s; isGeneratingReport :=
     isGeneratingReport s; isRecording := isRecording s; isAiTyping :=
     isAiTyping s; chat := chat s; sessionPromise := sessionPromise s;
     audioContexts := v; audioStream := audioStream s; scriptProcessor :=
     scriptProcessor s; mediaStreamSource := mediaStreamSource s;
     liveTranscription := liveTranscription s; cleanupPerformed :=
     cleanupPerformed s; currentAiText := currentAiText s; calls := calls s
     |}.

Definition set_audioStream (v : bool) (s : State) : State :=
  {| status := status s; transcript := transcript s; isGeneratingReport :=
     isGeneratingReport s; isRecording := isRecording s; isAiTyping :=
     isAiTyping s; chat := chat s; sessionPromise := sessionPromise s;
     audioContexts := audioContexts s; audioStream := v; scriptProcessor :=
     scriptProcessor s; mediaStreamSource := mediaStreamSource s;
     liveTranscription := liveTranscription s; cleanupPerformed :=
     cleanupPerformed s; currentAiText := currentAiText s; calls := calls s
     |}.

Definition set_scriptProcessor (v : bool) (s : State) : State :=
  {| status := status s; transcript := transcript s; isGeneratingReport :=
     isGeneratingReport s; isRecording := isRecording s; isAiTyping :=
     isAiTyping s; chat := chat s; sessionPromise := sessionPromise s;
     audioContexts := audioContexts s; audioStream := audioStream s;
     scriptProcessor := v; mediaStreamSource := mediaStreamSource s;
     liveTranscription := liveTranscription s; cleanupPerformed :=
     cleanupPerformed s; currentAiText := currentAiText s; calls := calls s
     |}.

Definition set_mediaStreamSource (v : bool) (s : State) : State :=
  {| status := status s; transcript := transcript s; isGeneratingReport :=
     isGeneratingReport s; isRecording := isRecording s; isAiTyping :=
     isAiTyping s; chat := chat s; sessionPromise := sessionPromise s;
     audioContexts := audioContexts s; audioStream := audioStream s;
     scriptProcessor := scriptProcessor s; mediaStreamSource := v;
     liveTranscription := liveTranscription s; cleanupPerformed :=
     cleanupPerformed s; currentAiText := currentAiText s; calls := calls s
     |}.

Definition set_liveTranscription (v : jsstring) (s : State) : State :=
  {| status := status s; transcript := transcript s; isGeneratingReport :=
     isGeneratingReport s; isRecording := isRecording s; isAiTyping :=
     isAiTyping s; chat := chat s; sessionPromise := sessionPromise s;
     audioContexts := audioContexts s; audioStream := audioStream s;
     scriptProcessor := scriptProcessor s; mediaStreamSource :=
     mediaStreamSource s; liveTranscription := v; cleanupPerformed :=
     cleanupPerformed s; currentAiText := currentAiText s; calls := calls s
     |}.

Definition set_cleanupPerformed (v : bool) (s : State) : State :=
  {| status := status s; transcript := transcript s; isGeneratingReport :=
     isGeneratingReport s; isRecording := isRecording s; isAiTyping :=
     isAiTyping s; chat := chat s; sessionPromise := sessionPromise s;
     audioContexts := audioContexts s; audioStream := audioStream s;
     scriptProcessor := scriptProcessor s; mediaStreamSource :=
     mediaStreamSource s; liveTranscription := liveTranscription s;
     cleanupPerformed := v; currentAiText := currentAiText s; calls := calls s
     |}.

Definition set_currentAiText (v : jsstring) (s : State) : State :=
  {| status := status s; transcript := transcript s; isGeneratingReport :=
     isGeneratingReport s; isRecording := isRecording s; isAiTyping :=
     isAiTyping s; chat := chat s; sessionPromise := sessionPromise s;
     audioContexts := audioContexts s; audioStream := audioStream s;
     scriptProcessor := scriptProcessor s; mediaStreamSource :=
     mediaStreamSource s; liveTranscription := liveTranscription s;
     cleanupPerformed := cleanupPerformed s; currentAiText := v; calls :=
     calls s |}.

Definition set_calls (v : list Call) (s : State) : State :=
  {| status := status s; transcript := transcript s; isGeneratingReport :=
     isGeneratingReport s; isRecording := isRecording s; isAiTyping :=
     isAiTyping s; chat := chat s; sessionPromise := sessionPromise s;
     audioContexts := audioContexts s; audioStream := audioStream s;
     scriptProcessor := scriptProcessor s; mediaStreamSource :=
     mediaStreamSource s; liveTranscription := liveTranscription s;
     cleanupPerformed := cleanupPerformed s; currentAiText := currentAiText s;
     calls := v |}.

Definition initial : State :=
  {| status := lit "Initializing...";
     transcript := [];
     isGeneratingReport := false;
     isRecording := false;
     isAiTyping := false;
     chat := false;
     sessionPromise := None;
     audioContexts := false;
     audioStream := false;
     scriptProcessor := false;
     mediaStreamSource := false;
     liveTranscription := [];
     cleanupPerformed := false;
     currentAiText := [];
     calls := [] |}.

Definition call (c : Call) (s : State) : State := set_calls (calls s ++ [c]) s.

(** [newTranscript[newTranscript.length - 1] = m] on a copy: on the
    empty array the index is [-1], which is no element, and the array
    stays empty. *)
Definition setLast (m : TranscriptMessage) (t : list TranscriptMessage)
    : list TranscriptMessage :=
  <[pred (length t) := m]> t.

(** [cleanupLiveSession], run from its guard to its last statement with
    no other callback of the screen in between: the promises it awaits
    are taken as settled, a rejected one being caught and logged. The
    flag is raised by the last statement only; a call that starts while
    another is waiting is not described by this function. *)
Definition cleanupLiveSession (s : State) : State :=
  if cleanupPerformed s then s
  else
    let s := if audioStream s
             then set_audioStream false (call TrackStop s) else s in
    let s := if scriptProcessor s
             then set_scriptProcessor false (call ProcessorDisconnect s)
             else s in
    let s := if mediaStreamSource s
             then set_mediaStreamSource false (call SourceDisconnect s)
             else s in
    let s := if audioContexts s
             then set_audioContexts false
                    (call OutputContextClose (call InputContextClose s))
             else s in
    let s :=
      match sessionPromise s with
      | Some fulfilled => set_sessionPromise None (call SessionClose s)
      | Some rejected => set_sessionPromise None s
      | None => s
      end in
    set_cleanupPerformed true s.

(** [userMessageText || "(No speech detected)"]. *)
Definition orNoSpeech (userMessageText : jsstring) : jsstring :=
  if truthy userMessageText then userMessageText
  else lit "(No speech detected)".

(** The updater that finalizes the user's message: the last entry, when
    it is the user's, gets the new text. *)
Definition finalizeUser (userMessageText : jsstring)
    (prev : list TranscriptMessage) : list TranscriptMessage :=
  match last prev with
  | Some {| speaker := USER; text := _ |} =>
      setLast {| speaker := USER; text := orNoSpeech userMessageText |} prev
  | _ => prev
  end.

Definition handleStopRecording (s : State) : State :=
  if negb (isRecording s) then s
  else
    let s := cleanupLiveSession
               (set_status (lit "Processing answer...")
                  (set_isRecording false s)) in
    let userMessageText := trim (liveTranscription s) in
    let s := set_liveTranscription [] s in
    let s := set_transcript (finalizeUser userMessageText (transcript s)) s in
    if truthy userMessageText && chat s then
      let s := set_status (lit "AI is thinking...") (set_isAiTyping true s) in
      let s := set_transcript
                 (transcript s ++ [{| speaker := AI; text := [] |}]) s in
      set_currentAiText [] (call (SendMessageStream userMessageText) s)
    else set_status (lit "Ready for your answer.") s.

(** One chunk of the response stream:
    [currentAiText += chunk.text], then the last entry is replaced. *)
Definition onchunk (chunkText : option jsstring) (s : State) : State :=
  let s := set_currentAiText (append_opt (currentAiText s) chunkText) s in
  set_transcript
    (setLast {| speaker := AI; text := currentAiText s |} (transcript s)) s.

(** The [finally] block after the stream, reached on completion and,
    through [catch], on failure. *)
Definition onstreamdone (s : State) : State :=
  set_status (lit "Ready for your answer.") (set_isAiTyping false s).

(** [handleStartRecording]; [mic] is the outcome of the API-key check
    and of [getUserMedia], [connect] that of [ai.live.connect]. *)
Definition handleStartRecording (mic : bool) (connect : Promise)
    (s : State) : State :=
  if isRecording s || isAiTyping s then s
  else
    let s := set_cleanupPerformed false
               (set_liveTranscription []
                  (set_status (lit "Listening...")
                     (set_isRecording true s))) in
    let s := set_transcript
               (transcript s ++ [{| speaker := USER; text := lit "..." |}]) s in
    let failed (s : State) :=
      set_isRecording false (set_status (lit "Mic error. Check permissions.") s) in
    if mic then
      let s := set_sessionPromise (Some connect)
                 (set_audioContexts true (set_audioStream true s)) in
      match connect with
      | fulfilled => s
      | rejected => failed s
      end
    else failed s.

Definition onopen (s : State) : State :=
  set_scriptProcessor true (set_mediaStreamSource true s).

Definition onaudioprocess (inputData : list Q) (s : State) : State :=
  match pcmData inputData with
  | None => s
  | Some data =>
      match sessionPromise s with
      | Some fulfilled => call (SendRealtimeInput data) s
      | _ => s
      end
  end.

Definition onmessage (message : LiveServerMessage) (s : State) : State :=
  match inputTranscription message with
  | Some i =>
      let s := set_liveTranscription
                 (append_opt (liveTranscription s) (transcriptionText i)) s in
      set_transcript
        (setLast {| speaker := USER;
                    text := liveTranscription s ++ lit "..." |}
                 (transcript s)) s
  | None => s
  end.

Definition onerror (s : State) : State := set_status (lit "Session error.") s.

(** [transcript.filter(msg => msg.text.trim() !== '' &&
    msg.text.trim() !== '...')]. *)
Definition cleanTranscript (t : list TranscriptMessage)
    : list TranscriptMessage :=
  List.filter
    (fun msg => negb (JS.eqb (trim (text msg)) [])
                && negb (JS.eqb (trim (text msg)) (lit "...")))
    t.

Definition endInterview (report : option FeedbackReport) (s : State) : State :=
  let s := cleanupLiveSession
             (set_isAiTyping false
                (set_isRecording false
                   (set_status (lit "Ending session...") s))) in
  let s := set_isGeneratingReport true
             (set_status (lit "Generating your feedback report...") s) in
  let clean := cleanTranscript (transcript s) in
  let s := call (GenerateFeedbackReport clean) s in
  match report with
  | Some r => call (OnInterviewEnd clean r) s
  | None =>
      set_isGeneratingReport false
        (set_status (lit "Error generating report. Please try again.") s)
  end.

(** The effect run once when the screen mounts: the chat is created and
    [startConversation] asks for the opening message. *)
Definition mount (s : State) : State :=
  let s := set_chat true s in
  let s := set_status (lit "AI is preparing...") (set_isAiTyping true s) in
  let s := set_transcript [{| speaker := AI; text := [] |}] s in
  set_currentAiText [] (call (SendMessageStream (lit "Start the interview now.")) s).

Definition unmount (s : State) : State := cleanupLiveSession s.

Definition render (s : State) : View :=
  if isGeneratingReport s then AnalyzingView
  else
    SessionView (status s) (transcript s)
      ((if isRecording s then [StopRecordingButton]
        else if isAiTyping s then [] else [RecordAnswerButton])
       ++ (if isRecording s || isAiTyping s then [] else [EndInterviewButton])).

(** Everything that can happen to the screen once it is mounted. *)
Inductive Event :=
| StartRecording (mic : bool) (connect : Promise)
| Open
| AudioProcess (inputData : list Q)
| Message (message : LiveServerMessage)
| Error
| StopRecording
| Chunk (chunkText : option jsstring)
| StreamDone
| EndInterview (report : option FeedbackReport)
| Unmount.

Definition step (s : State) (e : Event) : State :=
  match e with
  | StartRecording mic connect => handleStartRecording mic connect s
  | Open => onopen s
  | AudioProcess inputData => onaudioprocess inputData s
  | Message message => onmessage message s
  | Error => onerror s
  | StopRecording => handleStopRecording s
  | Chunk chunkText => onchunk chunkText s
  | StreamDone => onstreamdone s
  | EndInterview report => endInterview report s
  | Unmount => unmount s
  end.

Definition run (s : State) (evs : list Event) : State := fold_left step evs s.

(** An in-progress (non-final) message: an entry of the transcript that
    some continuation of the session still changes. *)
Definition nonFinal (s : State) (i : nat) : Prop :=
  (i < length (transcript s))%nat
  /\ exists evs, transcript (run s evs) !! i <> transcript s !! i.

(** The opening message was streamed and the user is recording. *)
Definition recording : State :=
  run (mount initial)
    [Chunk (Some (lit "Hi")); StreamDone; StartRecording true fulfilled].

(** A recording during which only a blank was transcribed. *)
Definition blankRecording : State :=
  run recording [Open; Message (inputFragment (lit " "))].

End PushToTalk.


(** ** src/components/SetupScreen.tsx and src/App.tsx *)

Module App.

Import JS Types.

Inductive AppState := SETUP | INTERVIEW | FEEDBACK.

Inductive InterviewType := BEHAVIORAL | TECHNICAL | SYSTEM_DESIGN.

Record InterviewConfig := {
  resumeText : jsstring;
  jobDescriptionText : jsstring;
  interviewType : InterviewType
}.

Record HistoricalInterview := {
  id : jsstring;
  timestamp : Z;
  config : InterviewConfig;
  report : FeedbackReport;
  transcript : list TranscriptMessage
}.

(** A JSON value that is no array, as the code can tell: [null], a
    boolean, a number, a string, or an object, of which only whether its
    [length] is greater than 0 is ever looked at. *)
Inductive NonArray :=
| JNull
| JBoolean (b : bool)
| JNumber (q : Q)
| JString (t : jsstring)
| JObject (lengthPositive : bool).

(** What [JSON.parse(localStorage.getItem('interviewHistory') || '[]')]
    meets under the key: nothing (or the empty string), text that is
    not JSON ([JSON.parse] throws), JSON that is no array, or an array,
    here of the records the application writes. [JSON.stringify]
    followed by [JSON.parse] gives the array back. *)
Inductive Stored :=
| Missing
| Malformed
| NotAnArray (v : NonArray)
| Items (l : list HistoricalInterview).

(** [array.slice(0, n)]. *)
Definition slice0 {A : Type} (n : nat) (l : list A) : list A := firstn n l.

(** Decimal digits of a number, for a template literal. *)
Definition decimal (z : Z) : jsstring :=
  lit (NilZero.string_of_int (Z.to_int z)).

(** The state of [App], the content of local storage, and whether the
    React tree is still mounted: an exception thrown while a screen
    renders unmounts it, there being no error boundary. *)
Record State := {
  appState : AppState;
  interviewConfig : option InterviewConfig;
  feedbackReport : option FeedbackReport;
  shownTranscript : list TranscriptMessage;
  viewingHistoryReport : option HistoricalInterview;
  localStorage : Stored;
  mounted : bool
}.

Definition handleStartInterview (c : InterviewConfig) (s : State) : State :=
  {| appState := INTERVIEW;
     interviewConfig := Some c;
     feedbackReport := None;
     shownTranscript := [];
     viewingHistoryReport := None;
     localStorage := localStorage s;
     mounted := mounted s |}.

(** The [try] block of [handleInterviewEnd]. A failure of [JSON.parse],
    of [unshift] (any value that is no array has none) or of the
    storage itself ([storageAccepts] is false: [setItem] throws when
    the quota is exceeded, [getItem] when access is denied) is caught
    and nothing is written. *)
Definition saveToHistory (storageAccepts : bool)
    (historyItem : HistoricalInterview) (storage : Stored) : Stored :=
  if storageAccepts then
    match storage with
    | Missing => Items (slice0 10 [historyItem])
    | Items history => Items (slice0 10 (historyItem :: history))
    | Malformed => Malformed
    | NotAnArray v => NotAnArray v
    end
  else storage.

(** [handleInterviewEnd]; [now1] and [now2] are the readings of the two
    calls of [Date.now()], for the id and for the timestamp. *)
Definition handleInterviewEnd (now1 now2 : Z) (storageAccepts : bool)
    (finalTranscript : list TranscriptMessage)
    (r : FeedbackReport) (s : State) : State :=
  match interviewConfig s with
  | None => s
  | Some c =>
      let historyItem :=
        {| id := lit "interview-" ++ decimal now1;
           timestamp := now2;
           config := c;
           report := r;
           transcript := finalTranscript |} in
      {| appState := FEEDBACK;
         interviewConfig := interviewConfig s;
         feedbackReport := Some r;
         shownTranscript := finalTranscript;
         viewingHistoryReport := viewingHistoryReport s;
         localStorage :=
           saveToHistory storageAccepts historyItem (localStorage s);
         mounted := mounted s |}
  end.

Definition handlePracticeAgain (s : State) : State :=
  {| appState := SETUP;
     interviewConfig := None;
     feedbackReport := None;
     shownTranscript := [];
     viewingHistoryReport := None;
     localStorage := localStorage s;
     mounted := mounted s |}.

Definition handleViewHistory (item : HistoricalInterview) (s : State) : State :=
  {| appState := FEEDBACK;
     interviewConfig := Some (config item);
     feedbackReport := Some (report item);
     shownTranscript := transcript item;
     viewingHistoryReport := Some item;
     localStorage := localStorage s;
     mounted := mounted s |}.

(** What [renderContent] returns; [BlankView] is [null]. *)
Inductive Screen :=
| SetupScreen
| InterviewScreen (c : InterviewConfig)
| FeedbackScreen (r : FeedbackReport) (t : list TranscriptMessage)
                 (isHistoryView : bool)
| BlankView.

Definition renderContent (s : State) : Screen :=
  match appState s with
  | SETUP => SetupScreen
  | INTERVIEW =>
      match interviewConfig s with
      | None => BlankView
      | Some c => InterviewScreen c
      end
  | FEEDBACK =>
      match feedbackReport s, interviewConfig s with
      | Some r, Some _ =>
          FeedbackScreen r (shownTranscript s)
            (match viewingHistoryReport s with Some _ => true | None => false end)
      | _, _ => BlankView
      end
  end.

(** The history the setup screen lists once its effect has stored the
    parsed value in [history], or [None] when rendering it throws. The
    effect catches a failure of [JSON.parse] and stores the empty array.
    Any other value is stored as it is, and the render evaluates
    [history.length > 0 && history.map(...)]: [null] has no property, a
    boolean or a number has no [length], and a string that is not empty
    or an object whose [length] is greater than 0 has no [map] to
    call. *)
Definition shownHistory (storage : Stored)
    : option (list HistoricalInterview) :=
  match storage with
  | Missing | Malformed => Some []
  | Items l => Some l
  | NotAnArray JNull => None
  | NotAnArray (JBoolean _) | NotAnArray (JNumber _) => Some []
  | NotAnArray (JString t) => if truthy t then None else Some []
  | NotAnArray (JObject lengthPositive) =>
      if lengthPositive then None else Some []
  end.

(** React rendering what [renderContent] returns: the setup screen,
    when it is the one shown, reads the stored history, and the tree is
    unmounted when that render throws. *)
Definition settle (s : State) : State :=
  match renderContent s, shownHistory (localStorage s) with
  | SetupScreen, None =>
      {| appState := appState s;
         interviewConfig := interviewConfig s;
         feedbackReport := feedbackReport s;
         shownTranscript := shownTranscript s;
         viewingHistoryReport := viewingHistoryReport s;
         localStorage := localStorage s;
         mounted := false |}
  | _, _ => s
  end.

(** The application once loaded, with [storage] in local storage. *)
Definition initial (storage : Stored) : State :=
  settle
    {| appState := SETUP;
       interviewConfig := None;
       feedbackReport := None;
       shownTranscript := [];
       viewingHistoryReport := None;
       localStorage := storage;
       mounted := true |}.

(** [handleSubmit] of the setup screen: the configuration handed to
    [onStartInterview], or [None] when the form is rejected with an
    error message. *)
Definition handleSubmit (resume jobDescription : jsstring)
    (type : InterviewType) : option InterviewConfig :=
  if negb (truthy resume) || negb (truthy jobDescription) then None
  else Some {| resumeText := resume;
               jobDescriptionText := jobDescription;
               interviewType := type |}.

(** What the user and the mounted screen can make happen: the setup
    form is submitted, a listed history record is opened, the interview
    screen reports its end, or Practice Again is pressed. The end of an
    interview comes with the two clock readings and with whether local
    storage takes the write. *)
Inductive Event :=
| Submit (resume jobDescription : jsstring) (type : InterviewType)
| ViewHistory (item : HistoricalInterview)
| InterviewEnd (now1 now2 : Z) (storageAccepts : bool)
               (finalTranscript : list TranscriptMessage)
               (r : FeedbackReport)
| PracticeAgain.

(** An event takes effect when the tree is mounted and the screen on
    display offers it; the setup screen is mounted anew each time the
    shell comes back to it. *)
Definition step (s : State) (e : Event) : State :=
  if mounted s then
    match renderContent s, e with
    | SetupScreen, Submit resume jobDescription type =>
        match handleSubmit resume jobDescription type with
        | Some c => handleStartInterview c s
        | None => s
        end
    | SetupScreen, ViewHistory item => handleViewHistory item s
    | InterviewScreen _, InterviewEnd now1 now2 storageAccepts finalTranscript r =>
        handleInterviewEnd now1 now2 storageAccepts finalTranscript r s
    | FeedbackScreen _ _ _, PracticeAgain => settle (handlePracticeAgain s)
    | _, _ => s
    end
  else s.

Definition run (s : State) (evs : list Event) : State := fold_left step evs s.

(** One full interview as the user drives it: the form is submitted,
    the interview screen reports the end, and Practice Again is
    pressed. *)
Record Interview := {
  formResume : jsstring;
  formJobDescription : jsstring;
  formType : InterviewType;
  endedAt : Z;
  stampedAt : Z;
  written : bool;
  finalTranscript : list TranscriptMessage;
  finalReport : FeedbackReport
}.

Definition interviewEvents (i : Interview) : list Event :=
  [Submit (formResume i) (formJobDescription i) (formType i);
   InterviewEnd (endedAt i) (stampedAt i) (written i)
                (finalTranscript i) (finalReport i);
   PracticeAgain].

(** The record [handleInterviewEnd] builds for it. *)
Definition historyItem (i : Interview) : HistoricalInterview :=
  {| id := lit "interview-" ++ decimal (endedAt i);
     timestamp := stampedAt i;
     config := {| resumeText := formResume i;
                  jobDescriptionText := formJobDescription i;
                  interviewType := formType i |};
     report := finalReport i;
     transcript := finalTranscript i |}.

(** An interview that ends at clock reading [k], for examples. *)
Definition sampleInterview (k : Z) : Interview :=
  {| formResume := lit "cv";
     formJobDescription := lit "job";
     formType := TECHNICAL;
     endedAt := k;
     stampedAt := k + 1;
     written := true;
     finalTranscript := [];
     finalReport := sampleReport |}.

(** What holds of the shell whatever the user does: an interview runs
    on a configuration that passed the form check and outside the
    history view; feedback is shown with a report and a configuration,
    and in the history view they are those of the record opened. *)
Definition coherent (s : State) : Prop :=
  match appState s with
  | SETUP => True
  | INTERVIEW =>
      viewingHistoryReport s = None
      /\ exists c, interviewConfig s = Some c
                   /\ resumeText c <> [] /\ jobDescriptionText c <> []
  | FEEDBACK =>
      (exists r c, feedbackReport s = Some r /\ interviewConfig s = Some c)
      /\ forall item, viewingHistoryReport s = Some item ->
            feedbackReport s = Some (report item)
            /\ shownTranscript s = transcript item
  end.

(** Storage that holds nothing or an array, and the records in it. *)
Definition listable (st : Stored) (old : list HistoricalInterview) : Prop :=
  (st = Missing /\ old = []) \/ st = Items old.

(** The form passes the check of [handleSubmit]. *)
Definition accepted (i : Interview) : Prop :=
  formResume i <> [] /\ formJobDescription i <> [].

End App.

(** ** Vocabulary for the properties of calls and states *)

Module Calls.

Import JS Types Platform.

(** The place of a release call in the teardown order: capture first,
    then the input context, playback, the output context, the session. *)
Definition releaseRank (c : Call) : nat :=
  match c with
  | TrackStop => 0
  | ProcessorDisconnect => 1
  | SourceDisconnect => 2
  | InputContextClose => 3
  | PlaybackStop _ => 4
  | OutputContextClose => 5
  | SessionClose => 6
  | _ => 7
  end.

Definition inTeardownOrder (cs : list Call) : Prop :=
  StronglySorted (fun a b => (releaseRank a <= releaseRank b)%nat) cs.

(** The sources a list of calls stops. *)
Definition stopped (cs : list Call) : list nat :=
  flat_map (fun c => match c with PlaybackStop id => [id] | _ => [] end) cs.

(** Sub-steps of a teardown add release calls in teardown order, their
    ranks within a band. *)
Definition banded (lo hi : nat) (cs : list Call) : Prop :=
  inTeardownOrder cs
  /\ Forall (fun c => (lo <= releaseRank c <= hi)%nat) cs
  /\ forallb isRelease cs = true.

End Calls.

Module Invariants.

Import JS Types Platform.

(** A finalized text: not empty, and [trim] leaves it as it is. *)
Definition finalized (m : TranscriptMessage) : Prop :=
  text m <> [] /\ trim (text m) = text m.

(** The bookkeeping of the continuous screen's scheduled sources: no
    source twice, every identifier already given out, every source
    started. *)
Definition sourcesOk (s : Continuous.State) : Prop :=
  List.NoDup (Continuous.audioSources s)
  /\ Forall (fun id => (id < Continuous.nextSourceId s)%nat)
            (Continuous.audioSources s)
  /\ forall id, In id (Continuous.audioSources s) ->
       exists w d, In (PlaybackStart id w d) (Continuous.calls s).

End Invariants.

(** * Properties *)

(** ** Base64 *)

Section Base64.

Import JS AudioUtils.

Lemma list_ind3 {A : Type} (P : list A -> Prop) :
  P [] -> (forall a, P [a]) -> (forall a b, P [a; b]) ->
  (forall a b c r, P r -> P (a :: b :: c :: r)) ->
  forall l, P l.
Proof.
  intros H0 H1 H2 H3.
  assert (forall n l, (length l <= n)%nat -> P l) as Hn.
  { induction n as [|n IH]; intros l Hl.
    - destruct l; [exact H0 | simpl in Hl; lia].
    - destruct l as [|a [|b [|c r]]]; auto.
      apply H3, IH. simpl in Hl. lia. }
  intros l. apply (Hn (length l)). lia.
Qed.

Ltac zbool :=
  repeat match goal with
  | |- context [?a <? ?b] => destruct (Z.ltb_spec a b)
  | |- context [?a <=? ?b] => destruct (Z.leb_spec a b)
  | |- context [?a =? ?b] => destruct (Z.eqb_spec a b)
  end; simpl; try lia.

Lemma u8_octet (b : byte) : octet (u8 b).
Proof.
  unfold octet, u8. pose proof (Byte.to_N_bounded b). lia.
Qed.

Lemma toUint8_u8 (b : byte) : toUint8 (u8 b) = b.
Proof. destruct b; reflexivity. Qed.

Lemma b64_value_char (v : Z) : sextet v -> b64_value (b64_char v) = Some v.
Proof.
  unfold sextet, b64_char, b64_value. intros Hv.
  destruct (Z.ltb_spec v 26); [zbool; f_equal; lia|].
  destruct (Z.ltb_spec v 52); [zbool; f_equal; lia|].
  destruct (Z.ltb_spec v 62); [zbool; f_equal; lia|].
  destruct (Z.eqb_spec v 62); [subst; reflexivity|].
  assert (v = 63) by lia. subst. reflexivity.
Qed.

Lemma b64_char_plain (v : Z) :
  sextet v -> (b64_char v =? 61) = false /\ isAsciiWhitespace (b64_char v) = false.
Proof.
  unfold sextet, b64_char, isAsciiWhitespace. intros Hv.
  destruct (Z.ltb_spec v 26); [split; zbool|].
  destruct (Z.ltb_spec v 52); [split; zbool|].
  destruct (Z.ltb_spec v 62); [split; zbool|].
  destruct (Z.eqb_spec v 62); split; reflexivity.
Qed.

Lemma sextets_sextet (l : list Z) : Forall octet l -> Forall sextet (sextets l).
Proof.
  unfold octet, sextet.
  induction l as [|a|a b|a b c r IH] using list_ind3; intros H.
  - constructor.
  - inversion_clear H. simpl. repeat constructor; Z.div_mod_to_equations; lia.
  - inversion_clear H as [|? ? Ha H']. inversion_clear H'.
    simpl. repeat constructor; Z.div_mod_to_equations; lia.
  - inversion_clear H as [|? ? Ha H']. inversion_clear H' as [|? ? Hb H''].
    inversion_clear H'' as [|? ? Hc Hr].
    change (sextets (a :: b :: c :: r))
      with ([a / 4; a mod 4 * 16 + b / 16; b mod 16 * 4 + c / 64; c mod 64]
              ++ sextets r).
    apply Forall_app. split; [|auto].
    repeat constructor; Z.div_mod_to_equations; lia.
Qed.

Lemma octets_sextets (l : list Z) : Forall octet l -> octets (sextets l) = l.
Proof.
  unfold octet.
  induction l as [|a|a b|a b c r IH] using list_ind3; intros H.
  - reflexivity.
  - inversion_clear H. simpl. f_equal. Z.div_mod_to_equations; lia.
  - inversion_clear H as [|? ? Ha H']. inversion_clear H'.
    simpl. repeat f_equal; Z.div_mod_to_equations; lia.
  - inversion_clear H as [|? ? Ha H']. inversion_clear H' as [|? ? Hb H''].
    inversion_clear H'' as [|? ? Hc Hr].
    change (octets (sextets (a :: b :: c :: r)))
      with ([(a / 4) * 4 + (a mod 4 * 16 + b / 16) / 16;
             (a mod 4 * 16 + b / 16) mod 16 * 16 + (b mod 16 * 4 + c / 64) / 4;
             (b mod 16 * 4 + c / 64) mod 4 * 64 + c mod 64]
              ++ octets (sextets r)).
    rewrite IH by assumption. simpl.
    repeat f_equal; Z.div_mod_to_equations; lia.
Qed.

Lemma values_chars (vs : list Z) :
  Forall sextet vs -> values (map b64_char vs) = Some vs.
Proof.
  induction 1 as [|v vs Hv _ IH]; simpl; [reflexivity|].
  now rewrite b64_value_char, IH.
Qed.

Lemma sextets_length (l : list Z) :
  (length (sextets l) + length (padding (length l)))%nat
    = (4 * ((length l + 2) / 3))%nat
  /\ (length (sextets l) mod 4)%nat <> 1%nat.
Proof.
  induction l as [|a|a b|a b c r IH] using list_ind3;
    try (split; [reflexivity | simpl; lia]).
  change (sextets (a :: b :: c :: r))
    with ([a / 4; a mod 4 * 16 + b / 16; b mod 16 * 4 + c / 64; c mod 64]
            ++ sextets r).
  assert (padding (length (a :: b :: c :: r)) = padding (length r)) as ->.
  { unfold padding. replace (length (a :: b :: c :: r)) with (length r + 1 * 3)%nat
      by (simpl; lia).
    now rewrite Nat.Div0.mod_add. }
  rewrite length_app.
  replace (length (a :: b :: c :: r)) with (length r + 3)%nat by (simpl; lia).
  change (length [a / 4; a mod 4 * 16 + b / 16; b mod 16 * 4 + c / 64; c mod 64])
    with 4%nat.
  destruct IH as [IH1 IH2]. split.
  - replace (length r + 3 + 2)%nat with ((length r + 2) + 1 * 3)%nat by lia.
    rewrite Nat.div_add by lia. lia.
  - replace (4 + length (sextets r))%nat with (length (sextets r) + 1 * 4)%nat by lia.
    now rewrite Nat.Div0.mod_add.
Qed.

Lemma padding_cases (n : nat) :
  padding n = [] \/ padding n = [61] \/ padding n = [61; 61].
Proof.
  unfold padding. destruct (n mod 3)%nat as [|[|[|?]]]; auto.
Qed.

Lemma remove_padding_chars (vs : list Z) (n : nat) :
  Forall sextet vs ->
  (Z.of_nat (length (map b64_char vs ++ padding n)) mod 4 =? 0) = true ->
  remove_padding (map b64_char vs ++ padding n) = map b64_char vs.
Proof.
  intros Hvs Hlen. unfold remove_padding. rewrite Hlen.
  assert (Forall (fun c => (c =? 61) = false) (rev (map b64_char vs))) as Hrev.
  { apply Forall_rev, Forall_map. eapply Forall_impl; [exact Hvs|].
    intros v Hv. apply b64_char_plain, Hv. }
  rewrite rev_app_distr.
  destruct (padding_cases n) as [-> | [-> | ->]]; simpl.
  - rewrite app_nil_r.
    destruct (rev (map b64_char vs)) as [|c1 [|c2 r]] eqn:E; [reflexivity| |];
      inversion_clear Hrev as [|? ? Hc1 _]; now rewrite Hc1.
  - destruct (rev (map b64_char vs)) as [|c2 r] eqn:E.
    + apply (f_equal (@rev Z)) in E. rewrite rev_involutive in E. now rewrite E.
    + inversion_clear Hrev as [|? ? Hc2 _]. rewrite Hc2.
      change (rev r ++ [c2]) with (rev (c2 :: r)). rewrite <- E.
      apply rev_involutive.
  - apply rev_involutive.
Qed.

Lemma filter_chars (vs : list Z) (n : nat) :
  Forall sextet vs ->
  List.filter (fun c => negb (isAsciiWhitespace c)) (map b64_char vs ++ padding n)
    = map b64_char vs ++ padding n.
Proof.
  intros Hvs. apply forallb_filter_id, forallb_forall. intros c Hc.
  apply in_app_or in Hc. destruct Hc as [Hc | Hc].
  - apply in_map_iff in Hc. destruct Hc as [v [<- Hv]].
    rewrite List.Forall_forall in Hvs.
    destruct (b64_char_plain v (Hvs v Hv)) as [_ ->]. reflexivity.
  - destruct (padding_cases n) as [E | [E | E]]; rewrite E in Hc; simpl in Hc;
      intuition (subst; reflexivity).
Qed.

Lemma atob_btoa (l : list Z) :
  Forall octet l ->
  exists s, btoa l = Some s /\ atob s = Some l.
Proof.
  intros Hl. exists (map b64_char (sextets l) ++ padding (length l)). split.
  - unfold btoa.
    replace (forallb (fun c => (0 <=? c) && (c <=? 255)) l) with true; [reflexivity|].
    symmetry. apply forallb_forall. intros c Hc.
    rewrite List.Forall_forall in Hl. specialize (Hl c Hc). unfold octet in Hl.
    apply andb_true_intro. split; [apply Z.leb_le | apply Z.leb_le]; lia.
  - pose proof (sextets_sextet l Hl) as Hs.
    destruct (sextets_length l) as [Hlen Hmod].
    unfold atob. rewrite filter_chars by assumption.
    rewrite remove_padding_chars; [|assumption|].
    + rewrite length_map.
      replace (Z.of_nat (length (sextets l)) mod 4 =? 1) with false.
      * now rewrite values_chars, octets_sextets.
      * symmetry. apply Z.eqb_neq. intros E. apply Hmod.
        apply Nat2Z.inj. rewrite Nat2Z.inj_mod. exact E.
    + apply Z.eqb_eq. rewrite length_app, length_map, Hlen.
      rewrite Nat2Z.inj_mul. change (Z.of_nat 4) with 4.
      rewrite Z.mul_comm. apply Z.mod_mul. lia.
Qed.

(** C2. Base64 round trip. For every byte sequence [b], [encode b]
    returns a string, and [decode] of that string returns exactly [b]
    (hence the same length and the same byte at every index). *)
Theorem decode_encode (b : list byte) :
  exists s, encode b = Some s /\ decode s = Some b.
Proof.
  destruct (atob_btoa (map u8 b)) as [s [He Hd]].
  { apply Forall_map, List.Forall_forall. intros x _. apply u8_octet. }
  exists s. split; [exact He|].
  unfold decode. rewrite Hd, map_map. f_equal.
  rewrite <- (map_id b) at 2. apply map_ext. intros x. apply toUint8_u8.
Qed.

End Base64.

(** ** PCM decoding *)

Section PCM.

Import JS AudioUtils.

Lemma iterate_app {S : Type} (body : nat -> S -> option S) (l1 l2 : list nat) (s : S) :
  iterate body (l1 ++ l2) s
  = match iterate body l1 s with
    | Some s' => iterate body l2 s'
    | None => None
    end.
Proof.
  revert s. induction l1 as [|i l1 IH]; intros s; simpl; [reflexivity|].
  destruct (body i s); [apply IH | reflexivity].
Qed.

(** The inner loop: every index below the bound is stored once, and a
    store past the end of the channel leaves the channel as it is. *)
Lemma inner_loop (f : nat -> number) (K : nat) (cd : list number) :
  exists cd',
    iterate (fun i cd => Some (<[i := f i]> cd)) (seq 0 K) cd = Some cd'
    /\ length cd' = length cd
    /\ (forall i, (i < K)%nat -> (i < length cd)%nat -> cd' !! i = Some (f i))
    /\ (forall i, (K <= i)%nat -> cd' !! i = cd !! i).
Proof.
  induction K as [|K [cd' [Hrun [Hlen [Hlt Hge]]]]].
  - exists cd. repeat split; auto. intros; lia.
  - exists (<[K := f K]> cd').
    rewrite seq_S, iterate_app, Hrun. simpl.
    split; [reflexivity|]. split; [now rewrite length_insert|]. split.
    + intros i Hi Hcd. destruct (Nat.eq_dec i K) as [-> | Hne].
      * apply list_lookup_insert_eq. lia.
      * rewrite list_lookup_insert_ne by lia. apply Hlt; lia.
    + intros i Hi. rewrite list_lookup_insert_ne by lia. apply Hge. lia.
Qed.

Lemma Qfloor_quotient (a n : Z) :
  0 < n -> Qfloor (inject_Z a / inject_Z n) = a / n.
Proof.
  intros Hn. destruct n as [|p|p]; try lia.
  unfold Qfloor, Qdiv, Qmult, Qinv, inject_Z. simpl.
  now rewrite Z.mul_1_r.
Qed.

Lemma floor_le_ceiling (x : Q) : Qfloor x <= Qceiling x.
Proof.
  pose proof (Qfloor_le x) as H1. pose proof (Qle_ceiling x) as H2.
  apply Qle_trans with (z := inject_Z (Qceiling x)) in H1; [|exact H2].
  unfold Qle, inject_Z in H1. simpl in H1. lia.
Qed.

(** The outer loop over the channels of a freshly allocated buffer. *)
Lemma outer_loop (f : nat -> nat -> number) (n F Ki : nat) :
  (F <= Ki)%nat ->
  forall (K : nat) (buffer : AudioBuffer),
    (K <= n)%nat ->
    length (channelData buffer) = n ->
    Forall (fun cd : list number => length cd = F) (channelData buffer) ->
    exists buffer',
      iterate
        (fun channel buffer =>
           match channelData buffer !! channel with
           | None => None
           | Some channelData0 =>
               match iterate (fun i cd => Some (<[i := f channel i]> cd))
                             (seq 0 Ki) channelData0 with
               | Some cd => Some (setChannelData buffer channel cd)
               | None => None
               end
           end)
        (seq 0 K) buffer = Some buffer'
      /\ sampleRate buffer' = sampleRate buffer
      /\ bufferLength buffer' = bufferLength buffer
      /\ length (channelData buffer') = n
      /\ Forall (fun cd : list number => length cd = F) (channelData buffer')
      /\ forall c, (c < K)%nat ->
           exists cd, channelData buffer' !! c = Some cd
                      /\ length cd = F
                      /\ forall i, (i < F)%nat -> cd !! i = Some (f c i).
Proof.
  intros HF K buffer HK Hn Hall. induction K as [|K IH].
  - exists buffer. repeat split; auto. intros; lia.
  - destruct IH as [b [Hrun [Hrate [Hlen [Hn' [Hall' Hdone]]]]]]; [lia|].
    destruct (lookup_lt_is_Some_2 (channelData b) K) as [cd0 Hcd0]; [lia|].
    assert (length cd0 = F) as Hcd0len.
    { rewrite List.Forall_forall in Hall'. apply Hall'.
      apply list_elem_of_In. eapply list_elem_of_lookup_2. exact Hcd0. }
    destruct (inner_loop (f K) Ki cd0) as [cd [Hin [Hcdlen [Hlt _]]]].
    exists (setChannelData b K cd).
    rewrite seq_S, iterate_app, Hrun. simpl. rewrite Hcd0, Hin.
    split; [reflexivity|]. split; [exact Hrate|]. split; [exact Hlen|].
    split; [now rewrite length_insert|].
    split; [apply Forall_insert; [assumption | lia]|].
    intros c Hc. destruct (Nat.eq_dec c K) as [-> | Hne].
    + exists cd. split; [apply list_lookup_insert_eq; lia|].
      split; [lia|]. intros i Hi. apply Hlt; lia.
    + destruct (Hdone c) as [cd1 [H1 H2]]; [lia|].
      exists cd1. split; [|exact H2].
      rewrite list_lookup_insert_ne by lia. exact H1.
Qed.

Lemma decodeAudioData_spec (data : Uint8Array) (ctx : AudioContext)
    (rate n : Z) (dataInt16 : list Z) (buffer0 : AudioBuffer) :
  1 <= n ->
  Int16Array_of_buffer (buffer data) = Some dataInt16 ->
  createBuffer ctx n (inject_Z (Z.of_nat (length dataInt16)) / inject_Z n) rate
    = Some buffer0 ->
  allocated buffer0 n (inject_Z (Z.of_nat (length dataInt16)) / inject_Z n) rate ->
  exists b,
    decodeAudioData data ctx rate n = Some b
    /\ sampleRate b = rate
    /\ deinterleaved dataInt16 n b.
Proof.
  intros Hn Hview Hctx [Hrate [Hlen [Hchan Hall]]].
  set (total := Z.of_nat (length dataInt16)) in *.
  assert (0 <= total / n) as Hq by (apply Z.div_pos; lia).
  rewrite Qfloor_quotient in Hlen, Hall by lia.
  destruct (outer_loop
              (fun channel i =>
                 div32768 (dataInt16 !! (i * Z.to_nat n + channel)%nat))
              (Z.to_nat n) (Z.to_nat (total / n))
              (Z.to_nat (Qceiling (inject_Z total / inject_Z n)))
              ltac:(rewrite <- (Qfloor_quotient total n) by lia;
                    apply Z2Nat.inj_le;
                    [rewrite Qfloor_quotient by lia; lia
                    |pose proof (floor_le_ceiling (inject_Z total / inject_Z n));
                     rewrite Qfloor_quotient in * by lia; lia
                    |apply floor_le_ceiling])
              (Z.to_nat n) buffer0 (Nat.le_refl _) Hchan Hall)
    as [b [Hrun [Hr [Hl [Hc [Hall' Hs]]]]]].
  exists b. split; [|split; [congruence|split; [|split]]].
  - unfold decodeAudioData. rewrite Hview.
    destruct (Z.leb_spec n 0); [lia|].
    fold total. rewrite Hctx. unfold for_lt. rewrite Qceiling_Z. exact Hrun.
  - fold total. rewrite Hl, Hlen. lia.
  - unfold numberOfChannels. rewrite Hc. lia.
  - fold total. intros c i Hcn Hif.
    destruct (Hs c) as [cd [Hcd [Hcdlen Hsample]]]; [lia|].
    assert ((i * Z.to_nat n + c < length dataInt16)%nat) as Hidx.
    { assert (Z.of_nat i * n + Z.of_nat c < total); [|unfold total in *; nia].
      pose proof (Z.mul_div_le total n). nia. }
    destruct (lookup_lt_is_Some_2 dataInt16 _ Hidx) as [x Hx].
    exists cd, x. split; [exact Hcd|]. split; [lia|]. split; [exact Hx|].
    rewrite Hsample by lia. now rewrite Hx.
Qed.

Lemma plainContext_wellBehaved : wellBehaved plainContext.
Proof.
  intros n fc rate b H. unfold plainContext in H. cbn in H.
  destruct ((1 <=? n) && (1 <=? Qfloor fc)); [|discriminate].
  injection H as <-. unfold allocated. cbn.
  rewrite !repeat_length. repeat split.
  apply List.Forall_forall. intros cd Hcd.
  apply repeat_spec in Hcd. subst. apply repeat_length.
Qed.

(** [plainContext] allocates exactly when a whole frame is asked for. *)
Lemma plainContext_createBuffer (total n rate : Z) :
  1 <= n -> 0 <= total ->
  (n <= total ->
   exists b, createBuffer plainContext n (inject_Z total / inject_Z n) rate = Some b)
  /\ (total < n ->
      createBuffer plainContext n (inject_Z total / inject_Z n) rate = None).
Proof.
  intros Hn Ht. unfold plainContext. cbn [createBuffer].
  rewrite Qfloor_quotient by lia.
  destruct (Z.leb_spec 1 n); [|lia]. cbn [andb]. split; intros Hcmp.
  - assert (1 <= total / n) by (apply Z.div_le_lower_bound; lia).
    destruct (Z.leb_spec 1 (total / n)); [eauto | lia].
  - rewrite Z.div_small by lia. reflexivity.
Qed.

(** C3, as amended. PCM decoding. The [Int16Array] view is taken on the
    whole buffer behind the array; let it be accepted (an even number of
    bytes) and let [n >= 1]. Whenever [createBuffer] returns a buffer of
    the requested shape, [decodeAudioData] returns a buffer: its frame
    count is the floor of (samples / n), every channel has exactly that
    many samples, and sample [i] of channel [c] is
    [int16[i*n + c] / 32768]; the samples of a trailing incomplete frame
    appear in no channel. With an allocator that asks for one channel
    and one frame at least, this is the case exactly when the buffer
    holds a complete frame: with fewer samples than channels
    [decodeAudioData] raises. *)
Theorem decodeAudioData_samples (data : Uint8Array) (rate n : Z)
    (dataInt16 : list Z) :
  1 <= n ->
  Int16Array_of_buffer (buffer data) = Some dataInt16 ->
  (forall (ctx : AudioContext) (buffer0 : AudioBuffer),
      createBuffer ctx n (inject_Z (Z.of_nat (length dataInt16)) / inject_Z n) rate
        = Some buffer0 ->
      allocated buffer0 n
        (inject_Z (Z.of_nat (length dataInt16)) / inject_Z n) rate ->
      exists b,
        decodeAudioData data ctx rate n = Some b
        /\ deinterleaved dataInt16 n b)
  /\ (n <= Z.of_nat (length dataInt16) ->
      exists b,
        decodeAudioData data plainContext rate n = Some b
        /\ deinterleaved dataInt16 n b)
  /\ (Z.of_nat (length dataInt16) < n ->
      decodeAudioData data plainContext rate n = None).
Proof.
  intros Hn Hview.
  assert (Hgen : forall (ctx : AudioContext) (buffer0 : AudioBuffer),
             createBuffer ctx n
               (inject_Z (Z.of_nat (length dataInt16)) / inject_Z n) rate
               = Some buffer0 ->
             allocated buffer0 n
               (inject_Z (Z.of_nat (length dataInt16)) / inject_Z n) rate ->
             exists b,
               decodeAudioData data ctx rate n = Some b
               /\ deinterleaved dataInt16 n b).
  { intros ctx buffer0 Hctx Halloc.
    destruct (decodeAudioData_spec data ctx rate n dataInt16 buffer0
                Hn Hview Hctx Halloc) as [b [H1 [_ H2]]].
    exists b. auto. }
  destruct (plainContext_createBuffer (Z.of_nat (length dataInt16)) n rate
              Hn ltac:(lia)) as [Hsome Hnone].
  split; [exact Hgen|]. split.
  - intros Hle. destruct (Hsome Hle) as [b0 Hb0].
    apply (Hgen plainContext b0 Hb0).
    exact (plainContext_wellBehaved _ _ _ _ Hb0).
  - intros Hlt. unfold decodeAudioData. rewrite Hview.
    destruct (Z.leb_spec n 0); [reflexivity|]. now rewrite (Hnone Hlt).
Qed.

(** Three samples on two channels in a buffer of the array's own: one
    frame, the third sample dropped. *)
Lemma decodeAudioData_samples_witness :
  exists b,
    decodeAudioData (newUint8Array [x01; x00; x02; x00; xff; xff])
                    plainContext 24000 2
      = Some b
    /\ deinterleaved [1; 2; -1] 2 b.
Proof.
  apply (proj1 (proj2 (decodeAudioData_samples
                         (newUint8Array [x01; x00; x02; x00; xff; xff])
                         24000 2 [1; 2; -1] ltac:(lia) eq_refl))).
  cbn. lia.
Defined.

(** C3, as stated, fails: a payload of one sample decoded on two
    channels is a lone incomplete frame, and an empty payload has no
    frame at all; in both cases [createBuffer] is asked for no frame and
    raises, so [decodeAudioData] returns no buffer. *)
Lemma decodeAudioData_no_frame :
  Int16Array_of_buffer (buffer (newUint8Array [x01; x00])) = Some [1]
  /\ decodeAudioData (newUint8Array [x01; x00]) plainContext 24000 2 = None
  /\ Int16Array_of_buffer (buffer (newUint8Array [])) = Some []
  /\ decodeAudioData (newUint8Array []) plainContext 24000 1 = None.
Proof. repeat split. Qed.

End PCM.

(** ** Turn completion in the continuous screen *)

Section TurnComplete.

Import JS Types AudioUtils Platform Continuous.

Lemma trimStart_nil (l : jsstring) :
  trimStart l = [] <-> forallb isWhiteSpace l = true.
Proof.
  induction l as [|c l IH]; simpl; [tauto|].
  destruct (isWhiteSpace c); simpl; [exact IH|]. split; discriminate.
Qed.

Lemma trimStart_head (l : jsstring) :
  forallb isWhiteSpace l = false ->
  exists c r, trimStart l = c :: r /\ isWhiteSpace c = false.
Proof.
  induction l as [|c l IH]; simpl; [discriminate|].
  destruct (isWhiteSpace c) eqn:E; simpl; [exact IH|].
  intros _. now exists c, l.
Qed.

(** [trim] leaves nothing exactly when every code unit is white space. *)
Lemma truthy_trim (t : jsstring) :
  truthy (trim t) = negb (forallb isWhiteSpace t).
Proof.
  unfold trim, trimEnd.
  destruct (forallb isWhiteSpace t) eqn:E.
  - apply trimStart_nil in E. now rewrite E.
  - destruct (trimStart_head t E) as [c [r [-> Hc]]]. simpl.
    destruct (trimStart (rev r ++ [c])) as [|d l] eqn:E'.
    + apply trimStart_nil in E'. rewrite forallb_app in E'. simpl in E'.
      rewrite Hc in E'. now rewrite andb_false_r in E'.
    + simpl. now destruct (rev l ++ [d]) eqn:E''; [destruct (rev l)|].
Qed.

Lemma onmessage_audio_text (env : Env) (m : LiveServerMessage) (s : State) :
  transcript (onmessage_audio env m s) = transcript s
  /\ currentInputTranscription (onmessage_audio env m s) = currentInputTranscription s
  /\ currentOutputTranscription (onmessage_audio env m s) = currentOutputTranscription s.
Proof.
  unfold onmessage_audio.
  destruct (inlineData m) as [a|]; [|auto].
  destruct (truthy a); [|auto].
  destruct (outputAudioContext s); [|auto]. simpl.
  destruct (decode a) as [b|]; [|auto].
  destruct (decodeAudioData (newUint8Array b) (outputContext env) 24000 1); auto.
Qed.

Lemma run_app (s : State) (l1 l2 : list Event) :
  run s (l1 ++ l2) = run (run s l1) l2.
Proof. apply fold_left_app. Qed.

(** Fragments are appended to the accumulator in arrival order. *)
Lemma run_inputFragments (env : Env) (fs : list jsstring) (s : State) :
  let s' := run s (map (fun f => Message env (inputFragment f)) fs) in
  transcript s' = transcript s
  /\ currentInputTranscription s' = currentInputTranscription s ++ concat fs
  /\ currentOutputTranscription s' = currentOutputTranscription s.
Proof.
  revert s. induction fs as [|f fs IH]; intros s; simpl.
  - now rewrite app_nil_r.
  - destruct (IH (onmessage env (inputFragment f) s)) as [H1 [H2 H3]].
    simpl in H1, H2, H3. rewrite H1, H2, H3. unfold onmessage. simpl.
    unfold append_opt. rewrite <- app_assoc. auto.
Qed.

Lemma pushIf_blank (sp : Speaker) (l : list TranscriptMessage) :
  pushIf sp [] l = l.
Proof. reflexivity. Qed.

(** Once an updater has run, the accumulators are empty and the ones
    queued behind it add nothing. *)
Lemma finalizeTurn_again (s : State) :
  finalizeTurn (finalizeTurn s) = finalizeTurn s.
Proof. reflexivity. Qed.

Lemma finalizeTurn_iter (n : nat) (s : State) :
  Nat.iter (S n) finalizeTurn s = finalizeTurn s.
Proof.
  induction n as [|n IH]; [reflexivity|].
  change (Nat.iter (S (S n)) finalizeTurn s)
    with (finalizeTurn (Nat.iter (S n) finalizeTurn s)).
  rewrite IH. apply finalizeTurn_again.
Qed.

Lemma flush_pending (s : State) :
  pendingTurns s <> 0%nat -> flush s = set_pendingTurns 0 (finalizeTurn s).
Proof.
  intros H. unfold flush. destruct (pendingTurns s) as [|n]; [congruence|].
  now rewrite finalizeTurn_iter.
Qed.

Lemma flush_idle (s : State) :
  pendingTurns s = 0%nat -> transcript (flush s) = transcript s.
Proof. intros H. unfold flush. now rewrite H. Qed.

Lemma flush_textOnly (s : State) : textOnly s (flush s).
Proof.
  unfold flush. generalize (pendingTurns s). intros n.
  assert (textOnly s (Nat.iter n finalizeTurn s)) as [].
  { induction n as [|n []]; [now constructor|].
    change (Nat.iter (S n) finalizeTurn s)
      with (finalizeTurn (Nat.iter n finalizeTurn s)).
    now constructor. }
  now constructor.
Qed.

Lemma onmessage_text_textOnly (m : LiveServerMessage) (s : State) :
  textOnly s (onmessage_text m s).
Proof.
  unfold onmessage_text.
  now destruct (outputTranscription m), (inputTranscription m), (turnComplete m).
Qed.

Lemma finalizeTurn_transcript (s : State) :
  transcript (finalizeTurn s)
  = transcript s
      ++ (if forallb isWhiteSpace (currentInputTranscription s) then []
          else [{| speaker := USER;
                   text := trim (currentInputTranscription s) |}])
      ++ (if forallb isWhiteSpace (currentOutputTranscription s) then []
          else [{| speaker := AI;
                   text := trim (currentOutputTranscription s) |}]).
Proof.
  unfold finalizeTurn. cbn. unfold pushIf. rewrite !truthy_trim.
  destruct (forallb isWhiteSpace (currentInputTranscription s));
    destruct (forallb isWhiteSpace (currentOutputTranscription s)); simpl;
    rewrite ?app_nil_r, <- ?app_assoc; reflexivity.
Qed.

(** C4. Turn-complete finalization. When React runs the queued updater
    before anything else arrives, "Hel", "lo" and the signal append
    exactly (USER, "Hello"), white space around the text is dropped,
    and a text that is empty or all white space appends nothing. But
    the updater reads the accumulators when React runs it, not when the
    signal is handled. With both accumulators empty at the signal, a
    fragment "lo" that arrives before the updater runs is appended as a
    message although the text was empty at the signal; and a fragment
    that arrives after "Hel" and the signal is merged into the message
    of the turn that was complete. *)
Theorem turnComplete_reads_late (env : Env) :
  transcript
    (run initial [Message env (inputFragment (lit "Hel"));
                  Message env (inputFragment (lit "lo"));
                  Message env turnCompleteSignal;
                  Flush])
  = [{| speaker := USER; text := lit "Hello" |}]
  /\ transcript
       (run initial [Message env (inputFragment (lit " Hel"));
                     Message env (inputFragment (lit "lo "));
                     Message env (outputFragment (lit "  "));
                     Message env turnCompleteSignal;
                     Flush])
     = [{| speaker := USER; text := lit "Hello" |}]
  /\ (forall fs : list jsstring,
        transcript
          (run initial (map (fun f => Message env (inputFragment f)) fs
                          ++ [Message env turnCompleteSignal; Flush]))
        = if forallb isWhiteSpace (concat fs) then []
          else [{| speaker := USER; text := trim (concat fs) |}])
  /\ (currentInputTranscription (run initial [Message env turnCompleteSignal]) = []
      /\ currentOutputTranscription (run initial [Message env turnCompleteSignal])
         = []
      /\ transcript
           (run initial [Message env turnCompleteSignal;
                         Message env (inputFragment (lit "lo"));
                         Flush])
         = [{| speaker := USER; text := lit "lo" |}]
      /\ transcript
           (run initial [Message env turnCompleteSignal;
                         Flush;
                         Message env turnCompleteSignal;
                         Message env (inputFragment (lit "lo"));
                         Flush])
         = [{| speaker := USER; text := lit "lo" |}])
  /\ (currentInputTranscription
        (run initial [Message env (inputFragment (lit "Hel"));
                      Message env turnCompleteSignal])
      = lit "Hel"
      /\ transcript
           (run initial [Message env (inputFragment (lit "Hel"));
                         Message env turnCompleteSignal;
                         Message env (inputFragment (lit "lo"));
                         Flush])
         = [{| speaker := USER; text := lit "Hello" |}]).
Proof.
  split; [reflexivity|]. split; [reflexivity|]. split; [|repeat split].
  intros fs. rewrite run_app.
  destruct (run_inputFragments env fs initial) as [H1 [H2 H3]].
  simpl in H1, H2, H3. unfold run at 1. cbn [fold_left step].
  rewrite flush_pending by (unfold onmessage; cbn; discriminate).
  change (transcript (set_pendingTurns 0 ?x)) with (transcript x).
  rewrite finalizeTurn_transcript. unfold onmessage. cbn.
  rewrite H1, H2, H3. simpl.
  now destruct (forallb isWhiteSpace (concat fs)).
Qed.

End TurnComplete.

(** ** The transcript invariant *)

Section Transcript.

Import JS Types Platform.

Lemma keeps_refl (t : list TranscriptMessage) : keeps t t.
Proof. split; auto. Qed.

Lemma keeps_trans (t1 t2 t3 : list TranscriptMessage) :
  keeps t1 t2 -> keeps t2 t3 -> keeps t1 t3.
Proof.
  intros [L1 K1] [L2 K2]. split; [lia|].
  intros i Hi. rewrite K2 by lia. now apply K1.
Qed.

Lemma keeps_app (t l : list TranscriptMessage) : keeps t (t ++ l).
Proof.
  split; [rewrite length_app; lia|].
  intros i Hi. apply lookup_app_l. lia.
Qed.

Lemma keeps_setLast (m : TranscriptMessage) (t : list TranscriptMessage) :
  keeps t (PushToTalk.setLast m t).
Proof.
  unfold PushToTalk.setLast. split; [now rewrite length_insert|].
  intros i Hi. apply list_lookup_insert_ne. lia.
Qed.

Lemma keeps_finalizeUser (u : jsstring) (t : list TranscriptMessage) :
  keeps t (PushToTalk.finalizeUser u t).
Proof.
  unfold PushToTalk.finalizeUser.
  destruct (last t) as [[[|] ?]|]; auto using keeps_refl, keeps_setLast.
Qed.

Lemma cleanupLiveSession_transcript (s : PushToTalk.State) :
  PushToTalk.transcript (PushToTalk.cleanupLiveSession s) = PushToTalk.transcript s
  /\ PushToTalk.liveTranscription (PushToTalk.cleanupLiveSession s)
     = PushToTalk.liveTranscription s
  /\ PushToTalk.chat (PushToTalk.cleanupLiveSession s) = PushToTalk.chat s
  /\ PushToTalk.isAiTyping (PushToTalk.cleanupLiveSession s) = PushToTalk.isAiTyping s
  /\ PushToTalk.status (PushToTalk.cleanupLiveSession s) = PushToTalk.status s
  /\ PushToTalk.isGeneratingReport (PushToTalk.cleanupLiveSession s)
     = PushToTalk.isGeneratingReport s.
Proof.
  unfold PushToTalk.cleanupLiveSession.
  destruct (PushToTalk.cleanupPerformed s); [repeat split|].
  destruct (PushToTalk.audioStream s); cbn;
    destruct (PushToTalk.scriptProcessor s); cbn;
    destruct (PushToTalk.mediaStreamSource s); cbn;
    destruct (PushToTalk.audioContexts s); cbn;
    destruct (PushToTalk.sessionPromise s) as [[|]|]; repeat split.
Qed.

Lemma PushToTalk_step_keeps (s : PushToTalk.State) (e : PushToTalk.Event) :
  keeps (PushToTalk.transcript s) (PushToTalk.transcript (PushToTalk.step s e)).
Proof.
  destruct e as [mic connect| |inputData|message| | |chunkText| |report|]; simpl.
  - unfold PushToTalk.handleStartRecording.
    destruct (PushToTalk.isRecording s || PushToTalk.isAiTyping s);
      [apply keeps_refl|].
    destruct mic; [destruct connect|]; simpl; apply keeps_app.
  - apply keeps_refl.
  - unfold PushToTalk.onaudioprocess.
    destruct (pcmData inputData); [|apply keeps_refl].
    destruct (PushToTalk.sessionPromise s) as [[|]|]; apply keeps_refl.
  - unfold PushToTalk.onmessage.
    destruct (inputTranscription message); [apply keeps_setLast | apply keeps_refl].
  - apply keeps_refl.
  - unfold PushToTalk.handleStopRecording.
    destruct (PushToTalk.isRecording s); simpl; [|apply keeps_refl].
    match goal with
    | |- context [PushToTalk.cleanupLiveSession ?x] =>
        destruct (cleanupLiveSession_transcript x) as [Ht [Hl [Hc _]]];
        set (s1 := PushToTalk.cleanupLiveSession x) in *
    end.
    simpl in Ht. rewrite <- Ht.
    destruct (truthy (trim (PushToTalk.liveTranscription s1)) && PushToTalk.chat s1);
      simpl.
    + eapply keeps_trans; [apply keeps_finalizeUser | apply keeps_app].
    + apply keeps_finalizeUser.
  - apply keeps_setLast.
  - apply keeps_refl.
  - unfold PushToTalk.endInterview.
    match goal with
    | |- context [PushToTalk.cleanupLiveSession ?x] =>
        destruct (cleanupLiveSession_transcript x) as [Ht _];
        set (s1 := PushToTalk.cleanupLiveSession x) in *
    end.
    simpl in Ht. rewrite <- Ht. destruct report; simpl; apply keeps_refl.
  - unfold PushToTalk.unmount.
    destruct (cleanupLiveSession_transcript s) as [-> _]. apply keeps_refl.
Qed.

Lemma PushToTalk_run_keeps (evs : list PushToTalk.Event) (s : PushToTalk.State) :
  keeps (PushToTalk.transcript s) (PushToTalk.transcript (PushToTalk.run s evs)).
Proof.
  revert s. induction evs as [|e evs IH]; intros s; simpl; [apply keeps_refl|].
  eapply keeps_trans; [apply PushToTalk_step_keeps | apply IH].
Qed.

Lemma releasesOnly_refl (s : Continuous.State) : Continuous.releasesOnly s s.
Proof.
  constructor; try reflexivity. exists []. now rewrite app_nil_r.
Qed.

Lemma releasesOnly_trans (s1 s2 s3 : Continuous.State) :
  Continuous.releasesOnly s1 s2 -> Continuous.releasesOnly s2 s3 ->
  Continuous.releasesOnly s1 s3.
Proof.
  intros [[c1 [C1 R1]] ? ? ? ? ? ? ? ? ? ? ? ? ? ?]
         [[c2 [C2 R2]] ? ? ? ? ? ? ? ? ? ? ? ? ? ?].
  constructor; try congruence.
  exists (c1 ++ c2). split; [now rewrite C2, C1, app_assoc|].
  rewrite forallb_app, R1, R2. reflexivity.
Qed.

Ltac releases_only :=
  constructor; try reflexivity; cbn;
  rewrite <- ?app_assoc;
  first [ eexists; split; [reflexivity | cbn; rewrite ?forallb_app; reflexivity]
        | exists []; split; [now rewrite app_nil_r | reflexivity] ].

Lemma stopCapture_releasesOnly (s : Continuous.State) :
  Continuous.releasesOnly s (Continuous.stopCapture s).
Proof.
  unfold Continuous.stopCapture.
  destruct (Continuous.stream s); cbn;
    destruct (Continuous.scriptProcessor s); cbn;
    destruct (Continuous.source s); releases_only.
Qed.

Lemma closeInputContext_releasesOnly (s : Continuous.State) :
  Continuous.releasesOnly s (Continuous.closeInputContext s).
Proof.
  unfold Continuous.closeInputContext.
  destruct (Continuous.inputAudioContext s) as [[|]|]; releases_only.
Qed.

Lemma stops_release (l : list nat) :
  forallb isRelease (map PlaybackStop l) = true.
Proof. induction l; simpl; auto. Qed.

Lemma stopPlayback_releasesOnly (s : Continuous.State) :
  Continuous.releasesOnly s (Continuous.stopPlayback s).
Proof.
  unfold Continuous.stopPlayback.
  destruct (Continuous.outputAudioContext s) as [[|]|];
    try apply releasesOnly_refl.
  constructor; try reflexivity. cbn. rewrite <- app_assoc.
  eexists. split; [reflexivity|].
  rewrite forallb_app, stops_release. reflexivity.
Qed.

Lemma closeSession_releasesOnly (s : Continuous.State) :
  Continuous.releasesOnly s (Continuous.closeSession s).
Proof.
  unfold Continuous.closeSession.
  destruct (Continuous.sessionPromise s) as [[|]|]; releases_only.
Qed.

Lemma closeContexts_releasesOnly (s : Continuous.State) :
  Continuous.releasesOnly s (Continuous.closeContexts s).
Proof.
  unfold Continuous.closeContexts.
  destruct (Continuous.inputAudioContext s) as [[|]|]; cbn;
    destruct (Continuous.outputAudioContext s) as [[|]|]; releases_only.
Qed.

Lemma teardown_releasesOnly (s : Continuous.State) :
  Continuous.releasesOnly s
    (Continuous.closeSession
       (Continuous.stopPlayback
          (Continuous.closeInputContext (Continuous.stopCapture s)))).
Proof.
  eauto using releasesOnly_trans, stopCapture_releasesOnly,
    closeInputContext_releasesOnly, stopPlayback_releasesOnly,
    closeSession_releasesOnly.
Qed.

Lemma unmount_releasesOnly (s : Continuous.State) :
  Continuous.releasesOnly s (Continuous.unmount s).
Proof.
  unfold Continuous.unmount.
  eauto using releasesOnly_trans, stopCapture_releasesOnly,
    closeContexts_releasesOnly, closeSession_releasesOnly.
Qed.

Lemma endInterview_transcript (r : option FeedbackReport) (s : Continuous.State) :
  Continuous.transcript (Continuous.endInterview r s) = Continuous.transcript s.
Proof.
  unfold Continuous.endInterview.
  match goal with
  | |- context [Continuous.closeSession (Continuous.stopPlayback
                  (Continuous.closeInputContext (Continuous.stopCapture ?x)))] =>
      pose proof (Continuous.ro_transcript _ _ (teardown_releasesOnly x)) as H
  end.
  destruct r; cbn in *; exact H.
Qed.

Lemma unmount_transcript (s : Continuous.State) :
  Continuous.transcript (Continuous.unmount s) = Continuous.transcript s.
Proof. apply Continuous.ro_transcript, unmount_releasesOnly. Qed.

(** The continuous screen only ever appends to the transcript. *)
Lemma Continuous_step_appends (s : Continuous.State) (e : Continuous.Event) :
  exists l, Continuous.transcript (Continuous.step s e) = Continuous.transcript s ++ l.
Proof.
  destruct e as [mic connect| |inputData|env message| |id| | | |report|]; simpl;
    try (exists []; now rewrite app_nil_r).
  - exists []. rewrite app_nil_r. now destruct mic.
  - exists []. rewrite app_nil_r. unfold Continuous.onaudioprocess.
    destruct (pcmData inputData); [|reflexivity].
    destruct (Continuous.sessionPromise s) as [[|]|]; try reflexivity.
    now destruct (negb (Continuous.closureIsMuted s)).
  - unfold Continuous.onmessage.
    destruct (onmessage_audio_text env message (Continuous.onmessage_text message s))
      as [-> _].
    exists []. rewrite app_nil_r. unfold Continuous.onmessage_text.
    now destruct (outputTranscription message), (inputTranscription message),
      (turnComplete message).
  - unfold Continuous.flush.
    change (Continuous.transcript (Continuous.set_pendingTurns 0 ?x))
      with (Continuous.transcript x).
    generalize (Continuous.pendingTurns s). intros n.
    induction n as [|n [l IH]]; [exists []; now rewrite app_nil_r|].
    change (Nat.iter (S n) Continuous.finalizeTurn s)
      with (Continuous.finalizeTurn (Nat.iter n Continuous.finalizeTurn s)).
    rewrite finalizeTurn_transcript, IH, <- app_assoc. eauto.
  - exists []. rewrite app_nil_r. apply endInterview_transcript.
  - exists []. rewrite app_nil_r. apply unmount_transcript.
Qed.

Lemma Continuous_run_appends (evs : list Continuous.Event) (s : Continuous.State) :
  exists l, Continuous.transcript (Continuous.run s evs) = Continuous.transcript s ++ l.
Proof.
  revert s. induction evs as [|e evs IH]; intros s; simpl.
  - exists []. now rewrite app_nil_r.
  - destruct (IH (Continuous.step s e)) as [l2 H2].
    destruct (Continuous_step_appends s e) as [l1 H1].
    exists (l1 ++ l2). change (Continuous.run s (e :: evs))
      with (Continuous.run (Continuous.step s e) evs).
    now rewrite H2, H1, app_assoc.
Qed.

(** C1. Transcript invariant. Whatever events the continuous screen or
    the push-to-talk screen has received, starting from the empty
    transcript: in the continuous screen no entry of the transcript is
    in progress (entries are appended finalized); in the push-to-talk
    screen, before and after the opening message is requested, an entry
    that is in progress is the last element, so that at most one entry
    is in progress. *)
Theorem transcript_invariant :
  (forall (evs : list Continuous.Event) (i : nat),
      ~ Continuous.nonFinal (Continuous.run Continuous.initial evs) i)
  /\ (forall (s0 : PushToTalk.State) (evs : list PushToTalk.Event) (i j : nat),
        s0 = PushToTalk.initial \/ s0 = PushToTalk.mount PushToTalk.initial ->
        PushToTalk.nonFinal (PushToTalk.run s0 evs) i ->
        PushToTalk.nonFinal (PushToTalk.run s0 evs) j ->
        S i = length (PushToTalk.transcript (PushToTalk.run s0 evs)) /\ i = j).
Proof.
  split.
  - intros evs i [Hi [evs' Hne]]. apply Hne.
    destruct (Continuous_run_appends evs' (Continuous.run Continuous.initial evs))
      as [l ->].
    now apply lookup_app_l.
  - assert (forall s i, PushToTalk.nonFinal s i ->
                        S i = length (PushToTalk.transcript s)) as Hlast.
    { intros s i [Hi [evs' Hne]].
      destruct (Nat.eq_dec (S i) (length (PushToTalk.transcript s))) as [E | E];
        [exact E|].
      exfalso. apply Hne.
      destruct (PushToTalk_run_keeps evs' s) as [_ Hk]. apply Hk. lia. }
    intros s0 evs i j _ Hi Hj.
    pose proof (Hlast _ _ Hi). pose proof (Hlast _ _ Hj). split; lia.
Qed.

(** After the opening message and the start of a recording, the user's
    placeholder is in progress, and it is the last entry. *)
Lemma transcript_invariant_witness :
  PushToTalk.nonFinal (PushToTalk.run (PushToTalk.mount PushToTalk.initial)
                         [PushToTalk.Chunk (Some (lit "Hi")); PushToTalk.StreamDone;
                          PushToTalk.StartRecording true fulfilled]) 1
  /\ (2%nat
      = length (PushToTalk.transcript
                  (PushToTalk.run (PushToTalk.mount PushToTalk.initial)
                     [PushToTalk.Chunk (Some (lit "Hi")); PushToTalk.StreamDone;
                      PushToTalk.StartRecording true fulfilled]))
      /\ 1%nat = 1%nat).
Proof.
  assert (PushToTalk.nonFinal
            (PushToTalk.run (PushToTalk.mount PushToTalk.initial)
               [PushToTalk.Chunk (Some (lit "Hi")); PushToTalk.StreamDone;
                PushToTalk.StartRecording true fulfilled]) 1) as H.
  { split; [vm_compute; lia|].
    exists [PushToTalk.Message (inputFragment (lit "I"))].
    vm_compute. discriminate. }
  split; [exact H|].
  apply (proj2 transcript_invariant (PushToTalk.mount PushToTalk.initial)
           [PushToTalk.Chunk (Some (lit "Hi")); PushToTalk.StreamDone;
            PushToTalk.StartRecording true fulfilled] 1%nat 1%nat).
  - right. reflexivity.
  - exact H.
  - exact H.
Defined.

End Transcript.

(** ** Rounding of numbers *)

Section Rounding.

Import Number.
Local Open Scope Q_scope.

Lemma pow2_pos e : 0 < pow2 e.
Proof. apply Qpower_0_lt. reflexivity. Qed.

Lemma pow2_add a b : pow2 (a + b) == pow2 a * pow2 b.
Proof. apply Qpower_plus. discriminate. Qed.

Lemma pow2_le a b : (a <= b)%Z -> pow2 a <= pow2 b.
Proof. intros H. apply Qpower_le_compat_l; [exact H | discriminate]. Qed.

Lemma pow2_lt a b : (a < b)%Z -> pow2 a < pow2 b.
Proof. intros H. apply Qpower_lt_compat_l; [exact H | reflexivity]. Qed.

Lemma pow2_lt_inv a b : pow2 a < pow2 b -> (a < b)%Z.
Proof. intros H. apply (Qpower_lt_compat_l_inv 2); [exact H | reflexivity]. Qed.

Lemma pow2_Z e : (0 <= e)%Z -> pow2 e == inject_Z (2 ^ e).
Proof. intros H. unfold pow2. rewrite Zpower_Qpower by exact H. reflexivity. Qed.

Lemma pow2_succ e : pow2 (e + 1) == 2 * pow2 e.
Proof. rewrite pow2_add. change (pow2 1) with 2. ring. Qed.

(** The integer power of two below a positive integer, as a rational. *)
Lemma log2_bounds (n : Z) :
  (0 < n)%Z -> pow2 (Z.log2 n) <= inject_Z n /\ inject_Z n < pow2 (Z.log2 n + 1).
Proof.
  intros Hn. destruct (Z.log2_spec n Hn) as [Hlo Hhi].
  pose proof (Z.log2_nonneg n) as H0.
  rewrite !pow2_Z by lia. rewrite <- Zle_Qle, <- Zlt_Qlt.
  replace (Z.log2 n + 1)%Z with (Z.succ (Z.log2 n)) by lia. auto.
Qed.

Lemma Qabs_frac (x : Q) :
  Qabs x == inject_Z (Z.abs (Qnum x)) / inject_Z (Zpos (Qden x)).
Proof.
  destruct x as [n d]. unfold Qabs. cbn [Qnum Qden].
  rewrite (Qmake_Qdiv (Z.abs n) d). reflexivity.
Qed.

Lemma mag_spec (x : Q) :
  ~ x == 0 -> pow2 (mag x - 1) <= Qabs x /\ Qabs x < pow2 (mag x).
Proof.
  intros Hx. unfold mag.
  set (n := Z.abs (Qnum x)). set (d := Zpos (Qden x)).
  assert (Hn : (0 < n)%Z).
  { unfold n. destruct x as [[|p|p] q]; cbn; try lia. exfalso. apply Hx. reflexivity. }
  assert (Hd : (0 < d)%Z) by (unfold d; lia).
  destruct (log2_bounds n Hn) as [Hn1 Hn2]. destruct (log2_bounds d Hd) as [Hd1 Hd2].
  set (a := Z.log2 n) in *. set (b := Z.log2 d) in *.
  assert (Habs : Qabs x == inject_Z n / inject_Z d) by apply Qabs_frac.
  assert (Hdq : 0 < inject_Z d) by (unfold Qlt; cbn; lia).
  assert (Hlo : pow2 (a - b - 1) <= Qabs x).
  { rewrite Habs. apply Qle_shift_div_l; [exact Hdq|].
    apply Qle_trans with (pow2 (a - b - 1) * pow2 (b + 1)).
    - apply Qmult_le_l; [apply pow2_pos | apply Qlt_le_weak; exact Hd2].
    - rewrite <- pow2_add. replace (a - b - 1 + (b + 1))%Z with a by lia. exact Hn1. }
  assert (Hhi : Qabs x < pow2 (a - b + 1)).
  { rewrite Habs. apply Qlt_shift_div_r; [exact Hdq|].
    apply Qlt_le_trans with (pow2 (a - b + 1) * pow2 b).
    - rewrite <- pow2_add. replace (a - b + 1 + b)%Z with (a + 1)%Z by lia. exact Hn2.
    - apply Qmult_le_l; [apply pow2_pos | exact Hd1]. }
  destruct (Qle_bool (pow2 (a - b)) (Qabs x)) eqn:E.
  - apply Qle_bool_iff in E. replace (a - b + 1 - 1)%Z with (a - b)%Z by lia. split; assumption.
  - split; [exact Hlo|]. apply Qnot_le_lt. intros H. apply Qle_bool_iff in H. congruence.
Qed.

Lemma mag_unique (x : Q) (m : Z) :
  pow2 (m - 1) <= Qabs x -> Qabs x < pow2 m -> mag x = m.
Proof.
  intros Hlo Hhi.
  assert (Hx : ~ x == 0).
  { intros H. rewrite H in Hlo. change (Qabs 0) with 0 in Hlo.
    pose proof (pow2_pos (m - 1)). lra. }
  destruct (mag_spec x Hx) as [Hlo' Hhi'].
  assert (H1 : (m - 1 < mag x)%Z) by (apply pow2_lt_inv; lra).
  assert (H2 : (mag x - 1 < m)%Z) by (apply pow2_lt_inv; lra).
  lia.
Qed.

Lemma mag_le (x y : Q) : ~ x == 0 -> Qabs x <= Qabs y -> (mag x <= mag y)%Z.
Proof.
  intros Hx Hxy. destruct (mag_spec x Hx) as [Hlo _].
  assert (Hy : ~ y == 0).
  { intros H. rewrite H in Hxy. change (Qabs 0) with 0 in Hxy.
    pose proof (pow2_pos (mag x - 1)). lra. }
  destruct (mag_spec y Hy) as [_ Hhi].
  assert (H : (mag x - 1 < mag y)%Z) by (apply pow2_lt_inv; lra).
  lia.
Qed.

Lemma Qfloor_bounds (q : Q) : inject_Z (Qfloor q) <= q /\ q < inject_Z (Qfloor q) + 1.
Proof.
  split; [apply Qfloor_le|]. pose proof (Qlt_floor q) as H.
  rewrite inject_Z_plus in H. exact H.
Qed.

Lemma Qfloor_unique (q : Q) (f : Z) : inject_Z f <= q -> q < inject_Z f + 1 -> Qfloor q = f.
Proof.
  intros Hlo Hhi. destruct (Qfloor_bounds q) as [Hlo' Hhi'].
  assert (H1 : (f < Qfloor q + 1)%Z).
  { rewrite Zlt_Qlt, inject_Z_plus. change (inject_Z 1) with 1. lra. }
  assert (H2 : (Qfloor q < f + 1)%Z).
  { rewrite Zlt_Qlt, inject_Z_plus. change (inject_Z 1) with 1. lra. }
  lia.
Qed.

(** [roundHalfEven q] in terms of the fractional part of [q]. *)
Lemma roundHalfEven_cases (q : Q) :
  let f := Qfloor q in
  (q - inject_Z f < 1 # 2 /\ roundHalfEven q = f) \/
  (1 # 2 < q - inject_Z f /\ roundHalfEven q = (f + 1)%Z) \/
  (q - inject_Z f == 1 # 2 /\ roundHalfEven q = if Z.even f then f else (f + 1)%Z).
Proof.
  intros f. unfold roundHalfEven. fold f.
  destruct (q - inject_Z f ?= 1 # 2) eqn:E.
  - right. right. split; [apply Qeq_alt; exact E | reflexivity].
  - left. split; [apply Qlt_alt; exact E | reflexivity].
  - right. left. split; [apply Qgt_alt in E; exact E | reflexivity].
Qed.

Lemma roundHalfEven_mono (p q : Q) : p <= q -> (roundHalfEven p <= roundHalfEven q)%Z.
Proof.
  intros H. pose proof (Qfloor_resp_le _ _ H) as Hf.
  destruct (Qfloor_bounds p) as [Hp1 Hp2]. destruct (Qfloor_bounds q) as [Hq1 Hq2].
  destruct (roundHalfEven_cases p) as [[Hp ->]|[[Hp ->]|[Hp ->]]];
    destruct (roundHalfEven_cases q) as [[Hq ->]|[[Hq ->]|[Hq ->]]];
    destruct (Z.eq_dec (Qfloor p) (Qfloor q)) as [e|e];
    try (rewrite e in *; clear e);
    repeat match goal with |- context [Z.even ?f] => destruct (Z.even f) end;
    try lia; exfalso; lra.
Qed.

Lemma roundHalfEven_eq (p q : Q) : p == q -> roundHalfEven p = roundHalfEven q.
Proof.
  intros H. apply Z.le_antisymm; apply roundHalfEven_mono; rewrite H; apply Qle_refl.
Qed.

Lemma roundHalfEven_Z (k : Z) : roundHalfEven (inject_Z k) = k.
Proof.
  destruct (roundHalfEven_cases (inject_Z k)) as [[_ H]|[[H _]|[H _]]];
    rewrite Qfloor_Z in *; [exact H | exfalso; lra | exfalso; lra].
Qed.

Lemma roundHalfEven_opp (q : Q) : roundHalfEven (- q) = (- roundHalfEven q)%Z.
Proof.
  destruct (Qfloor_bounds q) as [H1 H2].
  destruct (Qeq_dec q (inject_Z (Qfloor q))) as [e|e].
  - rewrite (roundHalfEven_eq q _ e), (roundHalfEven_eq (- q) (inject_Z (- Qfloor q))), !roundHalfEven_Z; [reflexivity|].
    rewrite inject_Z_opp, <- e. reflexivity.
  - assert (Hf : Qfloor (- q) = (- Qfloor q - 1)%Z).
    { apply Qfloor_unique; unfold Z.sub; rewrite inject_Z_plus, inject_Z_opp;
        change (inject_Z (- (1))) with (- (1)); [|lra].
      destruct (Qlt_le_dec (inject_Z (Qfloor q)) q); [lra|]. exfalso. apply e. lra. }
    destruct (roundHalfEven_cases q) as [[Hq ->]|[[Hq ->]|[Hq ->]]];
      destruct (roundHalfEven_cases (- q)) as [[Hn ->]|[[Hn ->]|[Hn ->]]];
      rewrite Hf in *; unfold Z.sub in Hn; rewrite inject_Z_plus, inject_Z_opp in Hn;
      change (inject_Z (- (1))) with (- (1)) in Hn; try lia; try (exfalso; lra).
    replace (- Qfloor q - 1)%Z with (- (Qfloor q + 1))%Z by lia.
    rewrite Z.even_opp, Z.even_add. cbn. destruct (Z.even (Qfloor q)); cbn; lia.
Qed.

Lemma round_0 : round 0 == 0.
Proof. vm_compute. reflexivity. Qed.

Lemma ulp_pos (x : Q) : 0 < ulp x.
Proof. apply pow2_pos. Qed.

(** A multiple of the unit in the last place below or above [x] bounds
    [round x]. *)
Lemma round_grid_le (x : Q) (g : Z) :
  inject_Z g * ulp x <= x -> inject_Z g * ulp x <= round x.
Proof.
  intros H. pose proof (ulp_pos x) as Hu. unfold round.
  apply Qmult_le_compat_r; [|lra]. rewrite <- Zle_Qle.
  apply Z.le_trans with (roundHalfEven (inject_Z g)); [rewrite roundHalfEven_Z; lia|].
  apply roundHalfEven_mono. apply Qle_shift_div_l; assumption.
Qed.

Lemma round_grid_ge (x : Q) (g : Z) :
  x <= inject_Z g * ulp x -> round x <= inject_Z g * ulp x.
Proof.
  intros H. pose proof (ulp_pos x) as Hu. unfold round.
  apply Qmult_le_compat_r; [|lra]. rewrite <- Zle_Qle.
  apply Z.le_trans with (roundHalfEven (inject_Z g)); [|rewrite roundHalfEven_Z; lia].
  apply roundHalfEven_mono. apply Qle_shift_div_r; assumption.
Qed.

Lemma pow2_ulp (x : Q) (k : Z) :
  (0 <= k)%Z -> pow2 (mag x - 53 + k) == inject_Z (2 ^ k) * ulp x.
Proof. intros H. rewrite pow2_add, (pow2_Z k) by exact H. unfold ulp. ring. Qed.

Lemma round_bounds (x : Q) :
  0 < x -> pow2 (mag x - 1) <= round x /\ round x <= pow2 (mag x).
Proof.
  intros Hx. destruct (mag_spec x) as [Hlo Hhi]; [lra|].
  rewrite Qabs_pos in Hlo, Hhi by lra.
  assert (E1 : pow2 (mag x - 1) == inject_Z (2 ^ 52) * ulp x).
  { rewrite <- pow2_ulp by lia. replace (mag x - 53 + 52)%Z with (mag x - 1)%Z by lia. reflexivity. }
  assert (E2 : pow2 (mag x) == inject_Z (2 ^ 53) * ulp x).
  { rewrite <- pow2_ulp by lia. replace (mag x - 53 + 53)%Z with (mag x) by lia. reflexivity. }
  rewrite E1, E2 in *. split.
  - apply round_grid_le. exact Hlo.
  - apply round_grid_ge. lra.
Qed.

Lemma round_pos (x : Q) : 0 < x -> 0 < round x.
Proof.
  intros Hx. destruct (round_bounds x Hx) as [H _]. pose proof (pow2_pos (mag x - 1)). lra.
Qed.

Lemma round_mono_pos (x y : Q) : 0 < x -> x <= y -> round x <= round y.
Proof.
  intros Hx Hxy.
  assert (Hm : (mag x <= mag y)%Z).
  { apply mag_le; [lra|]. rewrite !Qabs_pos by lra. exact Hxy. }
  destruct (Z.eq_dec (mag x) (mag y)) as [e|e].
  - unfold round, ulp. rewrite e. pose proof (pow2_pos (mag y - 53)) as Hu.
    apply Qmult_le_compat_r; [|lra]. rewrite <- Zle_Qle. apply roundHalfEven_mono.
    apply Qle_shift_div_l; [exact Hu|].
    apply Qle_trans with x; [|exact Hxy].
    apply Qle_lteq. right. field. lra.
  - destruct (round_bounds x Hx) as [_ H1]. destruct (round_bounds y) as [H2 _]; [lra|].
    pose proof (pow2_le (mag x) (mag y - 1) ltac:(lia)). lra.
Qed.

Lemma round_opp (x : Q) : round (- x) == - round x.
Proof.
  assert (Hm : mag (- x) = mag x).
  { unfold mag. rewrite Qabs_opp. destruct x as [n d]. cbn [Qnum Qden Qopp].
    rewrite Z.abs_opp. reflexivity. }
  unfold round, ulp. rewrite Hm.
  rewrite (roundHalfEven_eq (- x / pow2 (mag x - 53)) (- (x / pow2 (mag x - 53)))).
  - rewrite roundHalfEven_opp, inject_Z_opp. ring.
  - pose proof (pow2_pos (mag x - 53)). field. lra.
Qed.

Lemma round_zero (x : Q) : x == 0 -> round x == 0.
Proof.
  intros H. unfold round. rewrite (roundHalfEven_eq (x / ulp x) 0).
  - change (roundHalfEven 0) with 0%Z. ring.
  - unfold Qdiv. transitivity (0 * / ulp x); [|ring].
    apply Qmult_comp; [exact H | reflexivity].
Qed.

Lemma round_neg (x : Q) : x <= 0 -> round x <= 0.
Proof.
  intros H. destruct (Qeq_dec x 0) as [e|e]; [rewrite (round_zero x e); lra|].
  assert (Hx : 0 < - x) by lra. pose proof (round_pos _ Hx) as Hp.
  rewrite round_opp in Hp. lra.
Qed.

(** Rounding is monotone. *)
Lemma round_mono (x y : Q) : x <= y -> round x <= round y.
Proof.
  intros H.
  destruct (Qlt_le_dec 0 x) as [Hx|Hx]; [apply round_mono_pos; assumption|].
  destruct (Qlt_le_dec 0 y) as [Hy|Hy].
  - apply Qle_trans with 0; [apply round_neg; exact Hx | apply Qlt_le_weak, round_pos; exact Hy].
  - destruct (Qeq_dec y 0) as [e|e].
    + rewrite (round_zero y e). apply round_neg. exact Hx.
    + assert (H1 : 0 < - y) by lra. assert (H2 : - y <= - x) by lra.
      pose proof (round_mono_pos _ _ H1 H2) as Hm. rewrite !round_opp in Hm. lra.
Qed.

Lemma round_eq (x y : Q) : x == y -> round x == round y.
Proof. intros H. apply Qle_antisym; apply round_mono; rewrite H; apply Qle_refl. Qed.

Lemma round_fixed_pos (x : Q) : 0 < x -> round (round x) == round x.
Proof.
  intros Hx. destruct (round_bounds x Hx) as [Hlo Hhi]. pose proof (round_pos x Hx) as Hz.
  set (m := mag x) in *.
  destruct (Qlt_le_dec (round x) (pow2 m)) as [Hlt|Hge].
  - assert (Hm : mag (round x) = m) by (apply mag_unique; rewrite Qabs_pos; lra).
    unfold round at 1. unfold ulp. rewrite Hm. fold m.
    rewrite (roundHalfEven_eq _ (inject_Z (roundHalfEven (x / ulp x)))),
      roundHalfEven_Z; [reflexivity|].
    unfold round, ulp. fold m. pose proof (pow2_pos (m - 53)). field. lra.
  - assert (E : round x == pow2 m) by lra.
    assert (Hm : mag (round x) = (m + 1)%Z).
    { apply mag_unique; rewrite Qabs_pos by lra.
      - replace (m + 1 - 1)%Z with m by lia. lra.
      - pose proof (pow2_lt m (m + 1) ltac:(lia)). lra. }
    assert (E2 : pow2 m == inject_Z (2 ^ 52) * pow2 (m + 1 - 53)).
    { rewrite <- pow2_Z, <- pow2_add by lia. replace (52 + (m + 1 - 53))%Z with m by lia. reflexivity. }
    unfold round at 1. unfold ulp. rewrite Hm.
    rewrite (roundHalfEven_eq _ (inject_Z (2 ^ 52))), roundHalfEven_Z;
      [rewrite E, E2; reflexivity|].
    rewrite E, E2. pose proof (pow2_pos (m + 1 - 53)). field. lra.
Qed.

(** A rounded value is rounded to itself. *)
Lemma round_fixed (x : Q) : round (round x) == round x.
Proof.
  destruct (Qlt_le_dec 0 x) as [Hx|Hx]; [apply round_fixed_pos; exact Hx|].
  destruct (Qeq_dec x 0) as [e|e].
  - rewrite (round_zero (round x)); [symmetry|]; apply round_zero; exact e.
  - assert (H1 : 0 < - x) by lra. pose proof (round_fixed_pos _ H1) as H.
    rewrite (round_eq (round (- x)) (- round x)) in H by apply round_opp.
    rewrite !round_opp in H. lra.
Qed.
(** A rounded value is a number. *)
Lemma round_representable (x : Q) : representable (round x).
Proof. apply round_fixed. Qed.

Lemma representable_0 : representable 0.
Proof. apply round_0. Qed.

(** Adding a quantity that is not negative to a number does not give a
    smaller number. *)
Lemma round_add_ge (a d : Q) : representable a -> 0 <= d -> a <= round (a + d).
Proof.
  intros Ha Hd. unfold representable in Ha. rewrite <- Ha at 1.
  apply round_mono. lra.
Qed.

Lemma round_nonneg (x : Q) : 0 <= x -> 0 <= round x.
Proof. intros H. rewrite <- round_0. apply round_mono. exact H. Qed.

Lemma roundHalfEven_error (q : Q) : q - (1 # 2) <= inject_Z (roundHalfEven q).
Proof.
  destruct (Qfloor_bounds q) as [H1 H2].
  destruct (roundHalfEven_cases q) as [[H ->]|[[H ->]|[H ->]]];
    [|rewrite inject_Z_plus|destruct (Z.even (Qfloor q)); [|rewrite inject_Z_plus]];
    change (inject_Z 1) with 1; lra.
Qed.

(** Rounding falls short of the exact value by half a unit in the last
    place at most. *)
Lemma round_error (x : Q) : x - ulp x / 2 <= round x.
Proof.
  pose proof (ulp_pos x) as Hu. pose proof (roundHalfEven_error (x / ulp x)) as H.
  unfold round.
  apply Qle_trans with ((x / ulp x - (1 # 2)) * ulp x).
  - apply Qle_lteq. right. field. lra.
  - apply Qmult_le_compat_r; lra.
Qed.

Lemma roundHalfEven_error_up (q : Q) : inject_Z (roundHalfEven q) <= q + (1 # 2).
Proof.
  destruct (Qfloor_bounds q) as [H1 H2].
  destruct (roundHalfEven_cases q) as [[H ->]|[[H ->]|[H ->]]];
    [|rewrite inject_Z_plus|destruct (Z.even (Qfloor q)); [|rewrite inject_Z_plus]];
    change (inject_Z 1) with 1; lra.
Qed.

Lemma round_error_up (x : Q) : round x <= x + ulp x / 2.
Proof.
  pose proof (ulp_pos x) as Hu. pose proof (roundHalfEven_error_up (x / ulp x)) as H.
  unfold round.
  apply Qle_trans with ((x / ulp x + (1 # 2)) * ulp x).
  - apply Qmult_le_compat_r; lra.
  - apply Qle_lteq. right. field. lra.
Qed.

(** A unit in the last place of a positive [x] is at most [x / 2^52]. *)
Lemma ulp_bound (x : Q) : 0 < x -> ulp x * inject_Z (2 ^ 52) <= x.
Proof.
  intros Hx. destruct (mag_spec x) as [Hlo _]; [lra|].
  rewrite Qabs_pos in Hlo by lra.
  assert (E : pow2 (mag x - 1) == ulp x * inject_Z (2 ^ 52)).
  { unfold ulp. rewrite <- (pow2_Z 52%Z), <- pow2_add by lia.
    replace (mag x - 53 + 52)%Z with (mag x - 1)%Z by lia. reflexivity. }
  lra.
Qed.

Lemma Qceiling_unique (q : Q) (c : Z) :
  inject_Z c - 1 < q -> q <= inject_Z c -> Qceiling q = c.
Proof.
  intros Hlo Hhi. unfold Qceiling.
  rewrite (Qfloor_unique (- q) (- c)); [lia| |]; rewrite inject_Z_opp; lra.
Qed.

(** An integer below 2^53 is a number. *)
Lemma round_Z (k : Z) : (0 <= k < 2 ^ 53)%Z -> round (inject_Z k) == inject_Z k.
Proof.
  intros Hk. destruct (Z.eq_dec k 0%Z) as [-> | Hk0]; [exact round_0|].
  assert (Hpos : 0 < inject_Z k) by (unfold Qlt; cbn; lia).
  destruct (mag_spec (inject_Z k)) as [Hlo _]; [lra|].
  rewrite Qabs_pos in Hlo by lra.
  assert (Hm : (mag (inject_Z k) <= 53)%Z).
  { assert (pow2 (mag (inject_Z k) - 1) < pow2 53%Z).
    { apply Qle_lt_trans with (inject_Z k); [exact Hlo|].
      rewrite (pow2_Z 53%Z) by lia. rewrite <- Zlt_Qlt. lia. }
    apply pow2_lt_inv in H. lia. }
  set (m := mag (inject_Z k)) in *.
  assert (E : inject_Z k == inject_Z (k * 2 ^ (53 - m)) * ulp (inject_Z k)).
  { unfold ulp. fold m. rewrite inject_Z_mult, <- (pow2_Z (53 - m)) by lia.
    rewrite <- Qmult_assoc, <- pow2_add.
    replace (53 - m + (m - 53))%Z with 0%Z by lia. change (pow2 0%Z) with 1. ring. }
  apply Qle_antisym.
  - rewrite E at 2. apply round_grid_ge. rewrite <- E. apply Qle_refl.
  - rewrite E at 1. apply round_grid_le. rewrite <- E. apply Qle_refl.
Qed.

(** The quotient of a sample count below 2^53 by a channel count, made
    a number, has the integer part and the ceiling of the exact
    quotient. *)
Lemma round_quotient (a n : Z) :
  (0 <= a < 2 ^ 53)%Z -> (1 <= n)%Z ->
  Qfloor (round (inject_Z a / inject_Z n)) = Qfloor (inject_Z a / inject_Z n)
  /\ Qceiling (round (inject_Z a / inject_Z n))
     = Qceiling (inject_Z a / inject_Z n).
Proof.
  intros Ha Hn.
  assert (Hnq : 1 <= inject_Z n) by (unfold Qle; cbn; lia).
  assert (Haq : 0 <= inject_Z a) by (unfold Qle; cbn; lia).
  assert (Haq' : inject_Z a < 9007199254740992) by (unfold Qlt; cbn; lia).
  assert (Eq : inject_Z a / inject_Z n * inject_Z n == inject_Z a) by (field; lra).
  assert (Hq0 : 0 <= inject_Z a / inject_Z n) by (apply Qle_shift_div_l; lra).
  generalize dependent (inject_Z a / inject_Z n). intros q Eq Hq0.
  destruct (Qfloor_bounds q) as [Hf1 Hf2].
  assert (Hf0 : (0 <= Qfloor q)%Z).
  { rewrite <- (Qfloor_Z 0%Z). apply Qfloor_resp_le. exact Hq0. }
  generalize dependent (Qfloor q). intros f Hf1 Hf2 Hf0.
  assert (Hfa : (f <= a)%Z).
  { rewrite Zle_Qle. apply Qle_trans with q; [exact Hf1|].
    assert (0 <= q * (inject_Z n - 1)) by (apply Qmult_le_0_compat; lra).
    lra. }
  destruct (Qeq_dec q (inject_Z f)) as [Hint | Hfrac].
  - (* the quotient is an integer *)
    assert (Hr : round q == inject_Z f).
    { rewrite (round_eq q (inject_Z f) Hint). apply round_Z. lia. }
    split.
    + apply Qfloor_unique; lra.
    + rewrite (Qceiling_unique q f), (Qceiling_unique (round q) f);
        [reflexivity | lra..].
  - assert (Hf3 : inject_Z f < q).
    { destruct (Qlt_le_dec (inject_Z f) q); [assumption|]. exfalso. apply Hfrac. lra. }
    assert (Hqpos : 0 < q).
    { apply Qle_lt_trans with (inject_Z f); [|exact Hf3]. unfold Qle; cbn; lia. }
    (* distances to the neighbouring integers, times [n] *)
    assert (D1 : 1 <= (q - inject_Z f) * inject_Z n).
    { assert (E1 : (q - inject_Z f) * inject_Z n == inject_Z (a - f * n)).
      { unfold Z.sub. rewrite inject_Z_plus, inject_Z_opp, inject_Z_mult, <- Eq. ring. }
      rewrite E1. change 1 with (inject_Z 1). rewrite <- Zle_Qle.
      assert (0 < inject_Z (a - f * n)).
      { rewrite <- E1. apply Qmult_lt_0_compat; lra. }
      rewrite <- (Zlt_Qlt 0%Z) in H. lia. }
    assert (D2 : 1 <= (inject_Z f + 1 - q) * inject_Z n).
    { assert (E2 : (inject_Z f + 1 - q) * inject_Z n == inject_Z ((f + 1) * n - a)).
      { unfold Z.sub. rewrite inject_Z_plus, inject_Z_opp, inject_Z_mult,
          inject_Z_plus, <- Eq. change (inject_Z 1) with 1. ring. }
      rewrite E2. change 1 with (inject_Z 1). rewrite <- Zle_Qle.
      assert (0 < inject_Z ((f + 1) * n - a)).
      { rewrite <- E2. apply Qmult_lt_0_compat; lra. }
      rewrite <- (Zlt_Qlt 0%Z) in H. lia. }
    (* half a unit in the last place, times [n], is below 1 *)
    assert (U : ulp q * inject_Z n < 2).
    { pose proof (ulp_bound q Hqpos) as Hu.
      assert (ulp q * inject_Z (2 ^ 52) * inject_Z n <= inject_Z a).
      { rewrite <- Eq. apply Qmult_le_compat_r; lra. }
      change (inject_Z (2 ^ 52)) with (4503599627370496 # 1) in *.
      set (un := ulp q * inject_Z n) in *.
      assert (ulp q * (4503599627370496 # 1) * inject_Z n
              == un * (4503599627370496 # 1)) as E3 by (unfold un; ring).
      rewrite E3 in H. lra. }
    pose proof (round_error q) as R1. pose proof (round_error_up q) as R2.
    assert (R1n : (q - ulp q / 2) * inject_Z n <= round q * inject_Z n)
      by (apply Qmult_le_compat_r; lra).
    assert (R2n : round q * inject_Z n <= (q + ulp q / 2) * inject_Z n)
      by (apply Qmult_le_compat_r; lra).
    assert (L : inject_Z f < round q).
    { apply (Qmult_lt_r _ _ (inject_Z n)); [lra|].
      set (un := ulp q * inject_Z n) in *.
      assert ((q - ulp q / 2) * inject_Z n == q * inject_Z n - un * (1 # 2)) as E4
        by (unfold un; field).
      assert ((q - inject_Z f) * inject_Z n
              == q * inject_Z n - inject_Z f * inject_Z n) as E5 by ring.
      rewrite E4 in R1n. rewrite E5 in D1. clearbody un.
      generalize dependent (q * inject_Z n).
      generalize dependent (inject_Z f * inject_Z n).
      generalize dependent (round q * inject_Z n). intros. lra. }
    assert (H : round q < inject_Z f + 1).
    { apply (Qmult_lt_r _ _ (inject_Z n)); [lra|].
      set (un := ulp q * inject_Z n) in *.
      assert ((q + ulp q / 2) * inject_Z n == q * inject_Z n + un * (1 # 2)) as E4
        by (unfold un; field).
      assert ((inject_Z f + 1 - q) * inject_Z n
              == (inject_Z f + 1) * inject_Z n - q * inject_Z n) as E5 by ring.
      rewrite E4 in R2n. rewrite E5 in D2. clearbody un.
      generalize dependent (q * inject_Z n).
      generalize dependent ((inject_Z f + 1) * inject_Z n).
      generalize dependent (round q * inject_Z n). intros. lra. }
    split.
    + apply Qfloor_unique; lra.
    + rewrite (Qceiling_unique q (f + 1)), (Qceiling_unique (round q) (f + 1));
        [reflexivity | rewrite inject_Z_plus; change (inject_Z 1) with 1; lra..].
Qed.

End Rounding.

(** ** Playback scheduling in the continuous screen *)

Section Playback.

Import JS Types AudioUtils Platform Continuous.

Lemma decodeAudioData_rate (data : Uint8Array) (ctx : AudioContext)
    (rate n : Z) (b : AudioBuffer) :
  wellBehaved ctx ->
  decodeAudioData data ctx rate n = Some b -> sampleRate b = rate.
Proof.
  intros Hctx H.
  destruct (Int16Array_of_buffer (buffer data)) as [d|] eqn:Hv;
    [|unfold decodeAudioData in H; rewrite Hv in H; discriminate].
  destruct (Z.leb_spec n 0) as [Hn | Hn].
  { unfold decodeAudioData in H. rewrite Hv in H.
    destruct (Z.leb_spec n 0); [discriminate | lia]. }
  destruct (createBuffer ctx n (inject_Z (Z.of_nat (length d)) / inject_Z n) rate)
    as [b0|] eqn:Hb0.
  - destruct (decodeAudioData_spec data ctx rate n d b0 ltac:(lia) Hv Hb0
                (Hctx _ _ _ _ Hb0)) as [b' [Hb' [Hr _]]].
    congruence.
  - unfold decodeAudioData in H. rewrite Hv in H.
    destruct (Z.leb_spec n 0); [lia|]. rewrite Hb0 in H. discriminate.
Qed.

Lemma duration_nonneg (b : AudioBuffer) :
  sampleRate b = 24000 -> (0 <= duration b)%Q.
Proof.
  intros H. unfold duration. rewrite H. apply round_nonneg.
  unfold Qle, Qdiv, Qmult, Qinv, inject_Z. simpl. lia.
Qed.

Lemma Qmax_left (x y : Q) : (y <= x)%Q -> Qmax x y = x.
Proof.
  intros H. unfold Qmax, GenericMinMax.gmax.
  destruct (Qcompare_spec x y) as [E | L | G]; try reflexivity.
  exfalso. apply (Qlt_not_le _ _ L H).
Qed.

Lemma Qmax_representable (x y : Q) :
  Number.representable x -> Number.representable y ->
  Number.representable (Qmax x y).
Proof.
  intros Hx Hy. unfold Qmax, GenericMinMax.gmax.
  now destruct (Qcompare x y).
Qed.

Lemma scheduled_app (l1 l2 : list Call) :
  scheduled (l1 ++ l2) = scheduled l1 ++ scheduled l2.
Proof. apply flat_map_app. Qed.

Lemma scheduled_releases (cs : list Call) :
  forallb isRelease cs = true -> scheduled cs = [].
Proof.
  induction cs as [|c cs IH]; simpl; [reflexivity|].
  intros H. apply andb_prop in H. destruct H as [Hc Hcs].
  destruct c; try discriminate; auto.
Qed.

Lemma onmessage_text_schedule (m : LiveServerMessage) (s : State) :
  calls (onmessage_text m s) = calls s
  /\ nextStartTime (onmessage_text m s) = nextStartTime s
  /\ outputAudioContext (onmessage_text m s) = outputAudioContext s
  /\ nextSourceId (onmessage_text m s) = nextSourceId s.
Proof. destruct (onmessage_text_textOnly m s). auto. Qed.

(** The audio part of [onmessage] when the payload decodes to [b]. *)
Lemma onmessage_audio_clip (env : Env) (m : LiveServerMessage) (s : State)
    (a : jsstring) (bytes : list byte) (b : AudioBuffer) :
  inlineData m = Some a -> truthy a = true ->
  outputAudioContext s <> None ->
  decode a = Some bytes ->
  decodeAudioData (newUint8Array bytes) (outputContext env) 24000 1 = Some b ->
  calls (onmessage_audio env m s)
  = calls s ++ [PlaybackStart (nextSourceId s)
                  (Qmax (nextStartTime s) (currentTime env)) (duration b)]
  /\ nextStartTime (onmessage_audio env m s)
     = Number.round (Qmax (nextStartTime s) (currentTime env) + duration b)%Q
  /\ outputAudioContext (onmessage_audio env m s) = outputAudioContext s
  /\ nextSourceId (onmessage_audio env m s) = S (nextSourceId s).
Proof.
  intros Hm Ha Hctx Hd Hb. unfold onmessage_audio. rewrite Hm, Ha.
  destruct (outputAudioContext s) eqn:E; [|congruence].
  cbn -[Number.round]. rewrite Hd, Hb. cbn -[Number.round]. rewrite E.
  repeat split.
Qed.

Lemma onmessage_audio_advances (env : Env) (m : LiveServerMessage) (s : State) :
  wellBehaved (outputContext env) ->
  advances s (onmessage_audio env m s) (Some (currentTime env)).
Proof.
  intros Hctx. unfold onmessage_audio.
  destruct (inlineData m) as [a|]; [|left; auto].
  destruct (truthy a); [|left; auto].
  destruct (outputAudioContext s); [|left; auto]. cbn -[Number.round].
  destruct (decode a) as [bytes|]; [|left; split; [reflexivity|right; eauto]].
  destruct (decodeAudioData (newUint8Array bytes) (outputContext env) 24000 1)
    as [b|] eqn:Hb;
    [|left; split; [reflexivity|right; eauto]].
  right. exists (currentTime env), (duration b). cbn -[Number.round].
  split; [reflexivity|]. split.
  - apply duration_nonneg. eapply decodeAudioData_rate; eauto.
  - split; [|reflexivity]. now rewrite scheduled_app.
Qed.

Lemma step_advances (s : State) (e : Event) :
  okEvent e ->
  advances s (step s e)
    (match e with Message env _ => Some (currentTime env) | _ => None end).
Proof.
  intros Hok.
  destruct e as [mic connect| |inputData|env message| |id| | | |report|]; simpl;
    try (left; split; [reflexivity | left; reflexivity]).
  - left. destruct mic; split; auto.
  - left. unfold onaudioprocess.
    destruct (pcmData inputData); [|auto].
    destruct (sessionPromise s) as [[|]|]; auto.
    destruct (negb (closureIsMuted s)); auto.
    split; [|auto]. cbn. rewrite scheduled_app. cbn. apply app_nil_r.
  - unfold onmessage.
    destruct (onmessage_text_schedule message s) as [Hc [Ht _]].
    pose proof (onmessage_audio_advances env message (onmessage_text message s)
                  (proj1 Hok)) as H.
    unfold advances in *. now rewrite Hc, Ht in H.
  - left. destruct (flush_textOnly s) as [Hc _ _ _ _ _ _ _ _ _ _ Ht _ _].
    rewrite Hc, Ht. auto.
  - left. unfold endInterview.
    match goal with
    | |- context [closeSession (stopPlayback
                    (closeInputContext (stopCapture ?x)))] =>
        destruct (teardown_releasesOnly x) as [[cs [Hc Hr]] _ _ _ _ _ _ _ _ _ _ _ _ Ht _ _]
    end.
    destruct report; cbn in *; rewrite ?scheduled_app, Hc, ?scheduled_app,
      (scheduled_releases cs Hr); cbn; rewrite ?app_nil_r; auto.
  - left. destruct (unmount_releasesOnly s)
      as [[cs [Hc Hr]] _ _ _ _ _ _ _ _ _ _ _ _ Ht _ _].
    rewrite Hc, scheduled_app, (scheduled_releases cs Hr), app_nil_r. auto.
Qed.

Lemma sequenced_snoc (l : list (Q * Q)) (x : Q * Q) :
  sequenced l ->
  Forall (fun a => (clipEnd a <= fst x)%Q) l ->
  sequenced (l ++ [x]).
Proof.
  unfold sequenced. induction 1 as [|a l Ha Hl IH]; intros Hx; simpl.
  - constructor; constructor.
  - inversion_clear Hx as [|? ? Hax Hlx]. constructor; [|auto].
    apply Forall_app. split; [exact Ha | constructor; [exact Hax | constructor]].
Qed.

Lemma sequenced_overlap (l : list (Q * Q)) :
  sequenced l -> overlapWithinRounding l.
Proof.
  unfold sequenced, overlapWithinRounding.
  induction 1 as [|a l Ha Hl IH]; constructor; [|exact IH].
  eapply Forall_impl; [exact Ha|]. intros b Hb. cbn in Hb.
  pose proof (round_error (fst a + snd a)) as He. unfold clipEnd in Hb. lra.
Qed.

Lemma advances_tidy (s s' : State) (now : option Q) :
  (forall t, now = Some t -> Number.representable t) ->
  advances s s' now -> tidy s ->
  tidy s' /\ (nextStartTime s <= nextStartTime s')%Q.
Proof.
  intros Hnow Hadv [Hno [Hend Hrep]].
  assert (forall t, nextStartTime s <= Qmax (nextStartTime s) t)%Q as Hmax
    by (intros; apply Q.le_max_l).
  destruct Hadv as [[Hs Hc] | [t [d [Ht [Hd [Hs Hc]]]]]].
  - assert (nextStartTime s <= nextStartTime s')%Q as Hle.
    { destruct Hc as [-> | [t [_ ->]]]; [apply Qle_refl | apply Hmax]. }
    split; [|exact Hle]. unfold tidy. rewrite Hs. split; [exact Hno|]. split.
    + eapply Forall_impl; [exact Hend|]. intros a Ha. cbn in *.
      eapply Qle_trans; eauto.
    + destruct Hc as [-> | [t [Ht ->]]]; [exact Hrep|].
      apply Qmax_representable; auto.
  - assert (Number.representable (Qmax (nextStartTime s) t)) as Hrm
      by (apply Qmax_representable; auto).
    pose proof (round_add_ge _ d Hrm Hd) as Hge.
    assert (nextStartTime s <= nextStartTime s')%Q as Hle.
    { rewrite Hc. specialize (Hmax t). lra. }
    split; [|exact Hle]. unfold tidy. rewrite Hs. split; [|split].
    + apply sequenced_snoc; [exact Hno|].
      eapply Forall_impl; [exact Hend|]. intros a Ha. cbn in *.
      specialize (Hmax t). lra.
    + apply Forall_app. split.
      * eapply Forall_impl; [exact Hend|]. intros a Ha. cbn in *. lra.
      * constructor; [|constructor]. rewrite Hc. unfold clipEnd. cbn.
        apply Qle_refl.
    + rewrite Hc. apply round_representable.
Qed.

Lemma okEvent_clock (e : Event) (t : Q) :
  okEvent e ->
  match e with Message env _ => Some (currentTime env) | _ => None end = Some t ->
  Number.representable t.
Proof. destruct e; try discriminate. intros [_ H] [= <-]. exact H. Qed.

Lemma run_tidy (evs : list Event) (s : State) :
  Forall okEvent evs -> tidy s ->
  tidy (run s evs) /\ (nextStartTime s <= nextStartTime (run s evs))%Q.
Proof.
  revert s. induction evs as [|e evs IH]; intros s Hok Hs; simpl.
  - split; [exact Hs | apply Qle_refl].
  - inversion_clear Hok as [|? ? He Hevs].
    destruct (advances_tidy _ _ _ (fun t => okEvent_clock e t He)
                (step_advances s e He) Hs) as [H1 H2].
    destruct (IH (step s e) Hevs H1) as [H3 H4].
    split; [exact H3 | eapply Qle_trans; eauto].
Qed.

Lemma tidy_initial : tidy initial.
Proof.
  split; [constructor|]. split; [constructor|]. exact representable_0.
Qed.

(** C6, as amended. Playback scheduling. The cursor and the clock are
    numbers, and the end of a clip is computed as a number: the rounded
    sum of its start and its duration. Two clips that arrive while the
    clock reads [currentTime env] are started, the first at the maximum
    of the cursor and that time, the second at the computed end of the
    first. Over every run of the screen from its initial state, every
    clip starts no earlier than the computed end of any clip scheduled
    before it, so no earlier than its exact end less half a unit in its
    last place; the cursor is a number and never decreases. *)
Theorem playback_schedule :
  (forall (env : Env) (s : State) (a1 a2 : jsstring) (bytes1 bytes2 : list byte)
          (b1 b2 : AudioBuffer),
      wellBehaved (outputContext env) ->
      Number.representable (currentTime env) ->
      Number.representable (nextStartTime s) ->
      outputAudioContext s <> None ->
      truthy a1 = true -> decode a1 = Some bytes1 ->
      decodeAudioData (newUint8Array bytes1) (outputContext env) 24000 1
        = Some b1 ->
      truthy a2 = true -> decode a2 = Some bytes2 ->
      decodeAudioData (newUint8Array bytes2) (outputContext env) 24000 1
        = Some b2 ->
      let start1 := Qmax (nextStartTime s) (currentTime env) in
      scheduled (calls (run s [Message env (audioMessage a1);
                               Message env (audioMessage a2)]))
      = scheduled (calls s)
          ++ [(start1, duration b1);
              (Number.round (start1 + duration b1)%Q, duration b2)])
  /\ (forall evs : list Event,
        Forall okEvent evs ->
        sequenced (scheduled (calls (run initial evs)))
        /\ overlapWithinRounding (scheduled (calls (run initial evs)))
        /\ Number.representable (nextStartTime (run initial evs)))
  /\ (forall (evs : list Event) (e : Event),
        Forall okEvent evs -> okEvent e ->
        (nextStartTime (run initial evs)
         <= nextStartTime (step (run initial evs) e))%Q).
Proof.
  pose proof tidy_initial as Hinit.
  split; [|split].
  - intros env s a1 a2 bytes1 bytes2 b1 b2 Hctx Hnow Hcur Hout
           Ha1 Hd1 Hb1 Ha2 Hd2 Hb2 start1.
    unfold run. cbn [fold_left step]. unfold onmessage.
    change (onmessage_text (audioMessage a1) s) with s.
    destruct (onmessage_audio_clip env (audioMessage a1) s a1 bytes1 b1
                eq_refl Ha1 Hout Hd1 Hb1) as [Hc1 [Ht1 [Ho1 _]]].
    set (s1 := onmessage_audio env (audioMessage a1) s) in *.
    destruct (onmessage_audio_clip env (audioMessage a2) s1 a2 bytes2 b2
                eq_refl Ha2 ltac:(congruence) Hd2 Hb2) as [Hc2 [Ht2 _]].
    change (onmessage_text (audioMessage a2) s1) with s1.
    rewrite Hc2, Hc1, Ht1, !scheduled_app. simpl. rewrite <- app_assoc. simpl.
    fold start1.
    rewrite (Qmax_left (Number.round (start1 + duration b1)) (currentTime env)).
    + reflexivity.
    + assert (0 <= duration b1)%Q as Hd
        by (apply duration_nonneg; eapply decodeAudioData_rate; eauto).
      assert (Number.representable start1) as Hrep
        by (apply Qmax_representable; assumption).
      pose proof (round_add_ge _ _ Hrep Hd).
      pose proof (Q.le_max_r (nextStartTime s) (currentTime env)) as Hr.
      fold start1 in Hr. lra.
  - intros evs Hok. destruct (run_tidy evs initial Hok Hinit) as [[H1 [_ H3]] _].
    split; [exact H1|]. split; [apply sequenced_overlap; exact H1 | exact H3].
  - intros evs e Hok He.
    destruct (run_tidy evs initial Hok Hinit) as [Ht _].
    apply (advances_tidy _ _ _ (fun t => okEvent_clock e t He)
             (step_advances _ e He) Ht).
Qed.

(** A clip of two samples and a clip of three, arriving at clock time 1
    with the cursor at 0. *)
Lemma playback_schedule_witness :
  exists b1 b2 : AudioBuffer,
    scheduled
      (calls
         (run connected
            [Message {| currentTime := 1; outputContext := plainContext |}
                     (audioMessage (lit "AAEC/w=="));
             Message {| currentTime := 1; outputContext := plainContext |}
                     (audioMessage (lit "AAAAAAAA"))]))
    = [] ++ [(Qmax 0 1, duration b1);
             (Number.round (Qmax 0 1 + duration b1)%Q, duration b2)].
Proof.
  eexists. eexists.
  eapply (proj1 playback_schedule
           {| currentTime := 1; outputContext := plainContext |}
           connected
           (lit "AAEC/w==") (lit "AAAAAAAA")).
  - exact plainContext_wellBehaved.
  - vm_compute. reflexivity.
  - vm_compute. reflexivity.
  - discriminate.
  - reflexivity.
  - vm_compute. reflexivity.
  - vm_compute. reflexivity.
  - reflexivity.
  - vm_compute. reflexivity.
  - vm_compute. reflexivity.
Defined.

(** C6, as stated, fails. A clip of three samples and one of two arrive
    at clock time 1 with the cursor at 0. The first starts at 1 and
    lasts the number nearest to 3/24000; the second is started at the
    number nearest to the sum of the two, which is below that sum: not
    at the start of the first plus its duration, and before the first
    has ended. *)
Lemma playback_schedule_rounds_down :
  scheduled (calls (run connected clipsAtOne))
  = [(1%Q, Number.round (3 # 24000));
     (Number.round (1 + Number.round (3 # 24000))%Q, Number.round (2 # 24000))]
  /\ (Number.round (1 + Number.round (3 # 24000))
      < 1 + Number.round (3 # 24000))%Q
  /\ ~ nonOverlapping (scheduled (calls (run connected clipsAtOne))).
Proof.
  assert (scheduled (calls (run connected clipsAtOne))
          = [(1%Q, Number.round (3 # 24000));
             (Number.round (1 + Number.round (3 # 24000))%Q,
              Number.round (2 # 24000))]) as Hl
    by (vm_compute; reflexivity).
  assert (Number.round (1 + Number.round (3 # 24000))
          < 1 + Number.round (3 # 24000))%Q as Hlt
    by (vm_compute; reflexivity).
  split; [exact Hl|]. split; [exact Hlt|].
  rewrite Hl. intros H. inversion_clear H as [|? ? Ha _].
  inversion_clear Ha as [|? ? Hab _]. cbn [fst snd] in Hab.
  apply (Qlt_not_le _ _ Hlt Hab).
Qed.

End Playback.

(** ** Captured frames: conversion and forwarding *)

Section Capture.

Import JS Types AudioUtils Platform.

Lemma wrapInt16_small (v : Z) : -32768 <= v <= 32767 -> wrapInt16 v = v.
Proof.
  intros H. unfold wrapInt16. rewrite Z.mod_small by lia. lia.
Qed.

Lemma truncate_scaled (x : Q) :
  (-1 <= x)%Q -> (x < 1)%Q ->
  -32768 <= truncate (x * 32768) <= 32767
  /\ ((0 <= x)%Q -> 0 <= truncate (x * 32768))
  /\ ((x <= 0)%Q -> truncate (x * 32768) <= 0).
Proof.
  destruct x as [n d]. unfold Qle, Qlt, truncate. cbn.
  rewrite Pos.mul_1_r. intros Hlo Hhi.
  assert (0 < Z.pos d) as Hd by lia.
  pose proof (Z.quot_rem' (n * 32768) (Z.pos d)) as E.
  destruct (Z_le_gt_dec 0 n) as [Hn | Hn].
  - pose proof (Z.rem_bound_pos (n * 32768) (Z.pos d) ltac:(lia) Hd).
    repeat split; intros; nia.
  - pose proof (Z.rem_bound_pos_neg (n * 32768) (Z.pos d) Hd ltac:(lia)).
    repeat split; intros; nia.
Qed.

(** C8, as amended. A captured sample [x] with [-1 <= x < 1] is encoded
    as the truncation of [x * 32768]: the value fits the 16-bit range,
    nothing wraps, and its sign is never opposite to that of [x]. *)
Theorem toInt16Sample_exact (x : Q) :
  (-1 <= x)%Q -> (x < 1)%Q ->
  toInt16Sample x = truncate (x * 32768)
  /\ -32768 <= toInt16Sample x <= 32767
  /\ ((0 <= x)%Q -> 0 <= toInt16Sample x)
  /\ ((x <= 0)%Q -> toInt16Sample x <= 0).
Proof.
  intros Hlo Hhi. destruct (truncate_scaled x Hlo Hhi) as [Hr [Hp Hn]].
  unfold toInt16Sample. rewrite wrapInt16_small by exact Hr. auto.
Qed.

Lemma toInt16Sample_exact_witness :
  toInt16Sample (-1 # 2) = truncate ((-1 # 2) * 32768)
  /\ -32768 <= toInt16Sample (-1 # 2) <= 32767
  /\ ((0 <= -1 # 2)%Q -> 0 <= toInt16Sample (-1 # 2))
  /\ ((-1 # 2 <= 0)%Q -> toInt16Sample (-1 # 2) <= 0).
Proof.
  apply (toInt16Sample_exact (-1 # 2)).
  - unfold Qle. simpl. lia.
  - unfold Qlt. simpl. lia.
Defined.

(** C8, as stated, fails at full scale: [x = 1] lies in [-1, 1], the
    truncation of [1 * 32768] is 32768, and the encoded sample is
    -32768. *)
Lemma toInt16Sample_full_scale :
  (-1 <= 1)%Q /\ (1 <= 1)%Q
  /\ truncate (1 * 32768) = 32768
  /\ toInt16Sample 1 = -32768
  /\ toInt16Sample 1 <> truncate (1 * 32768).
Proof.
  repeat split; try (unfold Qle; simpl; lia). discriminate.
Qed.

Lemma encode_total (b : list byte) : exists data, encode b = Some data.
Proof.
  destruct (atob_btoa (map u8 b)) as [data [He _]].
  { apply Forall_map, List.Forall_forall. intros x _. apply u8_octet. }
  now exists data.
Qed.

Lemma pcmData_total (inputData : list Q) : exists data, pcmData inputData = Some data.
Proof. apply encode_total. Qed.

(** While the session promise is fulfilled, the continuous screen
    forwards a frame exactly when the [isMuted] its callback closed over
    is false; the push-to-talk screen forwards every frame. *)
Lemma Continuous_onaudioprocess_calls (inputData : list Q) (s : Continuous.State) :
  Continuous.sessionPromise s = Some fulfilled ->
  exists data,
    pcmData inputData = Some data
    /\ Continuous.calls (Continuous.onaudioprocess inputData s)
       = if Continuous.closureIsMuted s then Continuous.calls s
         else Continuous.calls s ++ [SendRealtimeInput data].
Proof.
  intros Hp. destruct (pcmData_total inputData) as [data Hd].
  exists data. split; [exact Hd|].
  unfold Continuous.onaudioprocess. rewrite Hd, Hp.
  now destruct (Continuous.closureIsMuted s).
Qed.

(** The mute button changes [isMuted] and nothing else. *)
Lemma toggleMute_frame (s : Continuous.State) :
  Continuous.isMuted (Continuous.toggleMute s) = negb (Continuous.isMuted s)
  /\ Continuous.closureIsMuted (Continuous.toggleMute s) = Continuous.closureIsMuted s
  /\ Continuous.sessionPromise (Continuous.toggleMute s) = Continuous.sessionPromise s
  /\ Continuous.inputAudioContext (Continuous.toggleMute s)
     = Continuous.inputAudioContext s
  /\ Continuous.outputAudioContext (Continuous.toggleMute s)
     = Continuous.outputAudioContext s
  /\ Continuous.stream (Continuous.toggleMute s) = Continuous.stream s
  /\ Continuous.scriptProcessor (Continuous.toggleMute s) = Continuous.scriptProcessor s
  /\ Continuous.source (Continuous.toggleMute s) = Continuous.source s
  /\ Continuous.audioSources (Continuous.toggleMute s) = Continuous.audioSources s
  /\ Continuous.calls (Continuous.toggleMute s) = Continuous.calls s
  /\ Continuous.transcript (Continuous.toggleMute s) = Continuous.transcript s.
Proof. repeat split. Qed.

(** C7 at the failing input. The screen is mounted, the microphone is
    granted and the connection is open; the user presses the mute
    button once, so [isMuted] is true; every frame captured from then
    on is still forwarded to the connection. *)
Theorem muted_frame_is_forwarded (inputData : list Q) :
  Continuous.isMuted (Continuous.toggleMute Continuous.connected) = true
  /\ exists data,
       pcmData inputData = Some data
       /\ Continuous.calls
            (Continuous.onaudioprocess inputData
               (Continuous.toggleMute Continuous.connected))
          = Continuous.calls (Continuous.toggleMute Continuous.connected)
              ++ [SendRealtimeInput data].
Proof.
  split; [reflexivity|].
  destruct (Continuous_onaudioprocess_calls inputData
              (Continuous.toggleMute Continuous.connected) eq_refl)
    as [data [Hd Hc]].
  exists data. split; [exact Hd | exact Hc].
Qed.

End Capture.

(** ** Teardown *)

Section Teardown.

Import JS Types AudioUtils Platform.

Lemma releases_app (l1 l2 : list Call) :
  releases (l1 ++ l2) = releases l1 ++ releases l2.
Proof. apply List.filter_app. Qed.

Lemma releases_all (cs : list Call) :
  forallb isRelease cs = true -> releases cs = cs.
Proof. apply forallb_filter_id. Qed.

(** *** Push-to-talk: the guard flag *)

Lemma cleanupLiveSession_done (s : PushToTalk.State) :
  PushToTalk.cleanupPerformed s = true -> PushToTalk.cleanupLiveSession s = s.
Proof. intros H. unfold PushToTalk.cleanupLiveSession. now rewrite H. Qed.

Lemma cleanupLiveSession_calls (s : PushToTalk.State) :
  PushToTalk.cleanupPerformed (PushToTalk.cleanupLiveSession s) = true
  /\ exists cs,
       PushToTalk.calls (PushToTalk.cleanupLiveSession s) = PushToTalk.calls s ++ cs
       /\ forallb isRelease cs = true
       /\ List.NoDup cs.
Proof.
  unfold PushToTalk.cleanupLiveSession.
  destruct (PushToTalk.cleanupPerformed s) eqn:E.
  { split; [exact E|]. exists []. rewrite app_nil_r. repeat constructor. }
  destruct (PushToTalk.audioStream s); cbn;
    destruct (PushToTalk.scriptProcessor s); cbn;
    destruct (PushToTalk.mediaStreamSource s); cbn;
    destruct (PushToTalk.audioContexts s); cbn;
    destruct (PushToTalk.sessionPromise s) as [[|]|]; cbn;
    (split; [reflexivity|]); rewrite <- ?app_assoc;
    first [ eexists; split; [reflexivity|]
          | exists []; split; [now rewrite app_nil_r|] ];
    (split; [reflexivity|]);
    cbn [app];
    repeat (constructor; [cbn; intuition discriminate|]); constructor.
Qed.

Lemma PushToTalk_endInterview_calls (r : option FeedbackReport) (s : PushToTalk.State) :
  PushToTalk.cleanupPerformed (PushToTalk.endInterview r s) = true
  /\ exists rel,
       releases (PushToTalk.calls (PushToTalk.endInterview r s))
       = releases (PushToTalk.calls s) ++ rel
       /\ List.NoDup rel
       /\ (PushToTalk.cleanupPerformed s = true -> rel = []).
Proof.
  unfold PushToTalk.endInterview.
  match goal with
  | |- context [PushToTalk.cleanupLiveSession ?x] =>
      destruct (cleanupLiveSession_calls x) as [Hp [cs [Hc [Hr Hn]]]];
      pose proof (cleanupLiveSession_done x) as Hd;
      set (s1 := PushToTalk.cleanupLiveSession x) in *
  end.
  cbn in Hc, Hd.
  split; [destruct r; cbn; exact Hp|].
  exists cs. split; [|split; [exact Hn|]].
  - destruct r; cbn; rewrite !releases_app, Hc, releases_app, (releases_all cs Hr);
      cbn; now rewrite ?app_nil_r.
  - intros Hs. specialize (Hd Hs). rewrite Hd in Hc. cbn in Hc.
    rewrite <- (app_nil_r (PushToTalk.calls s)) in Hc at 1.
    apply app_inv_head in Hc. now subst.
Qed.

(** *** Continuous: no flag, the calls are issued again *)

Lemma adds_refl (A : list Call) (s : Continuous.State) : Continuous.adds A s s.
Proof. exists []. split; [now rewrite app_nil_r | intros x []]. Qed.

Lemma adds_trans (A : list Call) (s1 s2 s3 : Continuous.State) :
  Continuous.adds A s1 s2 -> Continuous.adds A s2 s3 -> Continuous.adds A s1 s3.
Proof.
  intros [c1 [E1 I1]] [c2 [E2 I2]]. exists (c1 ++ c2).
  split; [now rewrite E2, E1, app_assoc | now apply incl_app].
Qed.

Lemma adds_weaken (A B : list Call) (s s' : Continuous.State) :
  incl A B -> Continuous.adds A s s' -> Continuous.adds B s s'.
Proof.
  intros HAB [cs [E I]]. exists cs. split; [exact E|].
  intros x Hx. apply HAB, I, Hx.
Qed.

Ltac adds_step :=
  cbn; rewrite <- ?app_assoc;
  first [ eexists; split; [reflexivity | intros x Hx; cbn in *; tauto]
        | apply adds_refl ].

Lemma stopCapture_adds (s : Continuous.State) :
  Continuous.adds [TrackStop; ProcessorDisconnect; SourceDisconnect]
    s (Continuous.stopCapture s)
  /\ Continuous.inputAudioContext (Continuous.stopCapture s)
     = Continuous.inputAudioContext s
  /\ Continuous.outputAudioContext (Continuous.stopCapture s)
     = Continuous.outputAudioContext s.
Proof.
  unfold Continuous.stopCapture, Continuous.adds.
  destruct (Continuous.stream s); cbn;
    destruct (Continuous.scriptProcessor s); cbn;
    destruct (Continuous.source s); (split; [adds_step | split; reflexivity]).
Qed.

Lemma closeSession_adds (s : Continuous.State) :
  Continuous.adds [SessionClose] s (Continuous.closeSession s)
  /\ Continuous.inputAudioContext (Continuous.closeSession s)
     = Continuous.inputAudioContext s
  /\ Continuous.outputAudioContext (Continuous.closeSession s)
     = Continuous.outputAudioContext s.
Proof.
  unfold Continuous.closeSession, Continuous.adds.
  destruct (Continuous.sessionPromise s) as [[|]|];
    (split; [adds_step | split; reflexivity]).
Qed.

(** C5 at the failing input. In the continuous screen, with the
    microphone granted and the connection open, the user ends the
    interview and the screen is then unmounted. [endInterview] stops the
    track, disconnects the two nodes, closes the two audio contexts and
    closes the session; the cleanup of the effect keeps no record of
    that and issues each of the six calls a second time. *)
Theorem continuous_teardown_repeats (r : FeedbackReport) :
  releases (Continuous.calls
              (Continuous.endInterview (Some r) Continuous.connected))
  = [TrackStop; ProcessorDisconnect; SourceDisconnect; InputContextClose;
     OutputContextClose; SessionClose]
  /\ releases (Continuous.calls
                 (Continuous.run Continuous.connected
                    [Continuous.EndInterview (Some r); Continuous.Unmount]))
     = [TrackStop; ProcessorDisconnect; SourceDisconnect; InputContextClose;
        OutputContextClose; SessionClose;
        TrackStop; ProcessorDisconnect; SourceDisconnect; InputContextClose;
        OutputContextClose; SessionClose].
Proof. repeat split. Qed.

End Teardown.

(** ** Failure of the report generator *)

Section Report.

Import JS Types AudioUtils Platform.

Lemma onmessage_isGeneratingReport (env : Env) (m : LiveServerMessage)
    (s : Continuous.State) :
  Continuous.isGeneratingReport (Continuous.onmessage env m s)
  = Continuous.isGeneratingReport s.
Proof.
  unfold Continuous.onmessage, Continuous.onmessage_audio.
  assert (Continuous.isGeneratingReport (Continuous.onmessage_text m s)
          = Continuous.isGeneratingReport s) as Ht.
  { unfold Continuous.onmessage_text.
    destruct (outputTranscription m), (inputTranscription m), (turnComplete m);
      reflexivity. }
  destruct (inlineData m) as [a|]; [|exact Ht].
  destruct (truthy a); [|exact Ht].
  destruct (Continuous.outputAudioContext (Continuous.onmessage_text m s));
    [|exact Ht].
  cbn. destruct (decode a) as [b|]; [|exact Ht].
  destruct (decodeAudioData (newUint8Array b) (outputContext env) 24000 1); exact Ht.
Qed.

(** No handler of the continuous screen resets [isGeneratingReport]. *)
Lemma Continuous_step_generating (s : Continuous.State) (e : Continuous.Event) :
  Continuous.isGeneratingReport s = true ->
  Continuous.isGeneratingReport (Continuous.step s e) = true.
Proof.
  intros H.
  destruct e as [mic connect| |inputData|env message| |id| | | |report|]; simpl;
    try exact H.
  - now destruct mic.
  - unfold Continuous.onaudioprocess.
    destruct (pcmData inputData); [|exact H].
    destruct (Continuous.sessionPromise s) as [[|]|]; try exact H.
    now destruct (negb (Continuous.closureIsMuted s)).
  - now rewrite onmessage_isGeneratingReport.
  - exact (eq_trans (Continuous.to_isGeneratingReport _ _ (flush_textOnly s)) H).
  - unfold Continuous.endInterview.
    match goal with
    | |- context [Continuous.closeSession (Continuous.stopPlayback
                    (Continuous.closeInputContext (Continuous.stopCapture ?x)))] =>
        pose proof (Continuous.ro_isGeneratingReport _ _ (teardown_releasesOnly x))
          as Hg
    end.
    destruct report; cbn in *; exact Hg.
  - now rewrite (Continuous.ro_isGeneratingReport _ _ (unmount_releasesOnly s)).
Qed.

Lemma Continuous_run_generating (evs : list Continuous.Event) (s : Continuous.State) :
  Continuous.isGeneratingReport s = true ->
  Continuous.isGeneratingReport (Continuous.run s evs) = true.
Proof.
  revert s. induction evs as [|e evs IH]; intros s H; simpl; [exact H|].
  apply IH, Continuous_step_generating, H.
Qed.

(** C9 at the failing input: the report generator fails in the
    continuous screen. The transcript is left as it was and the status
    is set to the error text, but [isGeneratingReport] stays true: the
    screen renders the spinner, which shows neither the status nor the
    End Interview control, and no later event brings them back. *)
Theorem continuous_report_failure_stuck (s : Continuous.State)
    (evs : list Continuous.Event) :
  let s' := Continuous.endInterview None s in
  Continuous.transcript s' = Continuous.transcript s
  /\ Continuous.status s' = lit "Error generating report. Please try again."
  /\ Continuous.render s' = AnalyzingView
  /\ Continuous.render (Continuous.run s' evs) = AnalyzingView.
Proof.
  intros s'.
  assert (Continuous.isGeneratingReport s' = true) as Hg.
  { unfold s', Continuous.endInterview.
    match goal with
    | |- context [Continuous.closeSession (Continuous.stopPlayback
                    (Continuous.closeInputContext (Continuous.stopCapture ?x)))] =>
        pose proof (Continuous.ro_isGeneratingReport _ _ (teardown_releasesOnly x))
          as H
    end.
    cbn in *. exact H. }
  split; [apply endInterview_transcript|]. split; [reflexivity|].
  unfold Continuous.render.
  now rewrite Hg, (Continuous_run_generating evs s' Hg).
Qed.

Lemma PushToTalk_endInterview_done (r : FeedbackReport) (s : PushToTalk.State) :
  PushToTalk.cleanupPerformed s = true ->
  PushToTalk.calls (PushToTalk.endInterview (Some r) s)
  = PushToTalk.calls s
      ++ [GenerateFeedbackReport (PushToTalk.cleanTranscript (PushToTalk.transcript s));
          OnInterviewEnd (PushToTalk.cleanTranscript (PushToTalk.transcript s)) r].
Proof.
  intros Hp. unfold PushToTalk.endInterview, PushToTalk.cleanupLiveSession.
  cbn. rewrite Hp. cbn. now rewrite <- app_assoc.
Qed.

Lemma PushToTalk_endInterview_failed (s : PushToTalk.State) :
  PushToTalk.transcript (PushToTalk.endInterview None s) = PushToTalk.transcript s
  /\ PushToTalk.status (PushToTalk.endInterview None s)
     = lit "Error generating report. Please try again."
  /\ PushToTalk.isGeneratingReport (PushToTalk.endInterview None s) = false
  /\ PushToTalk.isRecording (PushToTalk.endInterview None s) = false
  /\ PushToTalk.isAiTyping (PushToTalk.endInterview None s) = false.
Proof.
  unfold PushToTalk.endInterview, PushToTalk.cleanupLiveSession. cbn.
  destruct (PushToTalk.cleanupPerformed s); [repeat split|].
  destruct (PushToTalk.audioStream s); cbn;
    destruct (PushToTalk.scriptProcessor s); cbn;
    destruct (PushToTalk.mediaStreamSource s); cbn;
    destruct (PushToTalk.audioContexts s); cbn;
    destruct (PushToTalk.sessionPromise s) as [[|]|]; repeat split.
Qed.

(** In the push-to-talk screen the failure path resets
    [isGeneratingReport]: the session view is back with the error as
    its status and the End Interview control, the transcript is
    untouched, and ending again sends the same cleaned transcript to the
    report generator without releasing anything again. *)
Lemma PushToTalk_report_failure_retry (s : PushToTalk.State) (r : FeedbackReport) :
  PushToTalk.transcript (PushToTalk.endInterview None s) = PushToTalk.transcript s
  /\ PushToTalk.render (PushToTalk.endInterview None s)
     = SessionView (lit "Error generating report. Please try again.")
         (PushToTalk.transcript s) [RecordAnswerButton; EndInterviewButton]
  /\ PushToTalk.calls (PushToTalk.endInterview (Some r) (PushToTalk.endInterview None s))
     = PushToTalk.calls (PushToTalk.endInterview None s)
         ++ [GenerateFeedbackReport (PushToTalk.cleanTranscript (PushToTalk.transcript s));
             OnInterviewEnd (PushToTalk.cleanTranscript (PushToTalk.transcript s)) r].
Proof.
  destruct (PushToTalk_endInterview_failed s) as [Ht [Hs [Hg [Hr Ha]]]].
  destruct (PushToTalk_endInterview_calls None s) as [Hp _].
  split; [exact Ht|]. split.
  - unfold PushToTalk.render. now rewrite Hg, Hr, Ha, Hs, Ht.
  - rewrite (PushToTalk_endInterview_done r _ Hp). now rewrite Ht.
Qed.

End Report.

(** ** Push-to-talk: a recording without speech *)

Section NoSpeech.

Import JS Types AudioUtils Platform PushToTalk.

Lemma setLast_snoc (m m' : TranscriptMessage) (t : list TranscriptMessage) :
  setLast m' (t ++ [m]) = t ++ [m'].
Proof.
  unfold setLast. rewrite length_app. simpl.
  replace (pred (length t + 1)) with (length t + 0)%nat by lia.
  now rewrite insert_app_r.
Qed.

Lemma finalizeUser_snoc (userMessageText u : jsstring)
    (t : list TranscriptMessage) :
  finalizeUser userMessageText (t ++ [{| speaker := USER; text := u |}])
  = t ++ [{| speaker := USER; text := orNoSpeech userMessageText |}].
Proof.
  unfold finalizeUser. rewrite last_snoc. apply setLast_snoc.
Qed.

Lemma cleanTranscript_app (t1 t2 : list TranscriptMessage) :
  cleanTranscript (t1 ++ t2) = cleanTranscript t1 ++ cleanTranscript t2.
Proof. apply List.filter_app. Qed.

Lemma cleanTranscript_noSpeech :
  cleanTranscript [{| speaker := USER; text := lit "(No speech detected)" |}]
  = [{| speaker := USER; text := lit "(No speech detected)" |}].
Proof. vm_compute. reflexivity. Qed.

(** C10. Push-to-talk, a recording that ends with an empty or
    all-white-space transcription while the user's in-progress entry is
    the last one: the entry is kept and its text becomes
    "(No speech detected)"; no message is sent to the chat and no AI
    entry is opened; the entry passes the end-of-interview filter and is
    part of the transcript handed to the report generator. *)
Theorem no_speech_detected (s : State) (t : list TranscriptMessage)
    (u : jsstring) (r : option FeedbackReport) :
  isRecording s = true ->
  forallb isWhiteSpace (liveTranscription s) = true ->
  transcript s = t ++ [{| speaker := USER; text := u |}] ->
  let noSpeech := {| speaker := USER; text := lit "(No speech detected)" |} in
  let s' := handleStopRecording s in
  transcript s' = t ++ [noSpeech]
  /\ isAiTyping s' = isAiTyping s
  /\ (forall m, In (SendMessageStream m) (calls s') ->
                In (SendMessageStream m) (calls s))
  /\ cleanTranscript (transcript s') = cleanTranscript t ++ [noSpeech]
  /\ In (GenerateFeedbackReport (cleanTranscript t ++ [noSpeech]))
        (calls (endInterview r s')).
Proof.
  intros Hrec Hws Ht. cbv zeta.
  set (noSpeech := {| speaker := USER; text := lit "(No speech detected)" |}).
  set (s' := handleStopRecording s).
  assert (transcript s' = t ++ [noSpeech]
          /\ isAiTyping s' = isAiTyping s
          /\ exists cs, calls s' = calls s ++ cs /\ forallb isRelease cs = true)
    as [H1 [H2 [cs [H3 H4]]]].
  { unfold s', handleStopRecording. rewrite Hrec. cbn.
    match goal with
    | |- context [cleanupLiveSession ?x] =>
        destruct (cleanupLiveSession_transcript x) as [Etr [El [_ [Ea _]]]];
        destruct (cleanupLiveSession_calls x) as [_ [cs [Ec [Er _]]]];
        set (s1 := cleanupLiveSession x) in *
    end.
    cbn in Etr, El, Ea, Ec.
    assert (truthy (trim (liveTranscription s1)) = false) as Etrim
      by (now rewrite truthy_trim, El, Hws).
    rewrite Etrim. cbn.
    destruct (trim (liveTranscription s1)) eqn:E; [|discriminate].
    rewrite Etr, Ht, finalizeUser_snoc. eauto. }
  assert (cleanTranscript (transcript s') = cleanTranscript t ++ [noSpeech]) as H5
    by (rewrite H1, cleanTranscript_app; unfold noSpeech;
        now rewrite cleanTranscript_noSpeech).
  split; [exact H1|]. split; [exact H2|]. split; [|split; [exact H5|]].
  - intros m Hm. rewrite H3 in Hm. apply in_app_or in Hm.
    destruct Hm as [Hm | Hm]; [exact Hm|]. exfalso.
    rewrite forallb_forall in H4. specialize (H4 _ Hm). discriminate.
  - rewrite <- H5. unfold endInterview.
    match goal with
    | |- context [cleanupLiveSession ?x] =>
        destruct (cleanupLiveSession_transcript x) as [Etr _]
    end.
    cbn in Etr.
    destruct r; cbn; rewrite Etr; rewrite ?in_app_iff; cbn; auto.
Qed.

(** The opening message, then a recording during which only a blank is
    transcribed. *)
Lemma no_speech_detected_witness :
  transcript (handleStopRecording blankRecording)
  = [{| speaker := AI; text := lit "Hi" |}]
      ++ [{| speaker := USER; text := lit "(No speech detected)" |}]
  /\ isAiTyping (handleStopRecording blankRecording) = isAiTyping blankRecording
  /\ (forall m, In (SendMessageStream m) (calls (handleStopRecording blankRecording)) ->
                In (SendMessageStream m) (calls blankRecording))
  /\ cleanTranscript (transcript (handleStopRecording blankRecording))
     = cleanTranscript [{| speaker := AI; text := lit "Hi" |}]
         ++ [{| speaker := USER; text := lit "(No speech detected)" |}]
  /\ In (GenerateFeedbackReport
           (cleanTranscript [{| speaker := AI; text := lit "Hi" |}]
              ++ [{| speaker := USER; text := lit "(No speech detected)" |}]))
        (calls (endInterview (Some sampleReport) (handleStopRecording blankRecording))).
Proof.
  apply (no_speech_detected blankRecording
           [{| speaker := AI; text := lit "Hi" |}]
           (lit " " ++ lit "...")
           (Some sampleReport)).
  - reflexivity.
  - reflexivity.
  - reflexivity.
Defined.

End NoSpeech.

(** * Further properties of the code *)

(** ** More on the audio helpers *)

Section AudioHelpers.

Import JS Types AudioUtils Platform.

Lemma encode_decode_bytes (b : list byte) :
  exists s, encode b = Some s /\ decode s = Some b
            /\ s = map b64_char (sextets (map u8 b)) ++ padding (length b).
Proof.
  assert (Forall octet (map u8 b)) as Hb
    by (apply Forall_map, List.Forall_forall; intros x _; apply u8_octet).
  destruct (atob_btoa (map u8 b) Hb) as [s [He Hd]].
  exists s. split; [exact He|]. split.
  - unfold decode. rewrite Hd, map_map. f_equal.
    rewrite <- (map_id b) at 2. apply map_ext. intros x. apply toUint8_u8.
  - unfold btoa in He.
    destruct (forallb (fun c => (0 <=? c) && (c <=? 255)) (map u8 b));
      [|discriminate].
    rewrite length_map in He. congruence.
Qed.

(** X1. [encode] never fails; its result has four characters for every
    three bytes, rounded up, each a character of the base64 alphabet or
    the padding sign. *)
Theorem encode_shape (b : list byte) :
  exists s,
    encode b = Some s
    /\ length s = (4 * ((length b + 2) / 3))%nat
    /\ Forall (fun c => b64_value c <> None \/ c = 61) s.
Proof.
  destruct (encode_decode_bytes b) as [s [He [_ ->]]].
  assert (Forall octet (map u8 b)) as Hb
    by (apply Forall_map, List.Forall_forall; intros x _; apply u8_octet).
  eexists. split; [exact He|]. split.
  - destruct (sextets_length (map u8 b)) as [Hl _].
    rewrite length_map in Hl. now rewrite length_app, length_map.
  - apply Forall_app. split.
    + apply Forall_map. eapply Forall_impl; [apply sextets_sextet, Hb|].
      intros v Hv. cbn. left. now rewrite b64_value_char.
    + destruct (padding_cases (length b)) as [-> | [-> | ->]];
        repeat (constructor; [right; reflexivity|]); constructor.
Qed.

Lemma In_remove_padding (c : Z) (d : jsstring) :
  In c d -> (c =? 61) = false -> In c (remove_padding d).
Proof.
  intros Hin Hc. unfold remove_padding.
  destruct (Z.of_nat (length d) mod 4 =? 0); [|exact Hin].
  assert (In c (rev d)) as Hr by (now apply in_rev in Hin).
  destruct (rev d) as [|c1 [|c2 r]] eqn:E; [exact Hin| |].
  - destruct Hr as [<- | []]. now rewrite Hc.
  - destruct (Z.eqb_spec c1 61) as [E1 | E1]; [|exact Hin].
    assert (In c (c2 :: r)) as Hr'.
    { destruct Hr as [<- | Hr]; [|exact Hr].
      apply Z.eqb_neq in Hc. contradiction. }
    destruct (Z.eqb_spec c2 61) as [E2 | E2].
    + destruct Hr' as [<- | Hr']; [apply Z.eqb_neq in Hc; contradiction|].
      now apply in_rev in Hr'.
    + now apply in_rev in Hr'.
Qed.

Lemma values_None (c : Z) (d : jsstring) :
  In c d -> b64_value c = None -> values d = None.
Proof.
  induction d as [|x d IH]; simpl; [tauto|].
  intros [-> | Hin] Hc; [now rewrite Hc|].
  rewrite (IH Hin Hc). now destruct (b64_value x).
Qed.

(** X2. [decode] raises on any text that holds a code unit which is
    neither of the base64 alphabet, nor the padding sign, nor ASCII
    white space: it never returns bytes for such a text. *)
Theorem decode_rejects (s : jsstring) (c : Z) :
  In c s ->
  b64_value c = None -> c <> 61 -> isAsciiWhitespace c = false ->
  decode s = None.
Proof.
  intros Hin Hv Hp Hw. unfold decode, atob.
  assert (In c (remove_padding
                  (List.filter (fun c => negb (isAsciiWhitespace c)) s))) as H.
  { apply In_remove_padding; [|now apply Z.eqb_neq].
    apply filter_In. split; [exact Hin | now rewrite Hw]. }
  rewrite (values_None c _ H Hv).
  now destruct (_ =? 1).
Qed.

Lemma decode_rejects_witness : decode (lit "AB!D") = None.
Proof.
  apply (decode_rejects (lit "AB!D") 33).
  - right. right. left. reflexivity.
  - reflexivity.
  - discriminate.
  - reflexivity.
Defined.

Lemma u8_toUint8 (x : Z) : u8 (toUint8 x) = x mod 256.
Proof.
  unfold u8, toUint8.
  assert (0 <= x mod 256 < 256) as Hx by (apply Z.mod_pos_bound; lia).
  destruct (Byte.of_N (Z.to_N (x mod 256))) as [b|] eqn:E.
  - apply Byte.to_of_N in E. rewrite E. lia.
  - apply Byte.of_N_None_iff in E. lia.
Qed.

Lemma wrapInt16_range (x : Z) : -32768 <= wrapInt16 x <= 32767.
Proof.
  unfold wrapInt16. pose proof (Z.mod_pos_bound (x + 32768) 65536). lia.
Qed.

Lemma view_of_bytes (l : list Z) :
  Forall (fun v => -32768 <= v <= 32767) l ->
  Int16Array_of_buffer (bytes_of_Int16Array l) = Some l.
Proof.
  induction 1 as [|v l Hv _ IH]; [reflexivity|].
  cbn [bytes_of_Int16Array flat_map app Int16Array_of_buffer].
  fold (bytes_of_Int16Array l). rewrite IH, !u8_toUint8. do 2 f_equal.
  unfold wrapInt16. Z.div_mod_to_equations. lia.
Qed.

Lemma bytes_of_Int16Array_length (l : list Z) :
  length (bytes_of_Int16Array l) = (2 * length l)%nat.
Proof.
  induction l as [|v l IH]; [reflexivity|].
  cbn [bytes_of_Int16Array flat_map app length].
  fold (bytes_of_Int16Array l). rewrite IH. lia.
Qed.

(** X3. What the session receives for a captured frame: [pcmData]
    never fails, and decoding its text gives two bytes per sample which,
    read as little-endian 16-bit integers, are exactly the converted
    samples in capture order. *)
Theorem pcmData_roundtrip (inputData : list Q) :
  exists data bytes,
    pcmData inputData = Some data
    /\ decode data = Some bytes
    /\ length bytes = (2 * length inputData)%nat
    /\ Int16Array_of_buffer bytes = Some (map toInt16Sample inputData).
Proof.
  unfold pcmData.
  destruct (encode_decode_bytes
              (bytes_of_Int16Array (map toInt16Sample inputData)))
    as [data [He [Hd _]]].
  exists data, (bytes_of_Int16Array (map toInt16Sample inputData)).
  split; [exact He|]. split; [exact Hd|]. split.
  - now rewrite bytes_of_Int16Array_length, length_map.
  - apply view_of_bytes, Forall_map, List.Forall_forall.
    intros x _. apply wrapInt16_range.
Qed.

Lemma list_ind2 {A : Type} (P : list A -> Prop) :
  P [] -> (forall a, P [a]) -> (forall a b r, P r -> P (a :: b :: r)) ->
  forall l, P l.
Proof.
  intros H0 H1 H2.
  assert (forall l, P l /\ forall a, P (a :: l)) as H.
  { induction l as [|b l [IH1 IH2]]; split; auto. }
  intros l. apply H.
Qed.

Lemma view_parity (data : list byte) :
  match Int16Array_of_buffer data with
  | Some l => length data = (2 * length l)%nat
  | None => Nat.odd (length data) = true
  end.
Proof.
  induction data as [|a|a b r IH] using list_ind2; [reflexivity..|].
  cbn [Int16Array_of_buffer]. destruct (Int16Array_of_buffer r) as [l|].
  - cbn [length]. lia.
  - cbn [length]. now rewrite Nat.odd_succ_succ.
Qed.

Lemma elements_newUint8Array (bytes : list byte) :
  elements (newUint8Array bytes) = bytes.
Proof. unfold elements. cbn. apply firstn_all. Qed.

Lemma view_odd (data : list byte) :
  Int16Array_of_buffer data = None <-> Nat.odd (length data) = true.
Proof.
  pose proof (view_parity data) as H.
  destruct (Int16Array_of_buffer data) as [l|]; [|tauto].
  split; [discriminate|]. rewrite H, Nat.odd_mul. discriminate.
Qed.

Lemma decodeAudioData_odd (data : Uint8Array) (ctx : AudioContext) (rate n : Z) :
  Nat.odd (length (buffer data)) = true -> decodeAudioData data ctx rate n = None.
Proof.
  intros Hodd. unfold decodeAudioData. now rewrite (proj2 (view_odd _) Hodd).
Qed.

(** X4. [decodeAudioData] takes its 16-bit view on the whole buffer
    behind the array it is given, not on the elements of the array: two
    arrays over the same buffer decode alike, whatever their offsets and
    lengths. It raises when the buffer has an odd number of bytes,
    whatever the context, the rate and the channel count; when the
    number is even the view has half as many elements. *)
Theorem odd_buffer_rejected (data : Uint8Array) (ctx : AudioContext)
    (rate n : Z) :
  (forall data' : Uint8Array,
      buffer data' = buffer data ->
      decodeAudioData data' ctx rate n = decodeAudioData data ctx rate n)
  /\ (Nat.odd (length (buffer data)) = true ->
      decodeAudioData data ctx rate n = None)
  /\ (Nat.odd (length (buffer data)) = false ->
      exists v, Int16Array_of_buffer (buffer data) = Some v
                /\ length (buffer data) = (2 * length v)%nat).
Proof.
  split; [|split].
  - intros data' E. unfold decodeAudioData. now rewrite E.
  - apply decodeAudioData_odd.
  - intros Heven. pose proof (view_parity (buffer data)) as H.
    destruct (Int16Array_of_buffer (buffer data)) as [v|]; [eauto | congruence].
Qed.

(** The array [decode] returns for three bytes is refused; an array of
    three elements over a buffer of four bytes is decoded as the array
    of all four is. *)
Lemma odd_buffer_rejected_witness :
  decodeAudioData (newUint8Array [x01; x00; x02]) plainContext 24000 1 = None
  /\ decodeAudioData
       {| buffer := [x01; x00; x02; x00]; byteOffset := 0; byteLength := 3 |}
       plainContext 24000 1
     = decodeAudioData (newUint8Array [x01; x00; x02; x00]) plainContext 24000 1
  /\ exists v, Int16Array_of_buffer [x01; x00; x02; x00] = Some v
               /\ 4%nat = (2 * length v)%nat.
Proof.
  split; [|split].
  - apply (proj1 (proj2 (odd_buffer_rejected (newUint8Array [x01; x00; x02])
                           plainContext 24000 1))).
    reflexivity.
  - apply (proj1 (odd_buffer_rejected (newUint8Array [x01; x00; x02; x00])
                    plainContext 24000 1)).
    reflexivity.
  - apply (proj2 (proj2 (odd_buffer_rejected (newUint8Array [x01; x00; x02; x00])
                           plainContext 24000 1))).
    reflexivity.
Defined.



End AudioHelpers.

(** ** More on the continuous screen *)

Section FinalizedTranscript.

Import JS Types AudioUtils Platform Continuous Invariants.

Lemma trimStart_head_plain (l : jsstring) (c : Z) (r : jsstring) :
  trimStart l = c :: r -> isWhiteSpace c = false.
Proof.
  induction l as [|x l IH]; simpl; [discriminate|].
  destruct (isWhiteSpace x) eqn:E; [exact IH|].
  intros H. injection H as -> _. exact E.
Qed.

Lemma trimStart_fixed (l : jsstring) :
  trimStart (trimStart l) = trimStart l.
Proof.
  destruct (trimStart l) as [|c r] eqn:E; [reflexivity|].
  simpl. now rewrite (trimStart_head_plain l c r E).
Qed.

Lemma trimStart_snoc (x : jsstring) (c : Z) :
  isWhiteSpace c = false -> trimStart (x ++ [c]) = trimStart x ++ [c].
Proof.
  intros Hc. induction x as [|a x IH]; simpl; [now rewrite Hc|].
  now destruct (isWhiteSpace a).
Qed.

(** [trim] returns a text on which neither end can be trimmed further. *)
Lemma trim_ends (t : jsstring) :
  trimStart (trim t) = trim t /\ trimStart (rev (trim t)) = rev (trim t).
Proof.
  unfold trim, trimEnd. split.
  - destruct (trimStart t) as [|c r] eqn:E; [reflexivity|].
    pose proof (trimStart_head_plain t c r E) as Hc.
    simpl. rewrite trimStart_snoc by exact Hc.
    rewrite rev_app_distr. simpl. now rewrite Hc.
  - rewrite rev_involutive. apply trimStart_fixed.
Qed.

Lemma trim_idempotent (t : jsstring) : trim (trim t) = trim t.
Proof.
  destruct (trim_ends t) as [H1 H2].
  unfold trim at 1. unfold trimEnd. rewrite H1, H2. apply rev_involutive.
Qed.

Lemma pushIf_finalized (sp : Speaker) (t : jsstring) (l : list TranscriptMessage) :
  exists l', pushIf sp t l = l ++ l' /\ Forall finalized l'.
Proof.
  unfold pushIf. destruct (truthy (trim t)) eqn:E.
  - eexists. split; [reflexivity|]. constructor; [|constructor].
    split; cbn; [|apply trim_idempotent].
    intros H. rewrite H in E. discriminate.
  - exists []. split; [now rewrite app_nil_r | constructor].
Qed.

Lemma finalizeTurn_finalized (s : State) :
  exists l, transcript (finalizeTurn s) = transcript s ++ l
            /\ Forall finalized l.
Proof.
  unfold finalizeTurn. cbn.
  destruct (pushIf_finalized USER (currentInputTranscription s) (transcript s))
    as [l1 [-> H1]].
  destruct (pushIf_finalized AI (currentOutputTranscription s)
              (transcript s ++ l1)) as [l2 [-> H2]].
  exists (l1 ++ l2). split; [now rewrite app_assoc | now apply Forall_app].
Qed.

Lemma flush_finalized (s : State) :
  exists l, transcript (flush s) = transcript s ++ l /\ Forall finalized l.
Proof.
  unfold flush.
  change (transcript (set_pendingTurns 0 ?x)) with (transcript x).
  generalize (pendingTurns s). intros n.
  induction n as [|n [l [IH Hl]]].
  - exists []. split; [now rewrite app_nil_r | constructor].
  - change (Nat.iter (S n) finalizeTurn s)
      with (finalizeTurn (Nat.iter n finalizeTurn s)).
    destruct (finalizeTurn_finalized (Nat.iter n finalizeTurn s))
      as [l' [-> Hl']].
    rewrite IH, <- app_assoc. eexists. split; [reflexivity|].
    now apply Forall_app.
Qed.

Lemma step_finalized (s : State) (e : Event) :
  exists l, transcript (step s e) = transcript s ++ l /\ Forall finalized l.
Proof.
  destruct e as [mic connect| |inputData|env message| |id| | | |report|];
    try (exists []; split; [now rewrite app_nil_r | constructor]).
  - exists []. split; [|constructor]. rewrite app_nil_r. cbn. now destruct mic.
  - exists []. split; [|constructor]. rewrite app_nil_r. cbn.
    unfold onaudioprocess.
    destruct (pcmData inputData); [|reflexivity].
    destruct (sessionPromise s) as [[|]|]; try reflexivity.
    now destruct (negb (closureIsMuted s)).
  - cbn. unfold onmessage.
    destruct (onmessage_audio_text env message (onmessage_text message s))
      as [-> _].
    exists []. split; [|constructor]. rewrite app_nil_r.
    unfold onmessage_text.
    now destruct (outputTranscription message), (inputTranscription message),
      (turnComplete message).
  - apply flush_finalized.
  - exists []. split; [|constructor]. rewrite app_nil_r.
    apply endInterview_transcript.
  - exists []. split; [|constructor]. rewrite app_nil_r.
    apply unmount_transcript.
Qed.

(** X6. In the continuous screen every message of the transcript, after
    any events, is finalized: its text is not empty and has no white
    space left to trim at either end. *)
Theorem continuous_transcript_finalized (evs : list Event) :
  Forall finalized (transcript (run initial evs)).
Proof.
  assert (forall s, Forall finalized (transcript s) ->
                    Forall finalized (transcript (run s evs))) as H.
  { induction evs as [|e evs IH]; intros s Hs; [exact Hs|].
    cbn. apply IH.
    destruct (step_finalized s e) as [l [-> Hl]]. now apply Forall_app. }
  apply H. constructor.
Qed.

(** X7. When React runs the queue of [setTranscript] with at least one
    updater in it, the transcript gains what one updater appends, the
    trimmed text of each accumulator that is not blank, however many
    updaters were queued; both accumulators and the queue are left
    empty, and running the queue again changes nothing. Several
    turn-complete signals handled before React gets to the queue thus
    finalize a single turn. *)
Theorem flush_resets (s : State) :
  pendingTurns s <> 0%nat ->
  transcript (flush s)
  = pushIf AI (currentOutputTranscription s)
      (pushIf USER (currentInputTranscription s) (transcript s))
  /\ currentInputTranscription (flush s) = []
  /\ currentOutputTranscription (flush s) = []
  /\ pendingTurns (flush s) = 0%nat
  /\ flush (flush s) = flush s.
Proof.
  intros H. rewrite (flush_pending s H). repeat split.
Qed.

(** "Hel", a signal, "lo" and a second signal, all handled before React
    runs the queue: one message, (USER, "Hello"). *)
Lemma flush_resets_witness :
  transcript
    (flush (run connected
              [Message {| currentTime := 0; outputContext := plainContext |}
                       (inputFragment (lit "Hel"));
               Message {| currentTime := 0; outputContext := plainContext |}
                       turnCompleteSignal;
               Message {| currentTime := 0; outputContext := plainContext |}
                       (inputFragment (lit "lo"));
               Message {| currentTime := 0; outputContext := plainContext |}
                       turnCompleteSignal]))
  = [{| speaker := USER; text := lit "Hello" |}].
Proof.
  refine (eq_trans
            (proj1 (flush_resets
                      (run connected
                         [Message {| currentTime := 0;
                                     outputContext := plainContext |}
                                  (inputFragment (lit "Hel"));
                          Message {| currentTime := 0;
                                     outputContext := plainContext |}
                                  turnCompleteSignal;
                          Message {| currentTime := 0;
                                     outputContext := plainContext |}
                                  (inputFragment (lit "lo"));
                          Message {| currentTime := 0;
                                     outputContext := plainContext |}
                                  turnCompleteSignal])
                      _))
            _).
  - discriminate.
  - reflexivity.
Defined.

End FinalizedTranscript.

Section ReportAndSources.

Import JS Types AudioUtils Platform Continuous Calls Invariants.

Lemma endInterview_calls_shape (r : option FeedbackReport) (s : State) :
  exists cs,
    forallb isRelease cs = true
    /\ calls (endInterview r s)
       = calls s ++ cs
           ++ GenerateFeedbackReport (transcript s)
              :: match r with
                 | Some rep => [OnInterviewEnd (transcript s) rep]
                 | None => []
                 end.
Proof.
  unfold endInterview.
  match goal with
  | |- context [closeSession (stopPlayback (closeInputContext (stopCapture ?x)))] =>
      destruct (teardown_releasesOnly x) as [[cs [Hc Hr]] _ Ht _ _ _ _ _ _ _ _ _ _ _ _ _]
  end.
  cbn in Hc, Ht. exists cs. split; [exact Hr|].
  destruct r; cbn; rewrite Hc, Ht, <- ?app_assoc; reflexivity.
Qed.

(** A message leaves the transcript of the last render as it is. *)
Lemma onmessage_keeps_transcript (env : Env) (m : LiveServerMessage) (s : State) :
  transcript (onmessage env m s) = transcript s.
Proof.
  unfold onmessage.
  destruct (onmessage_audio_text env m (onmessage_text m s)) as [-> _].
  unfold onmessage_text.
  now destruct (outputTranscription m), (inputTranscription m), (turnComplete m).
Qed.

(** X8. The report is made from the transcript of the last render.
    Whatever messages arrive before [endInterview], with the
    turn-complete signal or without it, the report generator and then
    [onInterviewEnd] receive the transcript as it was before them, as
    long as React has not run the queue of [setTranscript] in between:
    neither the text in the accumulators nor a turn whose updater is
    still queued is in the report. *)
Theorem pending_text_unreported (env : Env) (ms : list LiveServerMessage)
    (r : option FeedbackReport) (s : State) :
  exists cs,
    forallb isRelease cs = true
    /\ calls (endInterview r (run s (map (Message env) ms)))
       = calls (run s (map (Message env) ms)) ++ cs
           ++ GenerateFeedbackReport (transcript s)
              :: match r with
                 | Some rep => [OnInterviewEnd (transcript s) rep]
                 | None => []
                 end.
Proof.
  assert (transcript (run s (map (Message env) ms)) = transcript s) as Ht.
  { revert s. induction ms as [|m ms IH]; intros s; [reflexivity|].
    change (transcript (run (onmessage env m s) (map (Message env) ms))
            = transcript s).
    rewrite IH. apply onmessage_keeps_transcript. }
  destruct (endInterview_calls_shape r (run s (map (Message env) ms)))
    as [cs [Hr Hc]].
  exists cs. split; [exact Hr|]. now rewrite Hc, Ht.
Qed.

(** What a step does to the scheduled sources. *)
Lemma onmessage_sources (env : Env) (m : LiveServerMessage) (s : State) :
  (calls (onmessage env m s) = calls s
   /\ audioSources (onmessage env m s) = audioSources s
   /\ nextSourceId (onmessage env m s) = nextSourceId s)
  \/ exists w d,
       calls (onmessage env m s) = calls s ++ [PlaybackStart (nextSourceId s) w d]
       /\ audioSources (onmessage env m s) = audioSources s ++ [nextSourceId s]
       /\ nextSourceId (onmessage env m s) = S (nextSourceId s).
Proof.
  assert (calls (onmessage_text m s) = calls s
          /\ audioSources (onmessage_text m s) = audioSources s
          /\ nextSourceId (onmessage_text m s) = nextSourceId s) as [Hc [Ha Hn]].
  { destruct (onmessage_text_textOnly m s). auto. }
  unfold onmessage, onmessage_audio.
  destruct (inlineData m) as [a|]; [|auto].
  destruct (truthy a); [|auto].
  destruct (outputAudioContext (onmessage_text m s)); [|auto].
  cbn. destruct (decode a) as [b|]; [|auto].
  destruct (decodeAudioData (newUint8Array b) (outputContext env) 24000 1) as [buf|]; [|auto].
  right. cbn. rewrite Hc, Ha, Hn. eauto.
Qed.

Lemma sourcesOk_quiet (s s' : State) :
  audioSources s' = audioSources s -> nextSourceId s' = nextSourceId s ->
  (exists cs, calls s' = calls s ++ cs) ->
  sourcesOk s -> sourcesOk s'.
Proof.
  intros Ha Hn [cs Hc] [H1 [H2 H3]]. unfold sourcesOk.
  rewrite Ha, Hn, Hc. repeat split; auto.
  intros id Hid. destruct (H3 id Hid) as [w [d Hw]].
  exists w, d. apply in_or_app. now left.
Qed.

Lemma step_sourcesOk (s : State) (e : Event) : sourcesOk s -> sourcesOk (step s e).
Proof.
  intros Hs.
  destruct e as [mic connect| |inputData|env message| |id| | | |report|]; cbn.
  - destruct mic; (apply (sourcesOk_quiet s); [reflexivity..| |exact Hs]);
      exists []; now rewrite app_nil_r.
  - apply (sourcesOk_quiet s); [reflexivity..| |exact Hs].
    exists []. now rewrite app_nil_r.
  - unfold onaudioprocess.
    destruct (pcmData inputData); [|exact Hs].
    destruct (sessionPromise s) as [[|]|]; try exact Hs.
    destruct (negb (closureIsMuted s)); [|exact Hs].
    apply (sourcesOk_quiet s); [reflexivity..| |exact Hs]. now eexists.
  - destruct (onmessage_sources env message s)
      as [[Hc [Ha Hn]] | [w [d [Hc [Ha Hn]]]]].
    + apply (sourcesOk_quiet s); auto. exists []. now rewrite app_nil_r.
    + destruct Hs as [H1 [H2 H3]]. unfold sourcesOk. rewrite Ha, Hn, Hc.
      split; [|split].
      * apply List.NoDup_app; [exact H1 | repeat constructor; intros [] |].
        intros x Hx [<- | []]. rewrite List.Forall_forall in H2.
        specialize (H2 _ Hx). lia.
      * apply Forall_app. split; [|repeat constructor].
        eapply Forall_impl; [exact H2|]. cbn. intros; lia.
      * intros id Hid. apply in_app_or in Hid. destruct Hid as [Hid | [<- | []]].
        -- destruct (H3 id Hid) as [w' [d' Hw]]. exists w', d'.
           apply in_or_app. now left.
        -- exists w, d. apply in_or_app. right. now left.
  - destruct (flush_textOnly s) as [Hc _ _ _ _ _ _ _ _ _ _ _ Ha Hn].
    apply (sourcesOk_quiet s); [exact Ha | exact Hn | | exact Hs].
    exists []. rewrite app_nil_r. exact Hc.
  - destruct Hs as [H1 [H2 H3]]. unfold sourcesOk, onended. cbn.
    split; [now apply List.NoDup_filter|]. split.
    + apply List.Forall_forall. intros x Hx. apply filter_In in Hx.
      rewrite List.Forall_forall in H2. now apply H2.
    + intros x Hx. apply filter_In in Hx. now apply H3.
  - apply (sourcesOk_quiet s); [reflexivity..| |exact Hs].
    exists []. now rewrite app_nil_r.
  - apply (sourcesOk_quiet s); [reflexivity..| |exact Hs].
    exists []. now rewrite app_nil_r.
  - apply (sourcesOk_quiet s); [reflexivity..| |exact Hs].
    exists []. now rewrite app_nil_r.
  - destruct (endInterview_calls_shape report s) as [cs [_ Hc]].
    apply (sourcesOk_quiet s); [| | eexists; exact Hc | exact Hs];
      unfold endInterview;
      match goal with
      | |- context [closeSession (stopPlayback (closeInputContext (stopCapture ?x)))] =>
          destruct (teardown_releasesOnly x) as [_ _ _ _ _ _ _ _ _ _ _ _ _ _ Ha Hn]
      end; destruct report; cbn in *; assumption.
  - destruct (unmount_releasesOnly s) as [[cs [Hc _]] _ _ _ _ _ _ _ _ _ _ _ _ _ Ha Hn].
    apply (sourcesOk_quiet s); eauto.
Qed.

End ReportAndSources.

Section SourcesAndOrder.

Import JS Types AudioUtils Platform Continuous Calls Invariants.

Lemma run_sourcesOk (evs : list Event) (s : State) :
  sourcesOk s -> sourcesOk (run s evs).
Proof.
  revert s. induction evs as [|e evs IH]; intros s Hs; [exact Hs|].
  apply IH, step_sourcesOk, Hs.
Qed.

Lemma stopped_app (l1 l2 : list Call) : stopped (l1 ++ l2) = stopped l1 ++ stopped l2.
Proof. apply flat_map_app. Qed.

Lemma stopped_stops (l : list nat) : stopped (map PlaybackStop l) = l.
Proof.
  induction l as [|x l IH]; [reflexivity|].
  change (stopped (map PlaybackStop (x :: l)))
    with (x :: stopped (map PlaybackStop l)).
  now rewrite IH.
Qed.

Lemma stopped_incl (A cs : list Call) :
  stopped A = [] -> incl cs A -> stopped cs = [].
Proof.
  intros HA Hcs.
  assert (forall c, In c A -> forall id, c <> PlaybackStop id) as H.
  { clear Hcs. induction A as [|a A IH]; [intros c []|].
    intros c Hc id ->. destruct Hc as [-> | Hc]; [discriminate|].
    destruct a; cbn in HA; try discriminate; exact (IH HA _ Hc id eq_refl). }
  induction cs as [|c cs IH]; [reflexivity|].
  assert (stopped cs = []) as E by (apply IH; intros x Hx; apply Hcs; now right).
  pose proof (H c (Hcs c (or_introl eq_refl))) as Hc.
  destruct c; cbn; try exact E. now destruct (Hc id).
Qed.

(** With the output context running, [endInterview] stops the sources
    of [audioSources], each once and in the order they were scheduled. *)
Lemma endInterview_stops (r : option FeedbackReport) (s : State) :
  outputAudioContext s = Some running ->
  exists new,
    calls (endInterview r s) = calls s ++ new
    /\ stopped new = audioSources s.
Proof.
  intros Hout. unfold endInterview.
  match goal with
  | |- context [stopCapture ?x] => set (s0 := x)
  end.
  destruct (stopCapture_adds s0) as [[c1 [E1 I1]] [_ Ho1]].
  destruct (stopCapture_releasesOnly s0) as [_ _ _ _ _ _ _ _ _ _ _ _ _ _ Ha1 _].
  set (s1 := stopCapture s0) in *.
  assert (exists c2, calls (closeInputContext s1) = calls s1 ++ c2
                     /\ stopped c2 = []
                     /\ outputAudioContext (closeInputContext s1) = Some running
                     /\ audioSources (closeInputContext s1) = audioSources s)
    as [c2 [E2 [S2 [Ho2 Ha2]]]].
  { unfold closeInputContext.
    destruct (inputAudioContext s1) as [[|]|]; cbn;
      [exists [InputContextClose] | exists [] | exists []];
      rewrite ?app_nil_r, Ho1, Ha1; repeat split; assumption. }
  set (s2 := closeInputContext s1) in *.
  assert (calls (stopPlayback s2)
          = calls s2 ++ map PlaybackStop (audioSources s) ++ [OutputContextClose])
    as E3.
  { unfold stopPlayback. rewrite Ho2. cbn. now rewrite Ha2, <- app_assoc. }
  destruct (closeSession_adds (stopPlayback s2)) as [[c4 [E4 I4]] _].
  assert (stopped c1 = []) as S1 by (eapply stopped_incl; [|exact I1]; reflexivity).
  assert (stopped c4 = []) as S4 by (eapply stopped_incl; [|exact I4]; reflexivity).
  fold s1. fold s2.
  destruct r as [rep|]; eexists;
    (split;
     [ cbn [calls call set_calls set_status]; rewrite E4, E3, E2, E1;
       change (calls s0) with (calls s); rewrite <- !app_assoc; reflexivity |]);
    rewrite !stopped_app, S1, S2, S4, stopped_stops; cbn;
    now rewrite ?app_nil_r.
Qed.

(** X9. In the continuous screen, after any events, the set of
    scheduled sources holds no source twice and only sources that were
    started; a source whose ['ended'] event fired is no longer in it; and
    [endInterview], while the output context is running, stops exactly
    the sources of the set, each once. *)
Theorem scheduled_sources_tracked (evs : list Event) :
  List.NoDup (audioSources (run initial evs))
  /\ (forall id, In id (audioSources (run initial evs)) ->
        exists w d, In (PlaybackStart id w d) (calls (run initial evs)))
  /\ (forall id, ~ In id (audioSources (step (run initial evs) (Ended id))))
  /\ (forall r, outputAudioContext (run initial evs) = Some running ->
        exists new,
          calls (endInterview r (run initial evs))
          = calls (run initial evs) ++ new
          /\ stopped new = audioSources (run initial evs)).
Proof.
  assert (sourcesOk initial) as H0.
  { split; [constructor|]. split; [constructor | intros id []]. }
  destruct (run_sourcesOk evs initial H0) as [H1 [_ H3]].
  split; [exact H1|]. split; [exact H3|]. split.
  - intros id Hid. cbn in Hid. apply filter_In in Hid.
    destruct Hid as [_ Hid]. now rewrite Nat.eqb_refl in Hid.
  - intros r Hout. now apply endInterview_stops.
Qed.

(** One clip was scheduled and has not ended: ending the interview
    stops it. *)
Lemma scheduled_sources_tracked_witness :
  exists new,
    calls (endInterview None
             (run initial
                [StartSession true fulfilled; Open;
                 Message {| currentTime := 1; outputContext := plainContext |}
                         (audioMessage (lit "AAEC/w=="))]))
    = calls (run initial
               [StartSession true fulfilled; Open;
                Message {| currentTime := 1; outputContext := plainContext |}
                        (audioMessage (lit "AAEC/w=="))])
        ++ new
    /\ stopped new
       = audioSources
           (run initial
              [StartSession true fulfilled; Open;
               Message {| currentTime := 1; outputContext := plainContext |}
                       (audioMessage (lit "AAEC/w=="))]).
Proof.
  apply (proj2 (proj2 (proj2
           (scheduled_sources_tracked
              [StartSession true fulfilled; Open;
               Message {| currentTime := 1; outputContext := plainContext |}
                       (audioMessage (lit "AAEC/w=="))]))) None).
  vm_compute. reflexivity.
Defined.

Lemma banded_app (lo1 hi1 lo2 hi2 : nat) (c1 c2 : list Call) :
  (lo1 <= lo2)%nat -> (hi1 <= lo2)%nat -> (hi1 <= hi2)%nat ->
  banded lo1 hi1 c1 -> banded lo2 hi2 c2 -> banded lo1 hi2 (c1 ++ c2).
Proof.
  intros Hlo Hmid Hhi [S1 [B1 R1]] [S2 [B2 R2]]. split; [|split].
  - unfold inTeardownOrder in *. induction S1 as [|a l Hl IH Ha]; [exact S2|].
    inversion_clear B1 as [|? ? Hb B1']. cbn in R1. apply andb_prop in R1.
    cbn. constructor; [apply IH; tauto|].
    apply Forall_app. split; [exact Ha|].
    eapply Forall_impl; [exact B2|]. cbn. intros; lia.
  - apply Forall_app. split; (eapply Forall_impl; [eassumption|]); cbn; intros; lia.
  - now rewrite forallb_app, R1, R2.
Qed.

Ltac banded_cases :=
  rewrite <- ?app_assoc;
  first [ eexists; split; [reflexivity|]
        | exists []; split; [now rewrite app_nil_r|] ];
  cbn [app]; unfold banded, inTeardownOrder;
  (split; [|split; [|reflexivity]]);
  repeat first [ apply SSorted_nil | apply SSorted_cons
               | apply List.Forall_nil | apply List.Forall_cons
               | cbn; lia ].

Lemma stopCapture_banded (s : State) :
  exists cs, calls (stopCapture s) = calls s ++ cs /\ banded 0 2 cs.
Proof.
  unfold stopCapture.
  destruct (stream s); cbn; destruct (scriptProcessor s); cbn;
    destruct (source s); cbn; banded_cases.
Qed.

Lemma closeInputContext_banded (s : State) :
  exists cs, calls (closeInputContext s) = calls s ++ cs /\ banded 3 3 cs.
Proof.
  unfold closeInputContext.
  destruct (inputAudioContext s) as [[|]|]; cbn; banded_cases.
Qed.

Lemma stops_banded (l : list nat) :
  banded 4 5 (map PlaybackStop l ++ [OutputContextClose]).
Proof.
  unfold banded, inTeardownOrder. induction l as [|x l [IH1 [IH2 IH3]]]; cbn.
  - repeat first [ split | apply SSorted_nil | apply SSorted_cons
                 | apply List.Forall_nil | apply List.Forall_cons | cbn; lia ].
  - split; [|split; [|exact IH3]].
    + constructor; [exact IH1|].
      eapply Forall_impl; [exact IH2|]. cbn. intros; lia.
    + constructor; [cbn; lia | exact IH2].
Qed.

Lemma stopPlayback_banded (s : State) :
  exists cs, calls (stopPlayback s) = calls s ++ cs /\ banded 4 5 cs.
Proof.
  unfold stopPlayback.
  destruct (outputAudioContext s) as [[|]|]; cbn; try banded_cases.
  rewrite <- app_assoc. eexists. split; [reflexivity | apply stops_banded].
Qed.

Lemma closeSession_banded (s : State) :
  exists cs, calls (closeSession s) = calls s ++ cs /\ banded 6 6 cs.
Proof.
  unfold closeSession.
  destruct (sessionPromise s) as [[|]|]; cbn; banded_cases.
Qed.

Lemma closeContexts_banded (s : State) :
  exists cs, calls (closeContexts s) = calls s ++ cs /\ banded 3 5 cs.
Proof.
  unfold closeContexts.
  destruct (inputAudioContext s) as [[|]|]; cbn;
    destruct (outputAudioContext s) as [[|]|]; cbn; banded_cases.
Qed.

Lemma cleanupLiveSession_banded (s : PushToTalk.State) :
  exists cs,
    PushToTalk.calls (PushToTalk.cleanupLiveSession s) = PushToTalk.calls s ++ cs
    /\ banded 0 6 cs.
Proof.
  unfold PushToTalk.cleanupLiveSession.
  destruct (PushToTalk.cleanupPerformed s); [banded_cases|].
  destruct (PushToTalk.audioStream s); cbn;
    destruct (PushToTalk.scriptProcessor s); cbn;
    destruct (PushToTalk.mediaStreamSource s); cbn;
    destruct (PushToTalk.audioContexts s); cbn;
    destruct (PushToTalk.sessionPromise s) as [[|]|]; cbn; banded_cases.
Qed.

(** X10. Release calls come in teardown order, whichever resources are
    held: tracks, processor, source, input context, scheduled playback,
    output context, session. This holds for [endInterview] and the
    unmount cleanup of the continuous screen and for
    [cleanupLiveSession] of the push-to-talk screen. *)
Theorem teardown_order :
  (forall (s : State) (r : option FeedbackReport),
      exists rel,
        releases (calls (endInterview r s)) = releases (calls s) ++ rel
        /\ inTeardownOrder rel)
  /\ (forall s : State,
        exists rel,
          calls (unmount s) = calls s ++ rel
          /\ forallb isRelease rel = true /\ inTeardownOrder rel)
  /\ (forall s : PushToTalk.State,
        exists rel,
          PushToTalk.calls (PushToTalk.cleanupLiveSession s)
          = PushToTalk.calls s ++ rel
          /\ forallb isRelease rel = true /\ inTeardownOrder rel).
Proof.
  split; [|split].
  - intros s r. unfold endInterview.
    match goal with
    | |- context [stopCapture ?x] => set (s0 := x)
    end.
    destruct (stopCapture_banded s0) as [c1 [E1 B1]].
    destruct (closeInputContext_banded (stopCapture s0)) as [c2 [E2 B2]].
    destruct (stopPlayback_banded (closeInputContext (stopCapture s0)))
      as [c3 [E3 B3]].
    destruct (closeSession_banded
                (stopPlayback (closeInputContext (stopCapture s0))))
      as [c4 [E4 B4]].
    pose proof (banded_app 0 2 3 3 c1 c2 ltac:(lia) ltac:(lia) ltac:(lia) B1 B2)
      as B12.
    pose proof (banded_app 0 3 4 5 _ c3 ltac:(lia) ltac:(lia) ltac:(lia) B12 B3)
      as B123.
    pose proof (banded_app 0 5 6 6 _ c4 ltac:(lia) ltac:(lia) ltac:(lia) B123 B4)
      as [Hs [_ Hr]].
    exists (((c1 ++ c2) ++ c3) ++ c4). split; [|exact Hs].
    rewrite <- (releases_all _ Hr).
    destruct r; cbn [calls call set_calls set_status];
      rewrite E4, E3, E2, E1; change (calls s0) with (calls s);
      rewrite !releases_app; cbn;
      rewrite ?app_nil_r, <- ?app_assoc; reflexivity.
  - intros s. unfold unmount.
    destruct (stopCapture_banded s) as [c1 [E1 B1]].
    destruct (closeContexts_banded (stopCapture s)) as [c2 [E2 B2]].
    destruct (closeSession_banded (closeContexts (stopCapture s)))
      as [c3 [E3 B3]].
    pose proof (banded_app 0 2 3 5 c1 c2 ltac:(lia) ltac:(lia) ltac:(lia) B1 B2)
      as B12.
    pose proof (banded_app 0 5 6 6 _ c3 ltac:(lia) ltac:(lia) ltac:(lia) B12 B3)
      as [Hs [_ Hr]].
    exists ((c1 ++ c2) ++ c3). split; [|split; assumption].
    now rewrite E3, E2, E1, <- !app_assoc.
  - intros s. destruct (cleanupLiveSession_banded s) as [cs [E [Hs [_ Hr]]]].
    exists cs. auto.
Qed.

End SourcesAndOrder.

(** ** More on the push-to-talk screen *)

Section SpokenTurn.

Import JS Types AudioUtils Platform PushToTalk.

Lemma run_snoc (s : State) (evs : list Event) (e : Event) :
  run s (evs ++ [e]) = step (run s evs) e.
Proof. unfold run. now rewrite fold_left_app. Qed.

(** While a recording runs, the fragments are shown in the last entry. *)
Lemma recording_fragments (fs : list jsstring) (s : State)
    (t : list TranscriptMessage) (m : TranscriptMessage) :
  transcript s = t ++ [m] ->
  fs <> [] ->
  let s' := run s (map (fun f => Message (inputFragment f)) fs) in
  transcript s'
  = t ++ [{| speaker := USER;
             text := (liveTranscription s ++ concat fs) ++ lit "..." |}]
  /\ liveTranscription s' = liveTranscription s ++ concat fs
  /\ isRecording s' = isRecording s
  /\ isAiTyping s' = isAiTyping s
  /\ chat s' = chat s
  /\ calls s' = calls s
  /\ cleanupPerformed s' = cleanupPerformed s
  /\ audioStream s' = audioStream s
  /\ scriptProcessor s' = scriptProcessor s
  /\ mediaStreamSource s' = mediaStreamSource s
  /\ audioContexts s' = audioContexts s
  /\ sessionPromise s' = sessionPromise s.
Proof.
  revert s m. induction fs as [|f fs IH]; intros s m Ht Hne; [congruence|].
  cbn zeta.
  change (run s (map (fun f => Message (inputFragment f)) (f :: fs)))
    with (run (onmessage (inputFragment f) s)
              (map (fun f => Message (inputFragment f)) fs)).
  assert (transcript (onmessage (inputFragment f) s)
          = t ++ [{| speaker := USER;
                     text := (liveTranscription s ++ f) ++ lit "..." |}]) as Ht'.
  { cbn. rewrite Ht. apply setLast_snoc. }
  destruct fs as [|g fs].
  - cbn [map run fold_left concat]. rewrite app_nil_r.
    split; [exact Ht'|]. repeat split.
  - destruct (IH (onmessage (inputFragment f) s) _ Ht' ltac:(discriminate))
      as [H1 H2].
    cbn zeta in H1, H2. rewrite H1.
    change (liveTranscription (onmessage (inputFragment f) s))
      with (liveTranscription s ++ f) in *.
    cbn [concat]. rewrite <- !app_assoc in *.
    split; [reflexivity|]. exact H2.
Qed.

Lemma cleanupLiveSession_isRecording (s : State) :
  isRecording (cleanupLiveSession s) = isRecording s.
Proof.
  unfold cleanupLiveSession.
  destruct (cleanupPerformed s); [reflexivity|].
  destruct (audioStream s); cbn;
    destruct (scriptProcessor s); cbn;
    destruct (mediaStreamSource s); cbn;
    destruct (audioContexts s); cbn;
    destruct (sessionPromise s) as [[|]|]; reflexivity.
Qed.

Lemma handleStartRecording_ok (s : State) :
  isRecording s = false -> isAiTyping s = false ->
  let s0 := handleStartRecording true fulfilled s in
  transcript s0 = transcript s ++ [{| speaker := USER; text := lit "..." |}]
  /\ liveTranscription s0 = []
  /\ isRecording s0 = true
  /\ isAiTyping s0 = false
  /\ chat s0 = chat s
  /\ calls s0 = calls s
  /\ cleanupPerformed s0 = false.
Proof.
  intros Hr Ht. unfold handleStartRecording. rewrite Hr, Ht. cbn.
  repeat split. exact Ht.
Qed.

(** X11. One spoken turn in the push-to-talk screen, started when
    nothing is recording and the AI is not typing: while the fragments
    arrive the last entry shows their concatenation followed by "...";
    on stop the entry holds the trimmed concatenation, an empty AI entry
    is opened after it, and the trimmed text is sent to the chat after
    the session resources were released. *)
Theorem spoken_turn (s : State) (fs : list jsstring) :
  isRecording s = false -> isAiTyping s = false -> chat s = true ->
  forallb isWhiteSpace (concat fs) = false ->
  let s1 := run (handleStartRecording true fulfilled s)
                (map (fun f => Message (inputFragment f)) fs) in
  transcript s1
  = transcript s ++ [{| speaker := USER; text := concat fs ++ lit "..." |}]
  /\ transcript (handleStopRecording s1)
     = transcript s ++ [{| speaker := USER; text := trim (concat fs) |};
                        {| speaker := AI; text := [] |}]
  /\ (exists cs,
         forallb isRelease cs = true
         /\ calls (handleStopRecording s1)
            = calls s ++ cs ++ [SendMessageStream (trim (concat fs))])
  /\ isRecording (handleStopRecording s1) = false
  /\ isAiTyping (handleStopRecording s1) = true.
Proof.
  intros Hr Ht Hc Hws. cbv zeta.
  destruct (handleStartRecording_ok s Hr Ht)
    as [T0 [L0 [R0 [A0 [C0 [K0 _]]]]]].
  cbv zeta in T0, L0, R0, A0, C0, K0.
  assert (fs <> []) as Hne by (intros ->; discriminate).
  destruct (recording_fragments fs (handleStartRecording true fulfilled s)
              _ _ T0 Hne) as [T1 [L1 [R1 [A1 [C1 [K1 _]]]]]].
  cbv zeta in T1, L1, R1, A1, C1, K1.
  set (s1 := run (handleStartRecording true fulfilled s)
                 (map (fun f => Message (inputFragment f)) fs)) in *.
  rewrite L0 in T1, L1. cbn [app] in T1, L1.
  rewrite R0 in R1. rewrite C0, Hc in C1. rewrite K0 in K1.
  split; [exact T1|].
  unfold handleStopRecording. rewrite R1. cbn [negb].
  match goal with
  | |- context [cleanupLiveSession ?x] =>
      destruct (cleanupLiveSession_transcript x) as [Etr [El [Ec [Ea _]]]];
      destruct (cleanupLiveSession_calls x) as [_ [cs [Ek [Er _]]]];
      set (s2 := cleanupLiveSession x) in *
  end.
  cbn in Etr, El, Ec, Ea, Ek.
  assert (truthy (trim (concat fs)) = true) as Etrim
    by (now rewrite truthy_trim, Hws).
  cbn. rewrite El, L1, Etrim, Ec, C1. cbn.
  rewrite Etr, T1, finalizeUser_snoc. unfold orNoSpeech. rewrite Etrim.
  split; [now rewrite <- app_assoc|]. split; [|split; [|reflexivity]].
  - exists cs. split; [exact Er|]. now rewrite Ek, K1, <- app_assoc.
  - unfold s2. now rewrite cleanupLiveSession_isRecording.
Qed.

Lemma spoken_turn_witness :
  transcript (run (handleStartRecording true fulfilled
                     (run (mount initial) [Chunk (Some (lit "Hi")); StreamDone]))
                (map (fun f => Message (inputFragment f)) [lit "Hel"; lit "lo "]))
  = transcript (run (mount initial) [Chunk (Some (lit "Hi")); StreamDone])
      ++ [{| speaker := USER;
             text := concat [lit "Hel"; lit "lo "] ++ lit "..." |}]
  /\ transcript
       (handleStopRecording
          (run (handleStartRecording true fulfilled
                  (run (mount initial) [Chunk (Some (lit "Hi")); StreamDone]))
             (map (fun f => Message (inputFragment f)) [lit "Hel"; lit "lo "])))
     = transcript (run (mount initial) [Chunk (Some (lit "Hi")); StreamDone])
         ++ [{| speaker := USER; text := trim (concat [lit "Hel"; lit "lo "]) |};
             {| speaker := AI; text := [] |}]
  /\ (exists cs,
         forallb isRelease cs = true
         /\ calls
              (handleStopRecording
                 (run (handleStartRecording true fulfilled
                         (run (mount initial) [Chunk (Some (lit "Hi")); StreamDone]))
                    (map (fun f => Message (inputFragment f))
                       [lit "Hel"; lit "lo "])))
            = calls (run (mount initial) [Chunk (Some (lit "Hi")); StreamDone])
                ++ cs
                ++ [SendMessageStream (trim (concat [lit "Hel"; lit "lo "]))])
  /\ isRecording
       (handleStopRecording
          (run (handleStartRecording true fulfilled
                  (run (mount initial) [Chunk (Some (lit "Hi")); StreamDone]))
             (map (fun f => Message (inputFragment f)) [lit "Hel"; lit "lo "])))
     = false
  /\ isAiTyping
       (handleStopRecording
          (run (handleStartRecording true fulfilled
                  (run (mount initial) [Chunk (Some (lit "Hi")); StreamDone]))
             (map (fun f => Message (inputFragment f)) [lit "Hel"; lit "lo "])))
     = true.
Proof.
  apply (spoken_turn (run (mount initial) [Chunk (Some (lit "Hi")); StreamDone])
           [lit "Hel"; lit "lo "]); reflexivity.
Defined.

End SpokenTurn.

Section StreamedReply.

Import JS Types AudioUtils Platform PushToTalk Calls.

Lemma chunks_accumulate (cs : list jsstring) (s : State)
    (t : list TranscriptMessage) (m : TranscriptMessage) :
  transcript s = t ++ [m] ->
  cs <> [] ->
  let s' := run s (map (fun c => Chunk (Some c)) cs) in
  transcript s'
  = t ++ [{| speaker := AI; text := currentAiText s ++ concat cs |}]
  /\ isRecording s' = isRecording s
  /\ isGeneratingReport s' = isGeneratingReport s
  /\ calls s' = calls s.
Proof.
  revert s m. induction cs as [|c cs IH]; intros s m Ht Hne; [congruence|].
  cbn zeta.
  change (run s (map (fun c => Chunk (Some c)) (c :: cs)))
    with (run (onchunk (Some c) s) (map (fun c => Chunk (Some c)) cs)).
  assert (transcript (onchunk (Some c) s)
          = t ++ [{| speaker := AI; text := currentAiText s ++ c |}]) as Ht'.
  { cbn. rewrite Ht. apply setLast_snoc. }
  destruct cs as [|d cs].
  - cbn [map run fold_left concat]. rewrite app_nil_r.
    split; [exact Ht'|]. repeat split.
  - destruct (IH (onchunk (Some c) s) _ Ht' ltac:(discriminate)) as [H1 H2].
    cbn zeta in H1, H2. rewrite H1.
    change (currentAiText (onchunk (Some c) s)) with (currentAiText s ++ c).
    cbn [concat]. rewrite <- !app_assoc.
    split; [reflexivity|]. exact H2.
Qed.

(** X12. A streamed reply in the push-to-talk screen: the chunks are
    concatenated in emission order into the last entry, which becomes
    the AI's, the entries before it are untouched and nothing is sent;
    when the stream is done and nothing is recording, the session view
    offers Record Answer and End Interview again. *)
Theorem streamed_reply (cs : list jsstring) (s : State)
    (t : list TranscriptMessage) (m : TranscriptMessage) :
  transcript s = t ++ [m] ->
  cs <> [] ->
  isRecording s = false -> isGeneratingReport s = false ->
  transcript (run s (map (fun c => Chunk (Some c)) cs))
  = t ++ [{| speaker := AI; text := currentAiText s ++ concat cs |}]
  /\ calls (run s (map (fun c => Chunk (Some c)) cs)) = calls s
  /\ render (run s (map (fun c => Chunk (Some c)) cs ++ [StreamDone]))
     = SessionView (lit "Ready for your answer.")
         (t ++ [{| speaker := AI; text := currentAiText s ++ concat cs |}])
         [RecordAnswerButton; EndInterviewButton].
Proof.
  intros Ht Hne Hr Hg.
  destruct (chunks_accumulate cs s t m Ht Hne) as [H1 [H2 [H3 H4]]].
  cbv zeta in H1, H2, H3, H4.
  split; [exact H1|]. split; [exact H4|].
  rewrite run_snoc. unfold render. cbn. now rewrite H3, Hg, H2, Hr, H1.
Qed.

Lemma streamed_reply_witness :
  transcript (run (mount initial)
                (map (fun c => Chunk (Some c)) [lit "Wel"; lit "come"]))
  = [] ++ [{| speaker := AI;
              text := currentAiText (mount initial)
                        ++ concat [lit "Wel"; lit "come"] |}]
  /\ calls (run (mount initial)
              (map (fun c => Chunk (Some c)) [lit "Wel"; lit "come"]))
     = calls (mount initial)
  /\ render (run (mount initial)
               (map (fun c => Chunk (Some c)) [lit "Wel"; lit "come"]
                  ++ [StreamDone]))
     = SessionView (lit "Ready for your answer.")
         ([] ++ [{| speaker := AI;
                    text := currentAiText (mount initial)
                              ++ concat [lit "Wel"; lit "come"] |}])
         [RecordAnswerButton; EndInterviewButton].
Proof.
  apply (streamed_reply [lit "Wel"; lit "come"] (mount initial) []
           {| speaker := AI; text := [] |}).
  - reflexivity.
  - discriminate.
  - reflexivity.
  - reflexivity.
Defined.

End StreamedReply.

Section ReportTranscript.

Import JS Types AudioUtils Platform PushToTalk.





End ReportTranscript.

Section FailedStart.

Import JS Types AudioUtils Platform PushToTalk.

(** X19. A recording that fails to start in the push-to-talk screen,
    because the microphone is refused or the connection is rejected:
    the screen is not recording and shows the microphone error, no call
    was made, and the "..." placeholder stays in the transcript as its
    last entry; the placeholder is not part of what the report
    generator would receive. *)
Theorem failed_start_leaves_placeholder (mic : bool) (connect : Promise)
    (s : State) :
  isRecording s = false -> isAiTyping s = false ->
  mic = false \/ connect = rejected ->
  transcript (handleStartRecording mic connect s)
  = transcript s ++ [{| speaker := USER; text := lit "..." |}]
  /\ isRecording (handleStartRecording mic connect s) = false
  /\ status (handleStartRecording mic connect s)
     = lit "Mic error. Check permissions."
  /\ calls (handleStartRecording mic connect s) = calls s
  /\ cleanTranscript (transcript (handleStartRecording mic connect s))
     = cleanTranscript (transcript s).
Proof.
  intros Hr Ha Hfail.
  assert (cleanTranscript (transcript s ++ [{| speaker := USER; text := lit "..." |}])
          = cleanTranscript (transcript s)) as Hclean
    by (rewrite cleanTranscript_app; apply app_nil_r).
  unfold handleStartRecording. rewrite Hr, Ha. cbn [orb].
  destruct mic; [destruct connect|]; cbn;
    try (destruct Hfail; discriminate); auto.
Qed.

Lemma failed_start_leaves_placeholder_witness :
  transcript (handleStartRecording false fulfilled (run (mount initial) [StreamDone]))
  = transcript (run (mount initial) [StreamDone])
      ++ [{| speaker := USER; text := lit "..." |}]
  /\ isRecording (handleStartRecording false fulfilled
                    (run (mount initial) [StreamDone])) = false
  /\ status (handleStartRecording false fulfilled
               (run (mount initial) [StreamDone]))
     = lit "Mic error. Check permissions."
  /\ calls (handleStartRecording false fulfilled
              (run (mount initial) [StreamDone]))
     = calls (run (mount initial) [StreamDone])
  /\ cleanTranscript
       (transcript (handleStartRecording false fulfilled
                      (run (mount initial) [StreamDone])))
     = cleanTranscript (transcript (run (mount initial) [StreamDone])).
Proof.
  apply (failed_start_leaves_placeholder false fulfilled
           (run (mount initial) [StreamDone])).
  - reflexivity.
  - reflexivity.
  - left. reflexivity.
Defined.

End FailedStart.

(** ** Forwarding of captured frames *)

Section Forwarding.

Import JS Types AudioUtils Platform.

Lemma PushToTalk_frames (frames : list (list Q)) (s : PushToTalk.State) :
  PushToTalk.sessionPromise s = Some fulfilled ->
  exists datas,
    map pcmData frames = map Some datas
    /\ PushToTalk.calls (PushToTalk.run s (map PushToTalk.AudioProcess frames))
       = PushToTalk.calls s ++ map SendRealtimeInput datas.
Proof.
  revert s. induction frames as [|f frames IH]; intros s Hp.
  - exists []. split; [reflexivity | now rewrite app_nil_r].
  - destruct (pcmData_total f) as [d Hd].
    assert (PushToTalk.onaudioprocess f s
            = PushToTalk.call (SendRealtimeInput d) s) as E
      by (unfold PushToTalk.onaudioprocess; now rewrite Hd, Hp).
    destruct (IH (PushToTalk.call (SendRealtimeInput d) s) Hp)
      as [datas [Hm Hc]].
    exists (d :: datas). split; [cbn; now rewrite Hd, Hm|].
    change (PushToTalk.run s (map PushToTalk.AudioProcess (f :: frames)))
      with (PushToTalk.run (PushToTalk.onaudioprocess f s)
              (map PushToTalk.AudioProcess frames)).
    rewrite E, Hc. cbn. now rewrite <- app_assoc.
Qed.

Lemma Continuous_frames (frames : list (list Q)) (s : Continuous.State) :
  Continuous.sessionPromise s = Some fulfilled ->
  Continuous.closureIsMuted s = false ->
  exists datas,
    map pcmData frames = map Some datas
    /\ Continuous.calls (Continuous.run s (map Continuous.AudioProcess frames))
       = Continuous.calls s ++ map SendRealtimeInput datas.
Proof.
  revert s. induction frames as [|f frames IH]; intros s Hp Hm.
  - exists []. split; [reflexivity | now rewrite app_nil_r].
  - destruct (pcmData_total f) as [d Hd].
    assert (Continuous.onaudioprocess f s
            = Continuous.call (SendRealtimeInput d) s) as E
      by (unfold Continuous.onaudioprocess; now rewrite Hd, Hp, Hm).
    destruct (IH (Continuous.call (SendRealtimeInput d) s) Hp Hm)
      as [datas [Hmap Hc]].
    exists (d :: datas). split; [cbn; now rewrite Hd, Hmap|].
    change (Continuous.run s (map Continuous.AudioProcess (f :: frames)))
      with (Continuous.run (Continuous.onaudioprocess f s)
              (map Continuous.AudioProcess frames)).
    rewrite E, Hc. cbn. now rewrite <- app_assoc.
Qed.

Lemma PushToTalk_frames_unsent (frames : list (list Q)) (s : PushToTalk.State) :
  PushToTalk.sessionPromise s <> Some fulfilled ->
  PushToTalk.run s (map PushToTalk.AudioProcess frames) = s.
Proof.
  intros Hp. induction frames as [|f frames IH]; [reflexivity|].
  change (PushToTalk.run s (map PushToTalk.AudioProcess (f :: frames)))
    with (PushToTalk.run (PushToTalk.onaudioprocess f s)
            (map PushToTalk.AudioProcess frames)).
  replace (PushToTalk.onaudioprocess f s) with s; [exact IH|].
  unfold PushToTalk.onaudioprocess. destruct (pcmData f); [|reflexivity].
  destruct (PushToTalk.sessionPromise s) as [[|]|]; congruence.
Qed.

(** X15. Captured frames are forwarded in capture order, one
    [sendRealtimeInput] per frame with the frame's encoded data, none
    dropped or repeated: by the push-to-talk screen whenever the session
    promise is fulfilled, by the continuous screen when in addition the
    [isMuted] its callback closed over is false. Without a fulfilled
    session promise the push-to-talk screen sends nothing and its state
    is unchanged. *)
Theorem frames_forwarded_in_order (frames : list (list Q)) :
  (forall s : PushToTalk.State,
      PushToTalk.sessionPromise s = Some fulfilled ->
      exists datas,
        map pcmData frames = map Some datas
        /\ PushToTalk.calls (PushToTalk.run s (map PushToTalk.AudioProcess frames))
           = PushToTalk.calls s ++ map SendRealtimeInput datas)
  /\ (forall s : Continuous.State,
        Continuous.sessionPromise s = Some fulfilled ->
        Continuous.closureIsMuted s = false ->
        exists datas,
          map pcmData frames = map Some datas
          /\ Continuous.calls
               (Continuous.run s (map Continuous.AudioProcess frames))
             = Continuous.calls s ++ map SendRealtimeInput datas)
  /\ (forall s : PushToTalk.State,
        PushToTalk.sessionPromise s <> Some fulfilled ->
        PushToTalk.run s (map PushToTalk.AudioProcess frames) = s).
Proof.
  split; [|split].
  - apply PushToTalk_frames.
  - apply Continuous_frames.
  - apply PushToTalk_frames_unsent.
Qed.

Lemma frames_forwarded_in_order_witness :
  exists datas,
    map pcmData [[1 # 2]; [-1 # 4; 0%Q]] = map Some datas
    /\ Continuous.calls
         (Continuous.run Continuous.connected
            (map Continuous.AudioProcess [[1 # 2]; [-1 # 4; 0%Q]]))
       = Continuous.calls Continuous.connected ++ map SendRealtimeInput datas.
Proof.
  apply (proj1 (proj2 (frames_forwarded_in_order [[1 # 2]; [-1 # 4; 0%Q]]))
           Continuous.connected); reflexivity.
Defined.

End Forwarding.

(** ** The application shell and the interview history *)

Section Shell.

Import JS Types App.

Lemma slice0_app_slice0 {A : Type} (m n : nat) (l1 l2 : list A) :
  (m <= n)%nat -> slice0 m (l1 ++ slice0 n l2) = slice0 m (l1 ++ l2).
Proof.
  unfold slice0. revert m. induction l1 as [|a l1 IH]; intros m Hm.
  - cbn. rewrite firstn_firstn. f_equal. lia.
  - destruct m as [|m]; [reflexivity|]. cbn. f_equal. apply IH. lia.
Qed.

Lemma handleSubmit_accepted (i : Interview) :
  accepted i ->
  handleSubmit (formResume i) (formJobDescription i) (formType i)
  = Some (config (historyItem i)).
Proof.
  destruct i as [r j ty now1 now2 w t rep]. unfold accepted, handleSubmit. cbn.
  intros [Hr Hj]. destruct r; [congruence|]. destruct j; [congruence|].
  reflexivity.
Qed.

Lemma saveToHistory_listable (w : bool) (item : HistoricalInterview)
    (st : Stored) (old : list HistoricalInterview) :
  listable st old ->
  listable (saveToHistory w item st)
    (if w then slice0 10 (item :: old) else old).
Proof.
  intros [[-> ->] | ->]; destruct w; cbn; unfold listable; auto.
Qed.

Lemma settle_listable (s : State) (old : list HistoricalInterview) :
  listable (localStorage s) old -> settle s = s.
Proof.
  intros H. unfold settle.
  destruct (renderContent s); try reflexivity.
  now destruct H as [[-> _] | ->].
Qed.

(** One interview, from the setup screen back to the setup screen. *)
Lemma run_interview (i : Interview) (s : State) (old : list HistoricalInterview) :
  accepted i -> appState s = SETUP -> mounted s = true ->
  listable (localStorage s) old ->
  appState (run s (interviewEvents i)) = SETUP
  /\ mounted (run s (interviewEvents i)) = true
  /\ localStorage (run s (interviewEvents i))
     = saveToHistory (written i) (historyItem i) (localStorage s).
Proof.
  intros Hi Hs Hm Hst.
  assert (step s (Submit (formResume i) (formJobDescription i) (formType i))
          = handleStartInterview (config (historyItem i)) s) as E.
  { unfold step, renderContent. now rewrite Hm, Hs, (handleSubmit_accepted i Hi). }
  unfold interviewEvents, run. cbn [fold_left]. rewrite E.
  set (s1 := handleStartInterview (config (historyItem i)) s).
  set (s2 := handleInterviewEnd (endedAt i) (stampedAt i) (written i)
               (finalTranscript i) (finalReport i) s1).
  assert (step s1 (InterviewEnd (endedAt i) (stampedAt i) (written i)
                     (finalTranscript i) (finalReport i)) = s2) as E1
    by (unfold step; cbn; now rewrite Hm).
  assert (step s2 PracticeAgain = handlePracticeAgain s2) as E2.
  { assert (mounted s2 = true) as Hm2 by exact Hm.
    assert (renderContent s2
            = FeedbackScreen (finalReport i) (finalTranscript i) false) as Hr
      by reflexivity.
    unfold step. rewrite Hm2, Hr.
    apply (settle_listable _
             (if written i then slice0 10 (historyItem i :: old) else old)).
    apply (saveToHistory_listable (written i) (historyItem i)), Hst. }
  rewrite E1, E2. cbn. auto.
Qed.

Lemma run_interviews (l : list Interview) (s : State)
    (old : list HistoricalInterview) :
  Forall accepted l -> appState s = SETUP -> mounted s = true ->
  listable (localStorage s) old ->
  localStorage (run s (concat (map interviewEvents l)))
  = fold_left (fun st i => saveToHistory (written i) (historyItem i) st)
      l (localStorage s).
Proof.
  intros Hl. revert s old.
  induction Hl as [|i l Hi _ IH]; intros s old Hs Hm Hst; [reflexivity|].
  cbn [map concat fold_left]. unfold run. rewrite fold_left_app.
  destruct (run_interview i s old Hi Hs Hm Hst) as [H1 [H2 H3]].
  unfold run in *.
  rewrite (IH _ (if written i then slice0 10 (historyItem i :: old) else old)
             H1 H2); [now rewrite H3|].
  rewrite H3. apply saveToHistory_listable, Hst.
Qed.

Lemma saved_history (l : list Interview) (st : Stored)
    (old : list HistoricalInterview) :
  listable st old ->
  listable
    (fold_left (fun st i => saveToHistory (written i) (historyItem i) st) l st)
    (match List.filter written l with
     | [] => old
     | _ => slice0 10 (rev (map historyItem (List.filter written l)) ++ old)
     end)
  /\ (List.filter written l = [] ->
      fold_left (fun st i => saveToHistory (written i) (historyItem i) st) l st
      = st).
Proof.
  revert st old. induction l as [|i l IH]; intros st old Hst; [auto|].
  cbn [fold_left List.filter].
  pose proof (saveToHistory_listable (written i) (historyItem i) st old Hst) as H1.
  destruct (IH _ _ H1) as [H2 H3].
  destruct (written i) eqn:Hw.
  - split; [|discriminate]. cbn [map rev].
    destruct (List.filter written l) as [|k r] eqn:Hf.
    + cbn [map rev app]. exact H2.
    + rewrite <- app_assoc. cbn [app].
      now rewrite slice0_app_slice0 in H2 by lia.
  - split; [exact H2 | exact H3].
Qed.

(** X16. The history bound. Take complete interviews (form accepted,
    interview ended, Practice Again), starting from the setup screen
    with no stored history or a stored array. An interview whose write
    local storage refuses is not saved. If none is saved, the stored
    value is left as it was; otherwise local storage holds the records
    of the saved interviews, the newest first, followed by what was
    stored before, cut to the first ten: never more than ten records. *)
Theorem history_bound (l : list Interview) (storage : Stored)
    (old : list HistoricalInterview) :
  Forall accepted l ->
  (storage = Missing /\ old = []) \/ storage = Items old ->
  let final :=
    localStorage (run (initial storage) (concat (map interviewEvents l))) in
  let saved := slice0 10 (rev (map historyItem (List.filter written l)) ++ old) in
  (List.filter written l = [] -> final = storage)
  /\ (List.filter written l <> [] -> final = Items saved)
  /\ (length saved <= 10)%nat.
Proof.
  intros Hl Hst final saved.
  assert (initial storage
          = {| appState := SETUP; interviewConfig := None;
               feedbackReport := None; shownTranscript := [];
               viewingHistoryReport := None; localStorage := storage;
               mounted := true |}) as Ei
    by (unfold initial; apply (settle_listable _ old); exact Hst).
  assert (final
          = fold_left (fun st i => saveToHistory (written i) (historyItem i) st)
              l storage) as Ef.
  { unfold final. rewrite Ei.
    match goal with
    | |- localStorage (run ?s0 _) = _ =>
        exact (run_interviews l s0 old Hl eq_refl eq_refl Hst)
    end. }
  destruct (saved_history l storage old Hst) as [H1 H2].
  split; [|split].
  - intros Hf. rewrite Ef. apply H2, Hf.
  - intros Hf. rewrite Ef.
    destruct (List.filter written l) as [|k r] eqn:E; [congruence|].
    destruct H1 as [[_ H1] | H1]; [|exact H1].
    exfalso. unfold slice0 in H1. destruct (rev (map historyItem (k :: r)) ++ old)
      eqn:E2; [|discriminate].
    apply app_eq_nil in E2. destruct E2 as [E2 _].
    apply (f_equal (@length _)) in E2. rewrite length_rev, length_map in E2.
    discriminate.
  - unfold saved, slice0. rewrite length_firstn. lia.
Qed.

(** Eleven interviews, the fourth of which local storage refuses to
    write, starting from a stored array of one record: the ten newest
    saved records are kept, the record stored before is dropped. *)
Lemma history_bound_witness :
  localStorage
    (run (initial (Items [historyItem (sampleInterview 0)]))
       (concat (map interviewEvents
                  (map sampleInterview [10; 20; 30]
                   ++ [{| formResume := lit "cv";
                          formJobDescription := lit "job";
                          formType := BEHAVIORAL;
                          endedAt := 40;
                          stampedAt := 41;
                          written := false;
                          finalTranscript := [];
                          finalReport := sampleReport |}]
                   ++ map sampleInterview
                        [50; 60; 70; 80; 90; 100; 110]))))
  = Items (map (fun k => historyItem (sampleInterview k))
             [110; 100; 90; 80; 70; 60; 50; 30; 20; 10]).
Proof.
  refine (eq_trans
            (proj1 (proj2
               (history_bound
                  (map sampleInterview [10; 20; 30]
                   ++ [{| formResume := lit "cv";
                          formJobDescription := lit "job";
                          formType := BEHAVIORAL;
                          endedAt := 40;
                          stampedAt := 41;
                          written := false;
                          finalTranscript := [];
                          finalReport := sampleReport |}]
                   ++ map sampleInterview [50; 60; 70; 80; 90; 100; 110])
                  (Items [historyItem (sampleInterview 0)])
                  [historyItem (sampleInterview 0)] _ _)) _) _).
  - repeat constructor; discriminate.
  - right. reflexivity.
  - discriminate.
  - reflexivity.
Defined.





Lemma handleSubmit_Some (res jd : jsstring) (ty : InterviewType) (c : InterviewConfig) :
  handleSubmit res jd ty = Some c ->
  resumeText c <> [] /\ jobDescriptionText c <> [].
Proof.
  unfold handleSubmit. destruct res; [discriminate|].
  destruct jd; [discriminate|]. cbn. intros H. injection H as <-.
  split; discriminate.
Qed.

Lemma settle_coherent (s : State) : coherent s -> coherent (settle s).
Proof.
  unfold settle.
  now destruct (renderContent s), (shownHistory (localStorage s)).
Qed.

Lemma step_coherent (s : State) (e : Event) : coherent s -> coherent (step s e).
Proof.
  intros Hs. unfold step. destruct (mounted s); [|exact Hs].
  unfold renderContent.
  destruct (appState s) eqn:Ea.
  - destruct e as [res jd ty|item|n1 n2 w t' r'|]; try exact Hs.
    + destruct (handleSubmit res jd ty) as [c|] eqn:Hc; [|exact Hs].
      unfold coherent. cbn. split; [reflexivity|].
      exists c. split; [reflexivity|]. exact (handleSubmit_Some _ _ _ _ Hc).
    + unfold coherent. cbn. split; [eauto|].
      intros it H. injection H as <-. auto.
  - unfold coherent in Hs. rewrite Ea in Hs. destruct Hs as [Hv [c [Hc Hne]]].
    rewrite Hc. destruct e as [res jd ty|item|n1 n2 w t' r'|];
      try (unfold coherent; rewrite Ea; eauto).
    unfold handleInterviewEnd. rewrite Hc. unfold coherent. cbn.
    split; [eauto|]. rewrite Hv. discriminate.
  - destruct (feedbackReport s), (interviewConfig s), e;
      try exact Hs. apply settle_coherent. exact I.
Qed.

(** X18. Whatever the user does, starting from the setup screen,
    [renderContent] never returns [null]; the interview screen is only shown
    with a configuration whose resume and job description are not
    empty; and a feedback screen flagged as a history view shows the
    report and the transcript of the record that was opened. *)
Theorem shell_coherent (storage : Stored) (evs : list Event) :
  renderContent (run (initial storage) evs) <> BlankView
  /\ (forall c, renderContent (run (initial storage) evs) = InterviewScreen c ->
        resumeText c <> [] /\ jobDescriptionText c <> [])
  /\ (forall r t, renderContent (run (initial storage) evs) = FeedbackScreen r t true ->
        exists item,
          viewingHistoryReport (run (initial storage) evs) = Some item
          /\ r = report item /\ t = transcript item).
Proof.
  assert (coherent (run (initial storage) evs)) as H.
  { assert (forall s, coherent s -> coherent (run s evs)) as Hrun.
    { induction evs as [|e evs IH]; intros s Hs; [exact Hs|].
      apply IH, step_coherent, Hs. }
    apply Hrun. apply settle_coherent. exact I. }
  set (s := run (initial storage) evs) in *.
  unfold coherent in H. unfold renderContent.
  destruct (appState s).
  - repeat split; discriminate.
  - destruct H as [_ [c [-> Hne]]]. split; [discriminate|]. split.
    + intros c' E. injection E as <-. exact Hne.
    + discriminate.
  - destruct H as [[r [c [Hr Hc]]] Hv]. rewrite Hr, Hc.
    split; [discriminate|]. split; [discriminate|].
    intros r' t E. destruct (viewingHistoryReport s) as [item|]; [|discriminate].
    exists item. destruct (Hv item eq_refl) as [H1 H2].
    injection E as <- <-. split; [reflexivity|]. split; congruence.
Qed.

Lemma shell_coherent_witness :
  exists item,
    viewingHistoryReport
      (run (initial Missing)
         [ViewHistory {| id := lit "interview-5"; timestamp := 5;
                         config := {| resumeText := lit "cv";
                                      jobDescriptionText := lit "job";
                                      interviewType := BEHAVIORAL |};
                         report := sampleReport; transcript := [] |}])
    = Some item
    /\ sampleReport = report item /\ [] = transcript item.
Proof.
  apply (proj2 (proj2 (shell_coherent Missing
           [ViewHistory {| id := lit "interview-5"; timestamp := 5;
                           config := {| resumeText := lit "cv";
                                        jobDescriptionText := lit "job";
                                        interviewType := BEHAVIORAL |};
                           report := sampleReport; transcript := [] |}]))).
  reflexivity.
Defined.

End Shell.
